(** * Trivia server: rooms, question source and game cycle

    A shallow embedding of the trivia server (roombase.js, lobby.js,
    trivia-room.js, question-source.js, the handlers of user.js and the
    wiring of the entry script) and the properties proved about it.

    JavaScript numbers that the program only moves by whole steps are [Z]
    (points, seconds, indices, counters that can be compared with -1) or
    [nat] (the right/wrong counters, which start at 0 and are only
    incremented).  Objects with identity (rooms, sockets) live in a store
    and are referred to by address; the JS objects used as dictionaries are
    finite maps; everything the server sends is appended to a trace.

    One turn of the event loop (a socket message, a timer that fires, an
    HTTP response that arrives) is one [step]; a turn that would throw an
    uncaught TypeError has no successor.  Callbacks that wait for the loop
    are kept with their handles, so that [clearTimeout] and the order of
    arrival can be followed.  The accuracy ratio of the final ranking is an
    exact fraction, with no value for 0/0 (NaN, for which every comparison
    is false); [Array.prototype.sort] is a stable insertion sort.  HTTP
    bodies are taken as parsed: a response carries a response code and
    either a token or a list of question records. *)

From Stdlib Require Import ZArith QArith List Permutation Sorted.
From stdpp Require Import base option list strings gmap pretty.

Local Open Scope string_scope.
Local Open Scope list_scope.
Local Open Scope Z_scope.

(** ** JavaScript library functions used by the program *)

Module Js.

(** [Array.prototype.findIndex]: first index whose element satisfies [p],
    or -1. *)
Fixpoint findIndex {A} (p : A → bool) (l : list A) : Z :=
  match l with
  | [] => -1
  | x :: l' =>
      if p x then 0
      else match findIndex p l' with
           | Zneg _ => -1
           | i => i + 1
           end
  end.

(** [Array.prototype.splice(start, 1)] for an integer [start]: a negative
    start counts from the end (clamped at 0), a start past the end removes
    nothing. *)
Definition splice1 {A} (start : Z) (l : list A) : list A :=
  let len := Z.of_nat (length l) in
  let from := if start <? 0 then Z.max (len + start) 0 else Z.min start len in
  delete (Z.to_nat from) l.

(** [Array.prototype.sort(cmp)].  The host's sort is stable; on an array
    whose elements the comparator orders consistently every stable sort
    returns the same array, computed here by insertion from the left: an
    element is placed before the first element it compares below.  Where
    the comparator is not consistent on the array the result of the host's
    sort depends on the engine, and this definition stands for it only on
    arrays of at most two elements. *)
Fixpoint insert_by {A} (cmp : A → A → Z) (x : A) (l : list A) : list A :=
  match l with
  | [] => [x]
  | y :: l' => if cmp x y <? 0 then x :: y :: l' else y :: insert_by cmp x l'
  end.

Definition sort {A} (cmp : A → A → Z) (l : list A) : list A :=
  fold_left (λ acc x, insert_by cmp x acc) l [].

(** Exchange of two array cells, [tmp = a[i]; a[i] = a[j]; a[j] = tmp]. *)
Definition swap {A} (i j : nat) (l : list A) : list A :=
  match l !! i, l !! j with
  | Some x, Some y => <[j:=x]> (<[i:=y]> l)
  | _, _ => l
  end.

(** [Math.floor(Math.random() * n)]: the generator is an oracle; a raw
    draw [r] is scaled into the range [0, n). *)
Definition randomIndex (r n : nat) : nat := (r mod n)%nat.

(** A thrown or rejected [Error], identified by its message. *)
Record Error := mkError { message : string }.

End Js.

(** ** Data model (trivia-room.js) *)

Record Category := mkCategory { cat_id : Z; cat_name : string }.

(** [TriviaQuestion]; [difficulty] is whatever string the supplier sent. *)
Record TriviaQuestion := mkTriviaQuestion {
  question : string;
  answers : list string;
  correctAnswerIndex : Z;
  categoryName : string;
  difficulty : string
}.

(** [getPointValue] *)
Definition getPointValue (q : TriviaQuestion) : Z :=
  if decide (difficulty q = "easy") then 10
  else if decide (difficulty q = "medium") then 25
  else if decide (difficulty q = "hard") then 50
  else 0.

(** [answerResult] *)
Definition INCORRECT : Z := 0.
Definition CORRECT : Z := 1.
Definition SKIPPED : Z := 2.

Record UserStatistics := mkUserStatistics {
  points : Z;
  pointsChange : Z;
  questionsRight : nat;
  questionsWrong : nat;
  selectedAnswerIndex : Z
}.

(** [new UserStatistics()] *)
Definition newUserStatistics : UserStatistics :=
  mkUserStatistics 0 0 0 0 (-1).

Record RoomConfiguration := mkRoomConfiguration {
  category : option Category;
  cfg_difficulty : option string;
  maxSeconds : Z;
  canSkipQuestions : bool;
  questionCount : Z
}.

(** [new RoomConfiguration()] *)
Definition defaultConfiguration : RoomConfiguration :=
  mkRoomConfiguration None None 30 false 0.

(** [hasCategory] and [hasDifficulty]: the field is not [null]. *)
Definition hasCategory (c : RoomConfiguration) : bool :=
  bool_decide (is_Some (category c)).
Definition hasDifficulty (c : RoomConfiguration) : bool :=
  bool_decide (is_Some (cfg_difficulty c)).

(** A connected user: the socket is the identity of the object, the
    nickname is fixed before the user can enter any room. *)
Record User := mkUser { socket : nat; nickname : string }.

Global Instance User_eq_dec : EqDecision User.
Proof. solve_decision. Defined.

(** One line of ['set user stats'] / ['game over']:
    [{nickname: u.nickname, ...this.userStats[u.nickname]}]; spreading a
    missing entry adds no field. *)
Definition StatsEntry : Type := string * option UserStatistics.

(** The accuracy ratio [questionsRight / (questionsRight + questionsWrong)]:
    [None] is NaN (0/0).  The counters are small whole numbers, on which the
    floating-point quotient orders as the exact one does. *)
Definition ratio (s : UserStatistics) : option Q :=
  match (questionsRight s + questionsWrong s)%nat with
  | O => None
  | S n => Some (Z.of_nat (questionsRight s) # Pos.of_succ_nat n)
  end.

(** [x > y] on the ratios: false as soon as one side is NaN. *)
Definition ratio_gt (x y : option Q) : bool :=
  match x, y with
  | Some p, Some q => match Qcompare q p with Lt => true | _ => false end
  | _, _ => false
  end.

(** [compareStats]; every comparison with an undefined field is false. *)
Definition compareStats (a b : StatsEntry) : Z :=
  match a.2, b.2 with
  | Some sa, Some sb =>
      if points sb <? points sa then -1
      else if points sa <? points sb then 1
      else
        let aRatio := ratio sa in
        let bRatio := ratio sb in
        if ratio_gt aRatio bRatio then -1
        else if ratio_gt bRatio aRatio then 1
        else 0
  | _, _ => 0
  end.

(** ** Rooms, the store and the trace *)

(** [RoomBase] has two subclasses; the tag selects the overriding methods. *)
Inductive RoomClass := LobbyClass | TriviaClass.

(** A room object.  A [Lobby] only uses the [RoomBase] fields [room_id] and
    [users]; the remaining fields are those of [TriviaRoom]. *)
Record Room := mkRoom {
  cls : RoomClass;
  room_id : string;
  users : list User;
  name : string;
  timerId : Z;
  secondsLeft : Z;
  currentQuestion : option TriviaQuestion;
  deleteOnLastUser : bool;
  config : RoomConfiguration;
  acceptAnswers : bool;
  questionsAnswered : Z;
  userStats : gmap string UserStatistics
}.

Definition set_users (f : list User → list User) (r : Room) : Room :=
  mkRoom (cls r) (room_id r) (f (users r)) (name r) (timerId r) (secondsLeft r)
    (currentQuestion r) (deleteOnLastUser r) (config r) (acceptAnswers r)
    (questionsAnswered r) (userStats r).
Definition set_timerId (v : Z) (r : Room) : Room :=
  mkRoom (cls r) (room_id r) (users r) (name r) v (secondsLeft r)
    (currentQuestion r) (deleteOnLastUser r) (config r) (acceptAnswers r)
    (questionsAnswered r) (userStats r).
Definition set_secondsLeft (v : Z) (r : Room) : Room :=
  mkRoom (cls r) (room_id r) (users r) (name r) (timerId r) v
    (currentQuestion r) (deleteOnLastUser r) (config r) (acceptAnswers r)
    (questionsAnswered r) (userStats r).
Definition set_currentQuestion (v : option TriviaQuestion) (r : Room) : Room :=
  mkRoom (cls r) (room_id r) (users r) (name r) (timerId r) (secondsLeft r)
    v (deleteOnLastUser r) (config r) (acceptAnswers r)
    (questionsAnswered r) (userStats r).
Definition set_config (v : RoomConfiguration) (r : Room) : Room :=
  mkRoom (cls r) (room_id r) (users r) (name r) (timerId r) (secondsLeft r)
    (currentQuestion r) (deleteOnLastUser r) v (acceptAnswers r)
    (questionsAnswered r) (userStats r).
Definition set_acceptAnswers (v : bool) (r : Room) : Room :=
  mkRoom (cls r) (room_id r) (users r) (name r) (timerId r) (secondsLeft r)
    (currentQuestion r) (deleteOnLastUser r) (config r) v
    (questionsAnswered r) (userStats r).
Definition set_questionsAnswered (v : Z) (r : Room) : Room :=
  mkRoom (cls r) (room_id r) (users r) (name r) (timerId r) (secondsLeft r)
    (currentQuestion r) (deleteOnLastUser r) (config r) (acceptAnswers r)
    v (userStats r).
Definition set_userStats
    (f : gmap string UserStatistics → gmap string UserStatistics) (r : Room) : Room :=
  mkRoom (cls r) (room_id r) (users r) (name r) (timerId r) (secondsLeft r)
    (currentQuestion r) (deleteOnLastUser r) (config r) (acceptAnswers r)
    (questionsAnswered r) (f (userStats r)).

Definition set_selectedAnswerIndex (v : Z) (s : UserStatistics) : UserStatistics :=
  mkUserStatistics (points s) (pointsChange s) (questionsRight s)
    (questionsWrong s) v.

(** [makeRoomInfoObject] (lobby.js) *)
Record RoomInfo := mkRoomInfo {
  info_id : string;
  info_name : string;
  playerCount : nat;
  info_categoryName : string;
  info_difficulty : string
}.

Definition makeRoomInfoObject (r : Room) : RoomInfo :=
  mkRoomInfo (room_id r) (name r) (length (users r))
    (match category (config r) with Some c => cat_name c | None => "Any" end)
    (match cfg_difficulty (config r) with
     | Some d => if decide (d = "") then "Any" else d
     | None => "Any"
     end).

(** The events of the socket protocol, by event name. *)
Inductive Message :=
| UserJoined (nick : string)                       (* 'user joined' *)
| UserLeft (nick : string)                         (* 'user left' *)
| UserList (nicks : list string)                   (* 'user list' *)
| Chat (nick text : string)                        (* 'message' *)
| SetQuestion (q : TriviaQuestion) (questionNumber questionCnt : Z)
                                                   (* 'set question' *)
| SecondsLeft (n : Z)                              (* 'seconds left' *)
| EndQuestion                                      (* 'end question' *)
| AnswerResult (result : Z)                        (* 'answer result' *)
| SetUserStats (updates : list StatsEntry)         (* 'set user stats' *)
| GameOver (stats : list StatsEntry)               (* 'game over' *)
| EnteredGameRoom (id : string)                    (* 'entered game room' *)
| LeftGameRoom                                     (* 'left game room' *)
| RoomList (infos : list RoomInfo)                 (* 'room list' *)
| EnteredLobby                                     (* 'entered lobby' *)
| LeftLobby                                        (* 'left lobby' *)
| NewRoom (info : RoomInfo)                        (* 'new room' *)
| DeleteRoom (info : RoomInfo)                     (* 'delete room' *)
| UpdateRoom (info : RoomInfo).                    (* 'update room' *)

(** What the server does to the outside, in order. *)
Inductive Emission :=
| ToRoom (id : string) (m : Message)       (* io.to(id).emit(...) *)
| ToSocket (s : nat) (m : Message)         (* user.socket.emit(...) *)
| SocketJoin (s : nat) (id : string)       (* socket.join(id) *)
| SocketLeave (s : nat) (id : string)      (* socket.leave(id) *)
| HttpGet (url : string)                   (* axios.get(url) *)
| RetrievalError (e : Js.Error).           (* the console line of the error
                                              callback, which prints [e] *)

(** The published room events of [triviaEventEmitter]. *)
Inductive RoomEvent := NEW_ROOM | DELETE_ROOM | UPDATE_ROOM.

(** ** Question source (question-source.js) *)

Module QuestionSource.

(** One record of the supplier's [results] array. *)
Record RawQuestion := mkRawQuestion {
  raw_question : string;
  correct_answer : string;
  incorrect_answers : list string;
  raw_category : string;
  raw_difficulty : string
}.

(** [response.data]: the question endpoint fills [response_code] and
    [results], the token endpoint fills [token]. *)
Record ResponseData := mkResponseData {
  response_code : Z;
  results : list RawQuestion;
  token : string
}.

(** The settlement of the promise returned by [axios.get]. *)
Inductive HttpResult :=
| Resolved (data : ResponseData)
| Rejected (e : Js.Error).

(** The error thrown by [response.question] when [results[0]] is
    undefined. *)
Definition undefinedResult : Js.Error :=
  Js.mkError "Cannot read properties of undefined (reading 'question')".

(** The shuffle loop of [makeQuestionRequest], from index [i] on: cell [i]
    is exchanged with a randomly drawn cell; [draws] are the successive
    raw values of the generator. *)
Fixpoint shuffleFrom (i : nat) (draws : list nat) (fuel : nat)
    (a : list string) : list string :=
  match fuel with
  | O => a
  | S fuel' =>
      let newIndex := Js.randomIndex (hd O draws) (length a) in
      shuffleFrom (S i) (tl draws) fuel' (Js.swap i newIndex a)
  end.

(** [for (let i = 0; i < answers.length; ++i) ...] *)
Definition shuffle (draws : list nat) (a : list string) : list string :=
  shuffleFrom 0 draws (length a) a.

(** The body of the [then] of [makeQuestionRequest] on [results[0]]. *)
Definition normalize (raw : RawQuestion) (draws : list nat) : TriviaQuestion :=
  let answers0 := incorrect_answers raw ++ [correct_answer raw] in
  let answers1 := shuffle draws answers0 in
  let correctIndex :=
    Js.findIndex (λ a, bool_decide (a = correct_answer raw)) answers1 in
  mkTriviaQuestion (raw_question raw) answers1 correctIndex
    (raw_category raw) (raw_difficulty raw).

(** [makeQuestionRequest(url)] once [axios.get(url)] has settled with
    [res]: the question it resolves to, or the error it rejects with. *)
Definition makeQuestionRequest (res : HttpResult) (draws : list nat)
    : TriviaQuestion + Js.Error :=
  match res with
  | Rejected e => inr e
  | Resolved data =>
      if response_code data =? 4 then inr (Js.mkError "4")
      else match results data with
           | [] => inr undefinedResult
           | raw :: _ => inl (normalize raw draws)
           end
  end.

(** What a pending request of the supplier waits to do next. *)
Inductive Await :=
| AwaitFirst (url : string)
    (* the request of [getTriviaQuestionAsync] made with the cached token;
       [url] is the query without the token *)
| AwaitToken (url : string)
    (* the token request of [getTokenThenRequestQuestion] *)
| AwaitFinal.
    (* the question request of [getTokenThenRequestQuestion] *)

(** One move of the supplier: a request went out and the rest waits for
    its answer, or one of the two callbacks is called. *)
Inductive Progress :=
| Request (url : string) (k : Await)
| OnComplete (q : TriviaQuestion)
| OnError (e : Js.Error).

(** [getSessionTokenForRoom]: the address asked for a token. *)
Definition sessionTokenUrl (id : string) (sessionTokens : gmap string string)
    : string :=
  match sessionTokens !! id with
  | Some t => "https://opentdb.com/api_token.php?command=reset&token=" +:+ t
  | None => "https://opentdb.com/api_token.php?command=request"
  end.

(** [getTokenThenRequestQuestion], up to its first request. *)
Definition getTokenThenRequestQuestion (id url : string)
    (sessionTokens : gmap string string) : Progress :=
  Request (sessionTokenUrl id sessionTokens) (AwaitToken url).

(** The query built from the room's configuration. *)
Definition questionUrl (c : RoomConfiguration) : string :=
  let url := "https://opentdb.com/api.php?amount=1" in
  let url :=
    if hasDifficulty c
    then url +:+ "&difficulty=" +:+ default "" (cfg_difficulty c)
    else url in
  if hasCategory c
  then url +:+ "&category=" +:+ pretty (default 0 (cat_id <$> category c))
  else url.

(** [getTriviaQuestionAsync], up to its first request. *)
Definition getTriviaQuestionAsync (id : string) (c : RoomConfiguration)
    (sessionTokens : gmap string string) : Progress :=
  let url := questionUrl c in
  match sessionTokens !! id with
  | Some t => Request (url +:+ "&token=" +:+ t) (AwaitFirst url)
  | None => getTokenThenRequestQuestion id url sessionTokens
  end.

(** The continuation of a pending request when it settles with [res]:
    the [then]/[catch] handlers of the promise chains. *)
Definition resume (id : string) (k : Await) (res : HttpResult)
    (draws : list nat) (sessionTokens : gmap string string)
    : gmap string string * Progress :=
  match k with
  | AwaitFirst url =>
      match makeQuestionRequest res draws with
      | inl q => (sessionTokens, OnComplete q)
      | inr e =>
          if decide (Js.message e = "4")
          then (sessionTokens, getTokenThenRequestQuestion id url sessionTokens)
          else (sessionTokens, OnError e)
      end
  | AwaitToken url =>
      match res with
      | Resolved data =>
          let t := token data in
          (<[id:=t]> sessionTokens, Request (url +:+ "&token=" +:+ t) AwaitFinal)
      | Rejected e => (sessionTokens, OnError e)
      end
  | AwaitFinal =>
      match makeQuestionRequest res draws with
      | inl q => (sessionTokens, OnComplete q)
      | inr e => (sessionTokens, OnError e)
      end
  end.

(** The whole exchange of one fetch against a script of settlements, one
    per request in the order the requests go out: the addresses
    requested so far, the token cache, and the callback reached ([None]
    while the last request is still pending). *)
Fixpoint run (id : string) (p : Progress)
    (script : list (HttpResult * list nat))
    (sessionTokens : gmap string string) (sent : list string)
    : list string * gmap string string * option (TriviaQuestion + Js.Error) :=
  match p with
  | OnComplete q => (sent, sessionTokens, Some (inl q))
  | OnError e => (sent, sessionTokens, Some (inr e))
  | Request url k =>
      match script with
      | [] => (sent ++ [url], sessionTokens, None)
      | (res, draws) :: script' =>
          let '(tokens', p') := resume id k res draws sessionTokens in
          run id p' script' tokens' (sent ++ [url])
      end
  end.

(** [getCategoryById] *)
Definition getCategoryById (categories : list Category) (id : Z)
    : option Category :=
  List.find (λ c, cat_id c =? id) categories.

End QuestionSource.

(** ** The server state *)

(** A callback waiting in the event loop, with the room it closes over. *)
Inductive Task :=
| TTimer (room : nat)
    (* setTimeout(timer, 1000, room) *)
| TRequestNewQuestion (room : nat)
    (* setTimeout(() => room.requestNewQuestion(), 5000) *)
| TFetch (room : nat) (k : QuestionSource.Await).
    (* a request of the question source, made for [room], in flight *)

(** The module-level variables and the objects they reach. *)
Record World := mkWorld {
  heap : gmap nat Room;                  (* the room objects, by address *)
  nextRoom : nat;                        (* next free address *)
  lobby : nat;                           (* [user.lobby], the one lobby *)
  rooms : list (string * nat);           (* trivia-room.js [rooms], keys in
                                            insertion order *)
  userRoom : gmap nat nat;               (* [user.room], by socket *)
  answerListeners : gmap nat (list (nat * User));
                                         (* the 'answer' listeners of each
                                            socket with the room and user
                                            they close over *)
  categories : list Category;            (* question-source.js [categories] *)
  sessionTokens : gmap string string;    (* question-source.js [sessionTokens] *)
  pending : list (nat * Task);           (* callbacks waiting, by handle *)
  nextId : nat;                          (* next handle *)
  out : list Emission                    (* the trace *)
}.

Definition set_heap (f : gmap nat Room → gmap nat Room) (w : World) : World :=
  mkWorld (f (heap w)) (nextRoom w) (lobby w) (rooms w) (userRoom w)
    (answerListeners w) (categories w) (sessionTokens w) (pending w)
    (nextId w) (out w).
Definition set_nextRoom (v : nat) (w : World) : World :=
  mkWorld (heap w) v (lobby w) (rooms w) (userRoom w)
    (answerListeners w) (categories w) (sessionTokens w) (pending w)
    (nextId w) (out w).
Definition set_rooms (f : list (string * nat) → list (string * nat)) (w : World)
    : World :=
  mkWorld (heap w) (nextRoom w) (lobby w) (f (rooms w)) (userRoom w)
    (answerListeners w) (categories w) (sessionTokens w) (pending w)
    (nextId w) (out w).
Definition set_userRoom (f : gmap nat nat → gmap nat nat) (w : World) : World :=
  mkWorld (heap w) (nextRoom w) (lobby w) (rooms w) (f (userRoom w))
    (answerListeners w) (categories w) (sessionTokens w) (pending w)
    (nextId w) (out w).
Definition set_answerListeners
    (f : gmap nat (list (nat * User)) → gmap nat (list (nat * User)))
    (w : World) : World :=
  mkWorld (heap w) (nextRoom w) (lobby w) (rooms w) (userRoom w)
    (f (answerListeners w)) (categories w) (sessionTokens w) (pending w)
    (nextId w) (out w).
Definition set_sessionTokens (f : gmap string string → gmap string string)
    (w : World) : World :=
  mkWorld (heap w) (nextRoom w) (lobby w) (rooms w) (userRoom w)
    (answerListeners w) (categories w) (f (sessionTokens w)) (pending w)
    (nextId w) (out w).
Definition set_pending (f : list (nat * Task) → list (nat * Task)) (w : World)
    : World :=
  mkWorld (heap w) (nextRoom w) (lobby w) (rooms w) (userRoom w)
    (answerListeners w) (categories w) (sessionTokens w) (f (pending w))
    (nextId w) (out w).
Definition set_nextId (v : nat) (w : World) : World :=
  mkWorld (heap w) (nextRoom w) (lobby w) (rooms w) (userRoom w)
    (answerListeners w) (categories w) (sessionTokens w) (pending w)
    v (out w).
Definition set_out (f : list Emission → list Emission) (w : World) : World :=
  mkWorld (heap w) (nextRoom w) (lobby w) (rooms w) (userRoom w)
    (answerListeners w) (categories w) (sessionTokens w) (pending w)
    (nextId w) (f (out w)).

(** Run [k] on the object at address [ref]. *)
Definition with_room {A} (ref : nat) (w : World) (dflt : A) (k : Room → A) : A :=
  match heap w !! ref with
  | Some r => k r
  | None => dflt
  end.

(** A field assignment on the object at [ref]. *)
Definition updRoom (ref : nat) (f : Room → Room) (w : World) : World :=
  set_heap (alter f ref) w.

Definition emit (e : Emission) (w : World) : World :=
  set_out (λ o, o ++ [e]) w.

(** [this.io.to(this.id).emit(m)] *)
Definition toRoom (ref : nat) (m : Message) (w : World) : World :=
  with_room ref w w (λ r, emit (ToRoom (room_id r) m) w).

(** [setTimeout]: the callback is queued under a fresh handle, which is
    returned. *)
Definition setTimeout (t : Task) (w : World) : nat * World :=
  (nextId w, set_nextId (S (nextId w)) (set_pending (λ p, p ++ [(nextId w, t)]) w)).

(** [clearTimeout(handle)]; a handle that names nothing pending, like -1 or
    that of a callback that already ran, is ignored. *)
Definition clearTimeout (handle : Z) (w : World) : World :=
  set_pending (filter (λ p, Z.of_nat p.1 ≠ handle)) w.

(** [axios.get(url)] with the continuation that waits for it. *)
Definition axiosGet (url : string) (t : Task) (w : World) : World :=
  (setTimeout t (emit (HttpGet url) w)).2.

(** The [rooms] object of trivia-room.js as a JS dictionary. *)
Definition has_key (id : string) (m : list (string * nat)) : bool :=
  bool_decide (id ∈ m.*1).
Definition get_key (id : string) (m : list (string * nat)) : option nat :=
  snd <$> List.find (λ p, bool_decide (p.1 = id)) m.
Definition set_key (id : string) (v : nat) (m : list (string * nat))
    : list (string * nat) :=
  if has_key id m
  then (λ p, if decide (p.1 = id) then (id, v) else p) <$> m
  else m ++ [(id, v)].
Definition delete_key (id : string) (m : list (string * nat))
    : list (string * nat) :=
  filter (λ p, p.1 ≠ id) m.

(** [getRoomById] *)
Definition getRoomById (id : string) (w : World) : option nat :=
  get_key id (rooms w).

(** [getRoomIdList] *)
Definition getRoomIdList (w : World) : list string := (rooms w).*1.

(** ** user.js: [User.setRoom] and [User.leaveRoom] *)

Definition setRoom (user : User) (room : option nat) (w : World) : World :=
  let cur := userRoom w !! socket user in
  if decide (cur = room) then w
  else
    let w :=
      match cur with
      | Some c => with_room c w w (λ r, emit (SocketLeave (socket user) (room_id r)) w)
      | None => w
      end in
    match room with
    | Some n =>
        let w := set_userRoom (<[socket user := n]>) w in
        with_room n w w (λ r, emit (SocketJoin (socket user) (room_id r)) w)
    | None => set_userRoom (delete (socket user)) w
    end.

Definition leaveRoom (user : User) (w : World) : World := setRoom user None w.

(** ** roombase.js *)

(** [isUserInRoom] *)
Definition isUserInRoom (r : Room) (user : User) : bool :=
  negb (Js.findIndex (λ u, bool_decide (u = user)) (users r) =? -1).

Definition sendUserJoined (ref : nat) (user : User) (w : World) : World :=
  toRoom ref (UserJoined (nickname user)) w.

Definition sendUserLeft (ref : nat) (user : User) (w : World) : World :=
  toRoom ref (UserLeft (nickname user)) w.

Definition sendUserList (ref : nat) (user : User) (w : World) : World :=
  with_room ref w w
    (λ r, emit (ToSocket (socket user) (UserList (nickname <$> users r))) w).

(** [sendMessage] *)
Definition sendMessage (ref : nat) (user : User) (text : string) (w : World)
    : World :=
  toRoom ref (Chat (nickname user) text) w.

(** [RoomBase.removeUser] *)
Definition RoomBase_removeUser (ref : nat) (user : User) (w : World) : World :=
  with_room ref w w (λ r,
    let userIndex := Js.findIndex (λ u, bool_decide (u = user)) (users r) in
    let w := updRoom ref (set_users (Js.splice1 userIndex)) w in
    let w := leaveRoom user w in
    sendUserLeft ref user w).

(** ** The room events and their subscribers

    The entry script subscribes, in this order, the question source (which
    forgets the token of a deleted room) and the one lobby (which forwards
    each event to its members). *)
Definition publish (ev : RoomEvent) (ref : nat) (w : World) : World :=
  with_room ref w w (λ r,
    match ev with
    | NEW_ROOM => toRoom (lobby w) (NewRoom (makeRoomInfoObject r)) w
    | DELETE_ROOM =>
        let w := set_sessionTokens (delete (room_id r)) w in
        toRoom (lobby w) (DeleteRoom (makeRoomInfoObject r)) w
    | UPDATE_ROOM => toRoom (lobby w) (UpdateRoom (makeRoomInfoObject r)) w
    end).

(** ** trivia-room.js *)

(** [isGameOver] *)
Definition isGameOver (r : Room) : bool :=
  (questionsAnswered r =? questionCount (config r))
  && negb (questionCount (config r) =? 0).

(** [getUserStats] *)
Definition getUserStats (r : Room) : list StatsEntry :=
  (λ u, (nickname u, userStats r !! nickname u)) <$> users r.

Definition sendUserStatsToAll (ref : nat) (w : World) : World :=
  with_room ref w w (λ r, emit (ToRoom (room_id r) (SetUserStats (getUserStats r))) w).

Definition sendEnteredGameRoom (ref : nat) (user : User) (w : World) : World :=
  with_room ref w w (λ r, emit (ToSocket (socket user) (EnteredGameRoom (room_id r))) w).

Definition sendLeftGameRoom (user : User) (w : World) : World :=
  emit (ToSocket (socket user) LeftGameRoom) w.

(** The payload of ['set question']. *)
Definition questionMessage (r : Room) (q : TriviaQuestion) : Message :=
  SetQuestion q (questionsAnswered r + 1) (questionCount (config r)).

Definition sendCurrentQuestionToOne (ref : nat) (user : User) (w : World) : World :=
  with_room ref w w (λ r,
    match currentQuestion r with
    | Some q => emit (ToSocket (socket user) (questionMessage r q)) w
    | None => w
    end).

Definition sendCurrentQuestionToAll (ref : nat) (w : World) : World :=
  with_room ref w w (λ r,
    match currentQuestion r with
    | Some q => emit (ToRoom (room_id r) (questionMessage r q)) w
    | None => w
    end).

(** The final ranking: [getUserStats().sort(compareStats)]. *)
Definition finalStats (r : Room) : list StatsEntry :=
  Js.sort compareStats (getUserStats r).

Definition sendGameOverToAll (ref : nat) (w : World) : World :=
  with_room ref w w (λ r, emit (ToRoom (room_id r) (GameOver (finalStats r))) w).

Definition sendGameOverToOne (ref : nat) (user : User) (w : World) : World :=
  with_room ref w w (λ r, emit (ToSocket (socket user) (GameOver (finalStats r))) w).

(** [deleteRoom] *)
Definition deleteRoom (ref : nat) (w : World) : World :=
  with_room ref w w (λ r,
    if has_key (room_id r) (rooms w) then
      let w := clearTimeout (timerId r) w in
      let w := updRoom ref (set_timerId (-1)) w in
      let w := set_rooms (delete_key (room_id r)) w in
      publish DELETE_ROOM ref w
    else w).

(** [TriviaRoom.removeUser] *)
Definition TriviaRoom_removeUser (ref : nat) (user : User) (w : World) : World :=
  let w := RoomBase_removeUser ref user w in
  let w := updRoom ref (set_userStats (delete (nickname user))) w in
  let w := set_answerListeners (delete (socket user)) w in
  let w := sendLeftGameRoom user w in
  let w := sendUserStatsToAll ref w in
  with_room ref w w (λ r,
    if bool_decide (length (users r) = 0%nat) && deleteOnLastUser r
    then deleteRoom ref w
    else publish UPDATE_ROOM ref w).

(** [Lobby.removeUser] *)
Definition Lobby_removeUser (ref : nat) (user : User) (w : World) : World :=
  let w := RoomBase_removeUser ref user w in
  emit (ToSocket (socket user) LeftLobby) w.

(** [room.removeUser(user)] on a room of either class. *)
Definition removeUser (ref : nat) (user : User) (w : World) : World :=
  with_room ref w w (λ r,
    match cls r with
    | LobbyClass => Lobby_removeUser ref user w
    | TriviaClass => TriviaRoom_removeUser ref user w
    end).

(** [RoomBase.addUser] *)
Definition RoomBase_addUser (ref : nat) (user : User) (w : World) : World :=
  with_room ref w w (λ r,
    if isUserInRoom r user then w
    else
      let w :=
        match userRoom w !! socket user with
        | Some prev => removeUser prev user w
        | None => w
        end in
      let w := updRoom ref (set_users (λ us, us ++ [user])) w in
      let w := setRoom user (Some ref) w in
      let w := sendUserJoined ref user w in
      sendUserList ref user w).

(** The listener registered by [TriviaRoom.addUser] for ['answer'], for the
    room at [ref] and [user], run on [answerNumber]. *)
Definition answerListener (ref : nat) (user : User) (answerNumber : Z)
    (w : World) : World :=
  with_room ref w w (λ r,
    match userStats r !! nickname user with
    | Some stats =>
        if (selectedAnswerIndex stats =? -1) && acceptAnswers r
        then updRoom ref
               (set_userStats
                  (<[nickname user := set_selectedAnswerIndex answerNumber stats]>)) w
        else w
    | None => w
    end).

(** [TriviaRoom.addUser] *)
Definition TriviaRoom_addUser (ref : nat) (user : User) (w : World) : World :=
  let w := RoomBase_addUser ref user w in
  let w := updRoom ref (set_userStats (<[nickname user := newUserStatistics]>)) w in
  let w := set_answerListeners
             (λ m, <[socket user := default [] (m !! socket user) ++ [(ref, user)]]> m) w in
  let w := sendEnteredGameRoom ref user w in
  let w := sendUserStatsToAll ref w in
  let w := with_room ref w w (λ r,
             if negb (isGameOver r)
             then sendCurrentQuestionToOne ref user w
             else sendGameOverToOne ref user w) in
  publish UPDATE_ROOM ref w.

(** [sendRoomListToUser] (lobby.js) *)
Definition sendRoomListToUser (user : User) (w : World) : World :=
  let response :=
    omap (λ id, makeRoomInfoObject <$> (getRoomById id w ≫= λ ref, heap w !! ref))
         (getRoomIdList w) in
  emit (ToSocket (socket user) (RoomList response)) w.

(** [Lobby.addUser] *)
Definition Lobby_addUser (ref : nat) (user : User) (w : World) : World :=
  let w := RoomBase_addUser ref user w in
  let w := sendRoomListToUser user w in
  emit (ToSocket (socket user) EnteredLobby) w.

(** [room.addUser(user)] on a room of either class. *)
Definition addUser (ref : nat) (user : User) (w : World) : World :=
  with_room ref w w (λ r,
    match cls r with
    | LobbyClass => Lobby_addUser ref user w
    | TriviaClass => TriviaRoom_addUser ref user w
    end).

(** The body of the [forEach] of [sendAnswerResultsAndResetSelections] on
    one member's statistics: the result sent and the statistics left. *)
Definition grade (canSkip : bool) (q : TriviaQuestion) (stats : UserStatistics)
    : Z * UserStatistics :=
  let '(result, change, nRight, nWrong) :=
    if (selectedAnswerIndex stats =? -1) && canSkip
    then (SKIPPED, 0, questionsRight stats, S (questionsWrong stats))
    else
      let result :=
        if selectedAnswerIndex stats =? correctAnswerIndex q
        then CORRECT else INCORRECT in
      let change :=
        if result =? CORRECT then getPointValue q else - getPointValue q in
      if result =? CORRECT
      then (result, change, S (questionsRight stats), questionsWrong stats)
      else (result, change, questionsRight stats, S (questionsWrong stats)) in
  let pts := points stats + change in
  let pts := if pts <? 0 then 0 else pts in
  (result, mkUserStatistics pts change nRight nWrong (selectedAnswerIndex stats)).

(** One turn of the [forEach]: reading a field of a missing statistics
    entry throws ([None]). *)
Definition gradeUser (ref : nat) (q : TriviaQuestion) (user : User) (w : World)
    : option World :=
  with_room ref w None (λ r,
    stats ← userStats r !! nickname user;
    let '(result, stats') := grade (canSkipQuestions (config r)) q stats in
    let w := updRoom ref (set_userStats (<[nickname user := stats']>)) w in
    Some (emit (ToSocket (socket user) (AnswerResult result)) w)).

Fixpoint forEach {A} (f : A → World → option World) (l : list A) (w : World)
    : option World :=
  match l with
  | [] => Some w
  | x :: l' => w' ← f x w; forEach f l' w'
  end.

(** [sendAnswerResultsAndResetSelections] *)
Definition sendAnswerResultsAndResetSelections (ref : nat) (w : World)
    : option World :=
  with_room ref w (Some w) (λ r,
    match currentQuestion r with
    | Some q =>
        w ← forEach (gradeUser ref q) (users r) w;
        let w := sendUserStatsToAll ref w in
        Some (updRoom ref
                (set_userStats (fmap (set_selectedAnswerIndex (-1)))) w)
    | None => Some w
    end).

(** [setNewQuestion] *)
Definition setNewQuestion (ref : nat) (q : TriviaQuestion) (w : World) : World :=
  let w := updRoom ref (set_currentQuestion (Some q)) w in
  let w := updRoom ref (λ r, set_secondsLeft (maxSeconds (config r)) r) w in
  let w := updRoom ref (λ r, set_secondsLeft (secondsLeft r - 1) r) w in
  let w := with_room ref w w (λ r, toRoom ref (SecondsLeft (secondsLeft r)) w) in
  sendCurrentQuestionToAll ref w.

(** The two callbacks that [requestNewQuestion] hands to the source. *)
Definition onComplete (ref : nat) (q : TriviaQuestion) (w : World) : World :=
  let w := updRoom ref (set_acceptAnswers true) w in
  let w := setNewQuestion ref q w in
  let '(handle, w) := setTimeout (TTimer ref) w in
  updRoom ref (set_timerId (Z.of_nat handle)) w.

Definition onError (ref : nat) (e : Js.Error) (w : World) : World :=
  let w := emit (RetrievalError e) w in
  (setTimeout (TRequestNewQuestion ref) w).2.

(** A move of the source made for the room at [ref]. *)
Definition perform (ref : nat) (p : QuestionSource.Progress) (w : World) : World :=
  match p with
  | QuestionSource.Request url k => axiosGet url (TFetch ref k) w
  | QuestionSource.OnComplete q => onComplete ref q w
  | QuestionSource.OnError e => onError ref e w
  end.

(** [requestNewQuestion] *)
Definition requestNewQuestion (ref : nat) (w : World) : World :=
  with_room ref w w (λ r,
    perform ref
      (QuestionSource.getTriviaQuestionAsync (room_id r) (config r) (sessionTokens w))
      w).

(** The settlement of a request of the source made for the room at [ref]. *)
Definition settle (ref : nat) (k : QuestionSource.Await)
    (res : QuestionSource.HttpResult) (draws : list nat) (w : World) : World :=
  with_room ref w w (λ r,
    let '(tokens, p) :=
      QuestionSource.resume (room_id r) k res draws (sessionTokens w) in
    perform ref p (set_sessionTokens (λ _, tokens) w)).

(** [timer] *)
Definition timer (ref : nat) (w : World) : option World :=
  with_room ref w (Some w) (λ r,
    if secondsLeft r =? 0 then
      let w := updRoom ref (λ r, set_questionsAnswered (questionsAnswered r + 1) r) w in
      let w := updRoom ref (set_acceptAnswers false) w in
      let w := toRoom ref EndQuestion w in
      w ← sendAnswerResultsAndResetSelections ref w;
      with_room ref w (Some w) (λ r,
        if negb (isGameOver r)
        then Some (setTimeout (TRequestNewQuestion ref) w).2
        else
          let w := sendGameOverToAll ref w in
          if deleteOnLastUser r then Some (deleteRoom ref w) else Some w)
    else
      let w := updRoom ref (λ r, set_secondsLeft (secondsLeft r - 1) r) w in
      let w := with_room ref w w (λ r, toRoom ref (SecondsLeft (secondsLeft r)) w) in
      let '(handle, w) := setTimeout (TTimer ref) w in
      Some (updRoom ref (set_timerId (Z.of_nat handle)) w)).

(** [new TriviaRoom(io, name, deleteOnLastUser, config)] with the identifier
    drawn by [generateId], before the constructor's [requestNewQuestion]. *)
Definition newTriviaRoom (id name : string) (deleteOnLast : bool)
    (c : RoomConfiguration) : Room :=
  mkRoom TriviaClass id [] name (-1) (maxSeconds c) None deleteOnLast c true 0 ∅.

(** [makeNewRoom]; [id] is what [generateId] drew. *)
Definition makeNewRoom (id name : string) (deleteOnLast : bool)
    (c : option RoomConfiguration) (w : World) : nat * World :=
  let c := default defaultConfiguration c in
  let ref := nextRoom w in
  let w := set_nextRoom (S ref)
             (set_heap (<[ref := newTriviaRoom id name deleteOnLast c]>) w) in
  let w := requestNewQuestion ref w in
  let w := set_rooms (set_key id ref) w in
  (ref, publish NEW_ROOM ref w).

(** ** The event loop: socket handlers (user.js), timers and responses *)

(** The argument of ['create room']. *)
Record CreateRoomInfo := mkCreateRoomInfo {
  ri_difficulty : option string;
  ri_name : string;
  ri_categoryId : Z;
  ri_maxSeconds : Z;
  ri_canSkipQuestions : bool;
  ri_questionCount : Z
}.

(** What the event loop can run next: a message of a user with a nickname,
    a due timeout, or the settlement of a request. *)
Inductive Event :=
| EnterLobby (user : User)
    (* the nickname was accepted: user.lobby.addUser(user) *)
| JoinRoom (user : User) (id : string)                       (* 'join room' *)
| LeaveRoom (user : User)                                    (* 'leave room' *)
| CreateRoom (user : User) (info : CreateRoomInfo) (newId : string)
    (* 'create room'; [newId] is the identifier [generateId] draws *)
| Say (user : User) (text : string)                          (* 'message' *)
| Answer (user : User) (answerNumber : Z)                    (* 'answer' *)
| Disconnect (user : User)                                   (* 'disconnect' *)
| Timeout (handle : nat)
| Response (handle : nat) (res : QuestionSource.HttpResult) (draws : list nat).

(** Take the callback with the given handle out of the queue. *)
Definition take (handle : nat) (w : World) : option (Task * World) :=
  t ← snd <$> List.find (λ p, bool_decide (p.1 = handle)) (pending w);
  Some (t, set_pending (filter (λ p, p.1 ≠ handle)) w).

(** All ['answer'] listeners of the socket, in registration order. *)
Definition fireAnswer (user : User) (answerNumber : Z) (w : World) : World :=
  fold_left (λ w l, answerListener l.1 l.2 answerNumber w)
    (default [] (answerListeners w !! socket user)) w.

(** One turn of the event loop; [None] is an uncaught exception.  An event
    that nothing waits for leaves the state as it is. *)
Definition step (w : World) (ev : Event) : option World :=
  match ev with
  | EnterLobby user => Some (addUser (lobby w) user w)
  | JoinRoom user id =>
      match getRoomById id w with
      | Some ref => Some (addUser ref user w)
      | None => Some w
      end
  | LeaveRoom user =>
      match userRoom w !! socket user with
      | Some _ => Some (addUser (lobby w) user w)
      | None => Some w
      end
  | CreateRoom user info newId =>
      let c := mkRoomConfiguration
                 (QuestionSource.getCategoryById (categories w) (ri_categoryId info))
                 (ri_difficulty info) (ri_maxSeconds info)
                 (ri_canSkipQuestions info) (ri_questionCount info) in
      let '(ref, w) := makeNewRoom newId (ri_name info) true (Some c) w in
      Some (addUser ref user w)
  | Say user text =>
      match userRoom w !! socket user with
      | Some ref =>
          if decide (text = "") then Some w else Some (sendMessage ref user text w)
      | None => Some w
      end
  | Answer user answerNumber => Some (fireAnswer user answerNumber w)
  | Disconnect user =>
      match userRoom w !! socket user with
      | Some ref => Some (removeUser ref user w)
      | None => Some w
      end
  | Timeout handle =>
      match take handle w with
      | Some (TTimer ref, w') => timer ref w'
      | Some (TRequestNewQuestion ref, w') => Some (requestNewQuestion ref w')
      | _ => Some w
      end
  | Response handle res draws =>
      match take handle w with
      | Some (TFetch ref k, w') => Some (settle ref k res draws w')
      | _ => Some w
      end
  end.

(** A run of the event loop. *)
Fixpoint steps (w : World) (evs : list Event) : option World :=
  match evs with
  | [] => Some w
  | ev :: evs' => w' ← step w ev; steps w' evs'
  end.

(** The entry script, once the categories are loaded: the lobby, then
    'The Any Room' (kept when empty, default rules, skipping allowed). *)
Definition theLobby : Room :=
  mkRoom LobbyClass "lobby" [] "" (-1) 0 None false defaultConfiguration false 0 ∅.

Definition emptyWorld (cats : list Category) : World :=
  mkWorld {[ 0%nat := theLobby ]} 1 0 [] ∅ ∅ cats ∅ [] 0 [].

Definition boot (cats : list Category) (anyRoomId : string) : World :=
  let '(ref, w) := makeNewRoom anyRoomId "The Any Room" false None (emptyWorld cats) in
  updRoom ref
    (λ r, set_config
            (mkRoomConfiguration (category (config r)) (cfg_difficulty (config r))
               (maxSeconds (config r)) true (questionCount (config r))) r) w.

(** ** Notions used in the statements *)

(** The room a waiting callback belongs to, and the callbacks of a room. *)
Definition task_room (t : Task) : nat :=
  match t with
  | TTimer ref => ref
  | TRequestNewQuestion ref => ref
  | TFetch ref _ => ref
  end.

Definition tasks_for (ref : nat) (p : list (nat * Task)) : list (nat * Task) :=
  filter (λ e, task_room e.2 = ref) p.

(** The states the server can be in: those a run of the event loop reaches
    from the entry script. *)
Definition reachable (w : World) : Prop :=
  ∃ cats anyRoomId evs, steps (boot cats anyRoomId) evs = Some w.

(** Number of questions a member has answered. *)
Definition answered (s : UserStatistics) : nat :=
  (questionsRight s + questionsWrong s)%nat.

(** [outranks sa sb]: more points, or the same points and a strictly better
    accuracy ratio, both ratios being defined. *)
Definition outranks (sa sb : UserStatistics) : Prop :=
  points sb < points sa
  ∨ (points sa = points sb
     ∧ ∃ p q, ratio sa = Some p ∧ ratio sb = Some q ∧ (q < p)%Q).




(** Requests of the question endpoint and of the token endpoint. *)
Definition isQuestionRequest (url : string) : bool :=
  String.prefix "https://opentdb.com/api.php?" url.
Definition isTokenRequest (url : string) : bool :=
  String.prefix "https://opentdb.com/api_token.php?" url.


(** The accuracy ratio of a member who has answered, as an exact fraction. *)
Definition accuracy (s : UserStatistics) : Q :=
  Z.of_nat (questionsRight s) # Pos.of_nat (answered s).

(** [ranked a b]: entry [b] may stand after entry [a] in the ranking. *)
Definition ranked (a b : StatsEntry) : Prop :=
  ∀ sa sb, a.2 = Some sa → b.2 = Some sb → ¬ outranks sb sa.

(** An entry that carries statistics. *)
Definition graded (e : StatsEntry) : Prop := is_Some e.2.

(** Every member's points are at least zero. *)
Definition points_ok (r : Room) : Prop :=
  ∀ nick s, userStats r !! nick = Some s → 0 ≤ points s.

Definition all_points_ok (w : World) : Prop :=
  ∀ ref r, heap w !! ref = Some r → points_ok r.

Definition keeps_points : nat → Room → Room → Prop :=
  λ _ r r', points_ok r → points_ok r'.

(** [frame R Q w w']: from [w] to [w'] no room appears or disappears, the
    room at each address changes within [R], the rooms selected by [Q] get
    no new callback, and no address is allocated. *)
Definition frame (R : nat → Room → Room → Prop) (Q : nat → Prop)
    (w w' : World) : Prop :=
  (∀ ref, option_Forall2 (R ref) (heap w !! ref) (heap w' !! ref))
  ∧ (∀ ref, Q ref → tasks_for ref (pending w') `sublist_of` tasks_for ref (pending w))
  ∧ nextRoom w' = nextRoom w.

(** The fields that decide the end of the game. *)
Definition game_eq (r r' : Room) : Prop :=
  cls r' = cls r
  ∧ questionCount (config r') = questionCount (config r)
  ∧ questionsAnswered r' = questionsAnswered r.

(** [elsewhere ref0]: every room but the one at [ref0] keeps those fields. *)
Definition elsewhere (ref0 : nat) : nat → Room → Room → Prop :=
  λ ref r r', ref = ref0 ∨ game_eq r r'.

(** The invariant of the game cycle: callbacks and rooms live at allocated
    addresses; a room has at most one callback waiting, has graded between 0
    and (when limited) [questionCount] questions, and has no callback
    waiting once its game is over. *)
Definition game_inv (w : World) : Prop :=
  (∀ e, e ∈ pending w → (task_room e.2 < nextRoom w)%nat)
  ∧ (∀ ref r, heap w !! ref = Some r → (ref < nextRoom w)%nat)
  ∧ (∀ ref r, heap w !! ref = Some r →
       (length (tasks_for ref (pending w)) ≤ 1)%nat
       ∧ 0 ≤ questionsAnswered r
       ∧ (0 < questionCount (config r) →
          questionsAnswered r ≤ questionCount (config r))
       ∧ (isGameOver r = true → tasks_for ref (pending w) = [])).

(** [advance ref w w']: what running the one callback of the room at [ref]
    does to that room: the count of graded questions stays and one callback
    is queued; or a question was graded and the next request is queued; or a
    question was graded, the game is over and nothing is queued. *)
Definition advance (ref : nat) (w w' : World) : Prop :=
  ∀ r, heap w !! ref = Some r →
    ∃ r', heap w' !! ref = Some r'
      ∧ questionCount (config r') = questionCount (config r)
      ∧ ((questionsAnswered r' = questionsAnswered r
          ∧ ∃ e, pending w' = pending w ++ [e] ∧ task_room e.2 = ref)
         ∨ (questionsAnswered r' = questionsAnswered r + 1
            ∧ isGameOver r' = false
            ∧ ∃ h, pending w' = pending w ++ [(h, TRequestNewQuestion ref)])
         ∨ (questionsAnswered r' = questionsAnswered r + 1
            ∧ isGameOver r' = true
            ∧ tasks_for ref (pending w') `sublist_of` tasks_for ref (pending w))).

Import QuestionSource.

(** ** Worked examples: a quiz room played through *)

Definition alice : User := mkUser 1 "alice".
Definition bob : User := mkUser 2 "bob".

(** A medium question whose correct answer is "yes". *)
Definition sampleRaw : RawQuestion :=
  mkRawQuestion "Is it so?" "yes" ["no"; "maybe"; "never"] "General" "medium".
Definition sampleAnswer : HttpResult := Resolved (mkResponseData 0 [sampleRaw] "").
Definition sampleToken (t : string) : HttpResult := Resolved (mkResponseData 0 [] t).
Definition exhausted : HttpResult := Resolved (mkResponseData 4 [] "").
Definition offline : HttpResult := Rejected (Js.mkError "Network Error").

(** Draws that leave the correct answer of [sampleRaw] first. *)
Definition sampleDraws : list nat := [3; 3; 3; 3]%nat.

(** A room of three questions of one second each, skipping allowed. *)
Definition threeQuestions : CreateRoomInfo := mkCreateRoomInfo None "quiz" 9 1 true 3.

(** Alice creates the room; the token and the first question arrive; she
    answers it right; the countdown ends and the question is graded; the
    second question arrives and she picks answer 1. *)
Definition playing : list Event :=
  [EnterLobby alice; CreateRoom alice threeQuestions "BBBBB";
   Response 1 (sampleToken "T1") []; Response 2 sampleAnswer sampleDraws;
   Answer alice 0; Timeout 3; Timeout 4; Response 5 sampleAnswer sampleDraws;
   Answer alice 1].

(** ... and the game is played to its end. *)
Definition played : list Event :=
  playing ++ [Timeout 6; Timeout 7; Response 8 sampleAnswer sampleDraws; Timeout 9].

(** The state after a run from the entry script (no categories, "AAAAA"
    drawn for the default room). *)
Definition worldOf (evs : list Event) : World :=
  default (emptyWorld []) (steps (boot [] "AAAAA") evs).

(** The room at an address of a state. *)
Definition roomOf (w : World) (ref : nat) : Room := default theLobby (heap w !! ref).

(** A room seen at the end of its game: the members in join order with
    their statistics. *)
Definition rankingRoom (members : list (User * UserStatistics)) : Room :=
  mkRoom TriviaClass "RRRRR" (members.*1) "ranking" (-1) 0 None true
    defaultConfiguration false 0
    (list_to_map ((λ m, (nickname m.1, m.2)) <$> members)).

Definition carol : User := mkUser 3 "carol".

(** The token cache of a room that has fetched before. *)
Definition cachedTokens : gmap string string := {[ "BBBBB" := "T1" ]}.

(** The two members of the specification, joined in the order B, A. *)
Definition memberA : UserStatistics := mkUserStatistics 100 0 2 0 (-1).
Definition memberB : UserStatistics := mkUserStatistics 100 0 1 1 (-1).
Definition tieBreakRoom : Room := rankingRoom [(bob, memberB); (alice, memberA)].

(** A newcomer, and a member whose one answer was wrong. *)
Definition unanswered : UserStatistics := mkUserStatistics 0 0 0 0 (-1).
Definition answeredWrong : UserStatistics := mkUserStatistics 0 (-25) 0 1 (-1).

(** ** user.js and the entry script: connections, nicknames, handlers

    Strings are sequences of one-byte characters: [length] counts them and
    [toLowerCase] acts on the letters A to Z.  The messages of a socket
    carry arguments of the documented types. *)

(** [String.prototype.toLowerCase] *)
Definition lowerChar (c : Ascii.ascii) : Ascii.ascii :=
  let n := Ascii.nat_of_ascii c in
  if (65 <=? n)%nat && (n <=? 90)%nat then Ascii.ascii_of_nat (n + 32) else c.

Fixpoint toLowerCase (s : string) : string :=
  match s with
  | EmptyString => EmptyString
  | String c s' => String (lowerChar c) (toLowerCase s')
  end.

(** [String.prototype.charAt]: the character at [i] as a string, or the
    empty string. *)
Definition charAt (i : nat) (s : string) : string :=
  match String.get i s with
  | Some c => String c EmptyString
  | None => ""
  end.

(** [generateId] (trivia-room.js): five characters of the alphabet, each at
    a randomly drawn position. *)
Definition alphabet : string :=
  "abcdefghijklmnopqrstuvwxyzABCDEFGHIJKLMNOPQRSTUVWXYZ".

Fixpoint generateIdFrom (n : nat) (draws : list nat) (id : string) : string :=
  match n with
  | O => id
  | S n' =>
      generateIdFrom n' (tl draws)
        (id +:+ charAt (Js.randomIndex (hd O draws) (String.length alphabet)) alphabet)
  end.

Definition generateId (draws : list nat) : string := generateIdFrom 5 draws "".

(** What user.js and the entry script send to a socket themselves. *)
Inductive Notice :=
| NeedNickname                                 (* 'need nickname' *)
| GoodNickname                                 (* 'good nickname' *)
| NicknameTaken                                (* 'nickname taken' *)
| InvalidNickname                              (* 'invalid nickname' *)
| CategoryList (cats : list Category).         (* 'category list' *)

(** The server: the state of the rooms and of the question source, the
    list [allUsers] (a user's nickname is [""] until it is set), the
    remembered requests [pendingJoinRoomRequests] by socket, and the notices
    sent, each with the socket and the length of the trace when it went
    out. *)
Record Server := mkServer {
  world : World;
  allUsers : list User;
  pendingJoinRoomRequests : gmap nat string;
  told : list (nat * nat * Notice)
}.

Definition set_world (f : World → World) (sv : Server) : Server :=
  mkServer (f (world sv)) (allUsers sv) (pendingJoinRoomRequests sv) (told sv).
Definition set_allUsers (f : list User → list User) (sv : Server) : Server :=
  mkServer (world sv) (f (allUsers sv)) (pendingJoinRoomRequests sv) (told sv).
Definition set_pendingJoinRoomRequests (f : gmap nat string → gmap nat string)
    (sv : Server) : Server :=
  mkServer (world sv) (allUsers sv) (f (pendingJoinRoomRequests sv)) (told sv).

(** [user.socket.emit(notice)] *)
Definition tell (s : nat) (n : Notice) (sv : Server) : Server :=
  mkServer (world sv) (allUsers sv) (pendingJoinRoomRequests sv)
    (told sv ++ [(length (out (world sv)), s, n)]).

(** [isNicknameValid] *)
Definition isNicknameValid (nick : string) : bool :=
  (1 <=? String.length nick)%nat && (String.length nick <=? 16)%nat.

(** [isNicknameTaken] *)
Definition isNicknameTaken (nick : string) (sv : Server) : bool :=
  match List.find (λ u, bool_decide (toLowerCase (nickname u) = toLowerCase nick))
          (allUsers sv) with
  | Some _ => true
  | None => false
  end.

(** The ['connection'] handler of the entry script. *)
Definition connection (s : nat) (sv : Server) : Server :=
  let newUser := mkUser s "" in
  let sv := set_allUsers (λ l, l ++ [newUser]) sv in
  tell s NeedNickname sv.

(** The ['set nickname'] handler of [waitForNickname], for the user object
    [user]. *)
Definition setNickname (user : User) (nick : string) (sv : Server) : Server :=
  if (String.length (nickname user) =? 0)%nat && isNicknameValid nick then
    if negb (isNicknameTaken nick sv) then
      let named := mkUser (socket user) nick in
      let sv := set_allUsers (fmap (λ u, if decide (u = user) then named else u)) sv in
      let sv := tell (socket user) GoodNickname sv in
      match pendingJoinRoomRequests sv !! socket user with
      | Some id =>
          let sv :=
            match getRoomById id (world sv) with
            | Some ref => set_world (addUser ref named) sv
            | None => set_world (λ w, addUser (lobby w) named w) sv
            end in
          set_pendingJoinRoomRequests (delete (socket user)) sv
      | None => set_world (λ w, addUser (lobby w) named w) sv
      end
    else tell (socket user) NicknameTaken sv
  else tell (socket user) InvalidNickname sv.

(** The ['join room'] handler of [waitForNickname], in place until the
    nickname is set. *)
Definition rememberJoinRoom (user : User) (id : string) (sv : Server) : Server :=
  set_pendingJoinRoomRequests (<[socket user := id]>) sv.

(** The ['disconnect'] handler. *)
Definition disconnect (user : User) (sv : Server) : Server :=
  let sv :=
    set_allUsers
      (λ l, Js.splice1 (Js.findIndex (λ u, bool_decide (u = user)) l) l) sv in
  let sv := set_pendingJoinRoomRequests (delete (socket user)) sv in
  match userRoom (world sv) !! socket user with
  | Some ref => set_world (removeUser ref user) sv
  | None => sv
  end.

(** The messages of a client, by event name. *)
Inductive ClientMessage :=
| OnSetNickname (nick : string)                       (* 'set nickname' *)
| OnJoinRoom (id : string)                            (* 'join room' *)
| OnLeaveRoom                                         (* 'leave room' *)
| OnCreateRoom (info : CreateRoomInfo) (draws : list nat)
    (* 'create room'; [draws] are the draws of [generateId] *)
| OnMessage (text : string)                           (* 'message' *)
| OnGetCategoryList                                   (* 'get category list' *)
| OnAnswer (answerNumber : Z)                         (* 'answer' *)
| OnDisconnect.                                       (* 'disconnect' *)

(** What the event loop of the whole server can run next. *)
Inductive Incoming :=
| Connection (s : nat)
| FromClient (s : nat) (m : ClientMessage)
| Due (handle : nat)
| Settled (handle : nat) (res : HttpResult) (draws : list nat).

(** The user object whose handlers listen on socket [s]. *)
Definition findUser (s : nat) (sv : Server) : option User :=
  List.find (λ u, bool_decide (socket u = s)) (allUsers sv).

(** A turn of the event loop of the rooms, within the server. *)
Definition turn (ev : Event) (sv : Server) : option Server :=
  w ← step (world sv) ev; Some (set_world (λ _, w) sv).

(** One turn of the event loop of the server.  Every connection has a
    socket of its own; a socket that is not connected sends nothing.  The
    handlers of [initializeUser] are registered when the nickname is set,
    in place of the first ['join room'] handler. *)
Definition receive (sv : Server) (ev : Incoming) : option Server :=
  match ev with
  | Connection s =>
      if bool_decide (s ∈ socket <$> allUsers sv) then Some sv
      else Some (connection s sv)
  | FromClient s m =>
      match findUser s sv with
      | None => Some sv
      | Some user =>
          match m with
          | OnSetNickname nick => Some (setNickname user nick sv)
          | OnDisconnect => Some (disconnect user sv)
          | OnAnswer n => turn (Answer user n) sv
          | OnJoinRoom id =>
              if decide (nickname user = "") then Some (rememberJoinRoom user id sv)
              else turn (JoinRoom user id) sv
          | OnLeaveRoom =>
              if decide (nickname user = "") then Some sv
              else turn (LeaveRoom user) sv
          | OnCreateRoom info draws =>
              if decide (nickname user = "") then Some sv
              else turn (CreateRoom user info (generateId draws)) sv
          | OnMessage text =>
              if decide (nickname user = "") then Some sv
              else turn (Say user text) sv
          | OnGetCategoryList =>
              if decide (nickname user = "") then Some sv
              else Some (tell s (CategoryList (categories (world sv))) sv)
          end
      end
  | Due handle => turn (Timeout handle) sv
  | Settled handle res draws => turn (Response handle res draws) sv
  end.

Fixpoint serve (sv : Server) (evs : list Incoming) : option Server :=
  match evs with
  | [] => Some sv
  | ev :: evs' => sv' ← receive sv ev; serve sv' evs'
  end.

(** The server as the entry script leaves it once the categories are
    loaded; [draws] are those of the identifier of 'The Any Room'. *)
Definition listening (cats : list Category) (draws : list nat) : Server :=
  mkServer (boot cats (generateId draws)) [] ∅ [].

(** The states of the running server. *)
Definition live (sv : Server) : Prop :=
  ∃ cats draws evs, serve (listening cats draws) evs = Some sv.

(** ** Notions used in the statements about the whole server *)

(** The connected users have sockets of their own, and those who have a
    nickname have a valid one that no other user has, whatever the case of
    the letters. *)
Definition names_ok (U : list User) : Prop :=
  NoDup (socket <$> U)
  ∧ (∀ u, u ∈ U → nickname u = "" ∨ isNicknameValid (nickname u) = true)
  ∧ (∀ u v, u ∈ U → v ∈ U → nickname u ≠ "" →
       toLowerCase (nickname u) = toLowerCase (nickname v) → u = v).

(** Rooms and users agree: the members of a room are connected users with
    a nickname, each listed once, whose [room] is that room; a user whose
    [room] is set is a member of it; and a trivia room holds statistics
    under the nicknames of its members and under no other key. *)
Definition members_inv (U : list User) (w : World) : Prop :=
  (∀ ref r, heap w !! ref = Some r →
     NoDup (users r)
     ∧ (∀ u, u ∈ users r →
          u ∈ U ∧ nickname u ≠ "" ∧ userRoom w !! socket u = Some ref)
     ∧ (cls r = TriviaClass →
          ∀ k, is_Some (userStats r !! k) ↔ ∃ u, u ∈ users r ∧ nickname u = k))
  ∧ (∀ s ref, userRoom w !! s = Some ref →
       ∃ r u, heap w !! ref = Some r ∧ u ∈ users r ∧ socket u = s).

(** What the game cycle and the messages leave of a room's membership. *)
Definition same_members : nat → Room → Room → Prop :=
  λ _ r r', users r' = users r ∧ cls r' = cls r
            ∧ dom (userStats r') = dom (userStats r).

(** The user that an event of the rooms can move from room to room. *)
Definition mover (ev : Event) : option User :=
  match ev with
  | EnterLobby u | JoinRoom u _ | LeaveRoom u | CreateRoom u _ _
  | Disconnect u => Some u
  | Say _ _ | Answer _ _ | Timeout _ | Response _ _ _ => None
  end.
(** The lobby is in place, and every listed identifier leads to a trivia
    room that carries it. *)
Definition directory_inv (w : World) : Prop :=
  (∃ r, heap w !! lobby w = Some r ∧ cls r = LobbyClass ∧ room_id r = "lobby")
  ∧ ∀ id ref, getRoomById id w = Some ref →
      ∃ r, heap w !! ref = Some r ∧ cls r = TriviaClass ∧ room_id r = id.

(** A room keeps its class and its identifier. *)
Definition same_room : nat → Room → Room → Prop :=
  λ _ r r', cls r' = cls r ∧ room_id r' = room_id r.

(** The lobby stays and the listing gets no new entry. *)
Definition listing_shrinks (w w' : World) : Prop :=
  lobby w' = lobby w
  ∧ ∀ id ref, getRoomById id w' = Some ref → getRoomById id w = Some ref.

(** The ['answer'] listeners of a socket are all those of its user for the
    trivia room the user is in, of which there is at least one; a user in
    no trivia room has none. *)
Definition listeners_inv (U : list User) (w : World) : Prop :=
  ∀ s,
    match answerListeners w !! s with
    | Some l =>
        l ≠ [] ∧ ∃ user ref,
          (∀ p, p ∈ l → p = (ref, user)) ∧ user ∈ U ∧ socket user = s
          ∧ userRoom w !! s = Some ref
          ∧ cls <$> heap w !! ref = Some TriviaClass
    | None =>
        ∀ ref, userRoom w !! s = Some ref →
          cls <$> heap w !! ref ≠ Some TriviaClass
    end.

(** What holds of the server whenever the event loop is idle. *)
Definition server_inv (sv : Server) : Prop :=
  names_ok (allUsers sv)
  ∧ members_inv (allUsers sv) (world sv)
  ∧ reachable (world sv).

(** ** Worked example: two users arrive *)

(** The state of the server after a run from the entry script (no
    categories; the draws of the first identifier are all 0, which gives
    "aaaaa"). *)
Definition serverOf (evs : list Incoming) : Server :=
  default (listening [] []) (serve (listening [] []) evs).

(** Alice connects and takes her nickname; a second user connects. *)
Definition arrival : list Incoming :=
  [Connection 1; FromClient 1 (OnSetNickname "alice"); Connection 2].


(** ... asks for 'The Any Room' first, and then takes the nickname bob. *)
Definition straightIn : list Incoming :=
  arrival ++ [FromClient 2 (OnJoinRoom "aaaaa"); FromClient 2 (OnSetNickname "bob")].

(** No member of the room has an answer selected. *)
Definition unselected (r : Room) : Prop :=
  ∀ nick s, userStats r !! nick = Some s → selectedAnswerIndex s = -1.

(** An assignment that keeps [acceptAnswers] and [currentQuestion], and
    selects no answer in a room that does not accept answers. *)
Definition keeps_phase (r r' : Room) : Prop :=
  acceptAnswers r' = acceptAnswers r
  ∧ currentQuestion r' = currentQuestion r
  ∧ (acceptAnswers r = false → unselected r → unselected r').

(** Between questions no answer is selected, and a countdown is only armed
    for a room that has a question. *)
Definition phase_inv (w : World) : Prop :=
  (∀ ref r, heap w !! ref = Some r → acceptAnswers r = false → unselected r)
  ∧ (∀ h ref r, (h, TTimer ref) ∈ pending w → heap w !! ref = Some r →
       is_Some (currentQuestion r)).

(** Alice creates the quiz room and answers its first question; the
    countdown ends and the question is graded. *)
Definition firstGraded : list Event :=
  [EnterLobby alice; CreateRoom alice threeQuestions "BBBBB";
   Response 1 (sampleToken "T1") []; Response 2 sampleAnswer sampleDraws;
   Answer alice 0; Timeout 3].



(** An assignment that leaves the countdown alone. *)
Definition keeps_clock (r r' : Room) : Prop :=
  maxSeconds (config r') = maxSeconds (config r)
  ∧ questionsAnswered r' = questionsAnswered r
  ∧ currentQuestion r' = currentQuestion r
  ∧ secondsLeft r' = secondsLeft r.

(** Bob creates a room whose questions last no time at all; its first
    question arrives and the countdown callback runs five times. *)
Definition noTime : CreateRoomInfo := mkCreateRoomInfo None "rush" 9 0 true 3.

Definition stuck : list Event :=
  [EnterLobby bob; CreateRoom bob noTime "CCCCC";
   Response 1 (sampleToken "T2") []; Response 2 sampleAnswer sampleDraws;
   Timeout 3; Timeout 4; Timeout 5; Timeout 6; Timeout 7].

(** A listed room that is deleted with its last member has a member. *)
Definition listed_inv (w : World) : Prop :=
  ∀ id ref r, getRoomById id w = Some ref → heap w !! ref = Some r →
    deleteOnLastUser r = true → users r ≠ [].

(** An assignment that keeps the members and [deleteOnLastUser]. *)
Definition same_party : nat → Room → Room → Prop :=
  λ _ r r', users r' = users r ∧ deleteOnLastUser r' = deleteOnLastUser r.

(** Alice creates a quiz room; and she creates a second one for which the
    same identifier is drawn. *)
Definition created : list Incoming :=
  arrival ++ [FromClient 1 (OnCreateRoom threeQuestions [1%nat])].

Definition createdTwice : list Incoming :=
  created ++ [FromClient 1 (OnCreateRoom threeQuestions [1%nat])].

(** * Properties *)

(** ** JavaScript library functions *)

Lemma findIndex_ge {A} (p : A → bool) l : -1 ≤ Js.findIndex p l.
Proof.
  induction l as [|x l IH]; simpl; [lia|].
  destruct (p x); [lia|]. destruct (Js.findIndex p l); lia.
Qed.

Lemma findIndex_none {A} (p : A → bool) l :
  Js.findIndex p l = -1 ↔ Forall (λ x, p x = false) l.
Proof.
  induction l as [|x l IH]; simpl.
  - split; [constructor|done].
  - pose proof (findIndex_ge p l). destruct (p x) eqn:Hp.
    + split; [lia|]. intros H'. inversion H'; congruence.
    + split.
      * intros H'. constructor; [done|]. apply IH.
        destruct (Js.findIndex p l); lia.
      * intros H'. inversion H' as [|?? _ Hl]; subst. apply IH in Hl.
        by rewrite Hl.
Qed.


Lemma delete_pred_length {A} (l : list A) :
  delete (Nat.pred (length l)) l = removelast l.
Proof.
  induction l as [|x l IH]; [done|].
  destruct l as [|y l]; [done|].
  change (removelast (x :: y :: l)) with (x :: removelast (y :: l)).
  rewrite <- IH. done.
Qed.

Lemma splice1_not_found {A} (l : list A) : Js.splice1 (-1) l = removelast l.
Proof.
  unfold Js.splice1. simpl. rewrite <- delete_pred_length. f_equal. lia.
Qed.


(** ** The shuffle *)







(** ** The ranking *)

Lemma ratio_gt_spec x y :
  ratio_gt x y = true ↔ ∃ p q, x = Some p ∧ y = Some q ∧ (q < p)%Q.
Proof.
  unfold ratio_gt. destruct x as [p|], y as [q|];
    try (split; [done|intros (?&?&?&?&?); done]).
  destruct (Qcompare q p) eqn:Hc.
  - split; [done|]. intros (p' & q' & [= <-] & [= <-] & Hlt).
    rewrite Qlt_alt in Hlt. congruence.
  - split; [|done]. intros _. exists p, q. by rewrite Qlt_alt.
  - split; [done|]. intros (p' & q' & [= <-] & [= <-] & Hlt).
    rewrite Qlt_alt in Hlt. congruence.
Qed.

Lemma compareStats_outranks na sa nb sb :
  compareStats (na, Some sa) (nb, Some sb) < 0 ↔ outranks sa sb.
Proof.
  unfold compareStats, outranks. simpl.
  destruct (Z.ltb_spec (points sb) (points sa)); [split; [by left|done]|].
  destruct (Z.ltb_spec (points sa) (points sb)).
  { split; [done|]. intros [?|[? _]]; lia. }
  destruct (ratio_gt (ratio sa) (ratio sb)) eqn:Hg.
  - apply ratio_gt_spec in Hg. split; [|done]. intros _. right. split; [lia|done].
  - assert (¬ ∃ p q, ratio sa = Some p ∧ ratio sb = Some q ∧ (q < p)%Q) as Hn.
    { rewrite <- ratio_gt_spec. congruence. }
    split.
    + destruct (ratio_gt (ratio sb) (ratio sa)); lia.
    + intros [?|[_ ?]]; [lia|done].
Qed.

Lemma outranks_trans a b c : outranks a b → outranks b c → outranks a c.
Proof.
  unfold outranks. intros [H1|(E1 & p & q & Hp & Hq & Hlt)]
                          [H2|(E2 & p' & q' & Hp' & Hq' & Hlt')].
  - left. lia.
  - left. lia.
  - left. lia.
  - right. split; [lia|]. exists p, q'. split; [done|]. split; [done|].
    rewrite Hq in Hp'. injection Hp' as <-. by eapply Qlt_trans.
Qed.

Lemma outranks_irrefl a : ¬ outranks a a.
Proof.
  intros [H|(_ & p & q & Hp & Hq & Hlt)]; [lia|].
  rewrite Hp in Hq. injection Hq as <-. by apply Qlt_irrefl in Hlt.
Qed.

Lemma outranks_asym a b : outranks a b → ¬ outranks b a.
Proof. intros H1 H2. eapply outranks_irrefl, outranks_trans; eauto. Qed.

Lemma insert_by_perm x l : Js.insert_by compareStats x l ≡ₚ x :: l.
Proof.
  induction l as [|y l IH]; simpl; [done|].
  destruct (compareStats x y <? 0); [done|]. rewrite IH. apply perm_swap.
Qed.

Lemma sort_perm_from acc l :
  fold_left (λ acc x, Js.insert_by compareStats x acc) l acc ≡ₚ acc ++ l.
Proof.
  revert acc. induction l as [|x l IH]; intros acc; simpl.
  - by rewrite app_nil_r.
  - rewrite IH, insert_by_perm. simpl. apply Permutation_middle.
Qed.

Lemma sort_perm l : Js.sort compareStats l ≡ₚ l.
Proof. apply (sort_perm_from [] l). Qed.

Lemma insert_by_sorted x l :
  graded x → Forall graded l →
  StronglySorted ranked l → StronglySorted ranked (Js.insert_by compareStats x l).
Proof.
  intros [sx Hx] Hg Hs. induction Hs as [|y l Hs IH Hy]; simpl.
  - repeat constructor.
  - inversion Hg as [|?? [sy Hsy] Hg']; subst.
    destruct (Z.ltb_spec (compareStats x y) 0) as [Hlt|Hge].
    + constructor; [by constructor|].
      assert (outranks sx sy) as Hxy.
      { destruct x as [nx ?], y as [ny ?]; simpl in Hx, Hsy; subst.
        by apply (compareStats_outranks nx sx ny sy). }
      constructor.
      * intros ? ? Hx' Hy'. rewrite Hx in Hx'. rewrite Hsy in Hy'.
        injection Hx' as <-. injection Hy' as <-. by apply outranks_asym.
      * rewrite Forall_forall in Hy |- *. intros z Hz sa sz Hx' Hz' Hout.
        rewrite Hx in Hx'. injection Hx' as <-.
        apply (Hy z Hz sy sz Hsy Hz'). by eapply outranks_trans.
    + constructor; [by apply IH|].
      rewrite (insert_by_perm x l). constructor; [|done].
      intros sa sb Hy' Hx'. rewrite Hx in Hx'. rewrite Hsy in Hy'.
      injection Hx' as <-. injection Hy' as <-. intros Hout.
      destruct x as [nx ?], y as [ny ?]; simpl in Hx, Hsy; subst.
      apply (compareStats_outranks nx sx ny sy) in Hout. lia.
Qed.

Lemma sort_sorted_from acc l :
  Forall graded acc → Forall graded l → StronglySorted ranked acc →
  StronglySorted ranked
    (fold_left (λ acc x, Js.insert_by compareStats x acc) l acc).
Proof.
  revert acc. induction l as [|x l IH]; intros acc Ha Hl Hs; simpl; [done|].
  inversion Hl; subst. apply IH; [|done|by apply insert_by_sorted].
  rewrite insert_by_perm. by constructor.
Qed.

Lemma sort_sorted l :
  Forall graded l → StronglySorted ranked (Js.sort compareStats l).
Proof. intros Hl. apply sort_sorted_from; [done..|constructor]. Qed.


(** ** Framing: what an operation leaves alone *)

Lemma filter_sublist_mono {A} (P : A → Prop) `{!∀ x, Decision (P x)} l1 l2 :
  l1 `sublist_of` l2 → filter P l1 `sublist_of` filter P l2.
Proof.
  induction 1 as [|x l1 l2 _ IH|x l1 l2 _ IH]; [done| |].
  - rewrite !filter_cons. destruct (decide (P x)); [by constructor|done].
  - rewrite filter_cons. destruct (decide (P x)); [by constructor|done].
Qed.

(** A frame is reflexive and transitive, and the primitive operations on
    the store are frames. *)
Section frame.
Context (R : nat → Room → Room → Prop) (Q : nat → Prop).
Context (R_refl : ∀ ref r, R ref r r).
Context (R_trans : ∀ ref a b c, R ref a b → R ref b c → R ref a c).

Lemma frame_refl w : frame R Q w w.
Proof using R_refl.
  split; [|split]; [|done..].
  intros ref. destruct (heap w !! ref); constructor. apply R_refl.
Qed.

Lemma frame_trans w1 w2 w3 :
  frame R Q w1 w2 → frame R Q w2 w3 → frame R Q w1 w3.
Proof using R_trans.
  intros (H1 & S1 & N1) (H2 & S2 & N2). split; [|split].
  - intros ref. specialize (H1 ref). specialize (H2 ref).
    revert H2. destruct H1; inversion 1; subst; constructor; eauto.
  - intros ref HQ. trans (tasks_for ref (pending w2)); eauto.
  - congruence.
Qed.

Lemma frame_same w w' :
  heap w' = heap w → pending w' = pending w → nextRoom w' = nextRoom w →
  frame R Q w w'.
Proof using R_refl.
  intros Hh Hp Hn. split; [|split]; [| |done].
  - intros ref. rewrite Hh. destruct (heap w !! ref); constructor. apply R_refl.
  - intros ref _. by rewrite Hp.
Qed.

Lemma frame_updRoom_at ref f w r :
  heap w !! ref = Some r → R ref r (f r) → frame R Q w (updRoom ref f w).
Proof using R_refl.
  intros Hr HR. split; [|split]; [| |done].
  - intros ref'. simpl. rewrite lookup_alter. case_decide; subst.
    + rewrite Hr. by constructor.
    + destruct (heap w !! ref'); constructor. apply R_refl.
  - intros ref' _. done.
Qed.

Lemma frame_updRoom ref f w :
  (∀ r, R ref r (f r)) → frame R Q w (updRoom ref f w).
Proof using R_refl.
  intros HR. destruct (heap w !! ref) as [r|] eqn:Hr.
  - by eapply frame_updRoom_at.
  - apply frame_same; [|done..]. simpl. apply map_eq. intros ref'.
    rewrite lookup_alter. case_decide; subst; [by rewrite Hr|done].
Qed.

Lemma frame_filter P `{!∀ x, Decision (P x)} w :
  frame R Q w (set_pending (filter P) w).
Proof using R_refl.
  split; [|split]; [| |done].
  - intros ref. simpl. destruct (heap w !! ref); constructor. apply R_refl.
  - intros ref _. simpl. apply filter_sublist_mono, sublist_filter.
Qed.

Lemma frame_setTimeout t w :
  ¬ Q (task_room t) → frame R Q w (setTimeout t w).2.
Proof using R_refl.
  intros HQ. split; [|split]; [| |done].
  - intros ref. simpl. destruct (heap w !! ref); constructor. apply R_refl.
  - intros ref Href. simpl. unfold tasks_for. rewrite filter_app.
    rewrite filter_cons_False, filter_nil, app_nil_r; [done|].
    simpl. intros Heq. apply HQ. by rewrite Heq.
Qed.
End frame.

Create HintDb frame.

(** The operations behind the socket messages (join, leave, answer, chat)
    and the grading loop are frames for every relation that the assignments
    to [users], [timerId] and [userStats] respect.  Each lemma extends a
    frame from [w] to [w1] over one more operation. *)
Section member_ops.
Context (R : nat → Room → Room → Prop) (Q : nat → Prop).
Context (R_refl : ∀ ref r, R ref r r).
Context (R_trans : ∀ ref a b c, R ref a b → R ref b c → R ref a c).
Context (R_users : ∀ ref f r, R ref r (set_users f r)).
Context (R_timerId : ∀ ref v r, R ref r (set_timerId v r)).
Context (R_stats_delete : ∀ ref k r, R ref r (set_userStats (delete k) r)).
Context (R_stats_fresh :
  ∀ ref k r, R ref r (set_userStats (<[k:=newUserStatistics]>) r)).
Context (R_stats_select : ∀ ref k s n r,
  userStats r !! k = Some s →
  R ref r (set_userStats (<[k:=set_selectedAnswerIndex n s]>) r)).

Lemma fr_same w w1 w2 :
  frame R Q w w1 → heap w2 = heap w1 → pending w2 = pending w1 →
  nextRoom w2 = nextRoom w1 → frame R Q w w2.
Proof using R_refl R_trans.
  intros H Hh Hp Hn. eapply frame_trans; [done..|]. by apply frame_same.
Qed.

Ltac silent :=
  intros; eapply fr_same; [eassumption|..];
  repeat (unfold toRoom, with_room, sendUserJoined, sendUserLeft, sendUserList,
          sendMessage, publish, sendUserStatsToAll, sendEnteredGameRoom,
          sendLeftGameRoom, sendCurrentQuestionToOne, sendCurrentQuestionToAll,
          sendGameOverToAll, sendGameOverToOne, sendRoomListToUser, setRoom,
          leaveRoom, emit;
          simpl; repeat case_match); reflexivity.

Lemma fr_emit e w w1 : frame R Q w w1 → frame R Q w (emit e w1).
Proof using R_refl R_trans. silent. Qed.
Lemma fr_set_rooms f w w1 : frame R Q w w1 → frame R Q w (set_rooms f w1).
Proof using R_refl R_trans. silent. Qed.
Lemma fr_set_sessionTokens f w w1 : frame R Q w w1 → frame R Q w (set_sessionTokens f w1).
Proof using R_refl R_trans. silent. Qed.
Lemma fr_set_answerListeners f w w1 :
  frame R Q w w1 → frame R Q w (set_answerListeners f w1).
Proof using R_refl R_trans. silent. Qed.
Lemma fr_toRoom ref m w w1 : frame R Q w w1 → frame R Q w (toRoom ref m w1).
Proof using R_refl R_trans. silent. Qed.
Lemma fr_setRoom u o w w1 : frame R Q w w1 → frame R Q w (setRoom u o w1).
Proof using R_refl R_trans. silent. Qed.
Lemma fr_leaveRoom u w w1 : frame R Q w w1 → frame R Q w (leaveRoom u w1).
Proof using R_refl R_trans. silent. Qed.
Lemma fr_sendUserJoined ref u w w1 : frame R Q w w1 → frame R Q w (sendUserJoined ref u w1).
Proof using R_refl R_trans. silent. Qed.
Lemma fr_sendUserLeft ref u w w1 : frame R Q w w1 → frame R Q w (sendUserLeft ref u w1).
Proof using R_refl R_trans. silent. Qed.
Lemma fr_sendUserList ref u w w1 : frame R Q w w1 → frame R Q w (sendUserList ref u w1).
Proof using R_refl R_trans. silent. Qed.
Lemma fr_sendMessage ref u t w w1 : frame R Q w w1 → frame R Q w (sendMessage ref u t w1).
Proof using R_refl R_trans. silent. Qed.
Lemma fr_publish ev ref w w1 : frame R Q w w1 → frame R Q w (publish ev ref w1).
Proof using R_refl R_trans. silent. Qed.
Lemma fr_sendUserStatsToAll ref w w1 :
  frame R Q w w1 → frame R Q w (sendUserStatsToAll ref w1).
Proof using R_refl R_trans. silent. Qed.
Lemma fr_sendEnteredGameRoom ref u w w1 :
  frame R Q w w1 → frame R Q w (sendEnteredGameRoom ref u w1).
Proof using R_refl R_trans. silent. Qed.
Lemma fr_sendLeftGameRoom u w w1 : frame R Q w w1 → frame R Q w (sendLeftGameRoom u w1).
Proof using R_refl R_trans. silent. Qed.
Lemma fr_sendCurrentQuestionToOne ref u w w1 :
  frame R Q w w1 → frame R Q w (sendCurrentQuestionToOne ref u w1).
Proof using R_refl R_trans. silent. Qed.
Lemma fr_sendCurrentQuestionToAll ref w w1 :
  frame R Q w w1 → frame R Q w (sendCurrentQuestionToAll ref w1).
Proof using R_refl R_trans. silent. Qed.
Lemma fr_sendGameOverToAll ref w w1 :
  frame R Q w w1 → frame R Q w (sendGameOverToAll ref w1).
Proof using R_refl R_trans. silent. Qed.
Lemma fr_sendGameOverToOne ref u w w1 :
  frame R Q w w1 → frame R Q w (sendGameOverToOne ref u w1).
Proof using R_refl R_trans. silent. Qed.
Lemma fr_sendRoomListToUser u w w1 :
  frame R Q w w1 → frame R Q w (sendRoomListToUser u w1).
Proof using R_refl R_trans. silent. Qed.

Lemma fr_updRoom ref f w w1 :
  (∀ r, R ref r (f r)) → frame R Q w w1 → frame R Q w (updRoom ref f w1).
Proof using R_refl R_trans.
  intros. eapply frame_trans; [done..|]. by apply frame_updRoom.
Qed.

Lemma fr_clearTimeout h w w1 : frame R Q w w1 → frame R Q w (clearTimeout h w1).
Proof using R_refl R_trans.
  intros. eapply frame_trans; [done..|]. by apply frame_filter.
Qed.

#[local] Hint Resolve frame_refl fr_emit fr_set_rooms fr_set_sessionTokens
  fr_set_answerListeners fr_toRoom fr_setRoom fr_leaveRoom fr_sendUserJoined
  fr_sendUserLeft fr_sendUserList fr_sendMessage fr_publish
  fr_sendUserStatsToAll fr_sendEnteredGameRoom fr_sendLeftGameRoom
  fr_sendCurrentQuestionToOne fr_sendCurrentQuestionToAll fr_sendGameOverToAll
  fr_sendGameOverToOne fr_sendRoomListToUser fr_updRoom fr_clearTimeout : frame.

Ltac chain := intros; repeat (unfold with_room; simpl; case_match);
              eauto 20 with frame.

Lemma fr_deleteRoom ref w w1 : frame R Q w w1 → frame R Q w (deleteRoom ref w1).
Proof using R_refl R_trans R_timerId. unfold deleteRoom. chain. Qed.
#[local] Hint Resolve fr_deleteRoom : frame.

Lemma fr_RoomBase_removeUser ref u w w1 :
  frame R Q w w1 → frame R Q w (RoomBase_removeUser ref u w1).
Proof using R_refl R_trans R_users. unfold RoomBase_removeUser. chain. Qed.
#[local] Hint Resolve fr_RoomBase_removeUser : frame.

Lemma fr_TriviaRoom_removeUser ref u w w1 :
  frame R Q w w1 → frame R Q w (TriviaRoom_removeUser ref u w1).
Proof using R_refl R_trans R_users R_timerId R_stats_delete.
  unfold TriviaRoom_removeUser. chain.
Qed.

Lemma fr_Lobby_removeUser ref u w w1 :
  frame R Q w w1 → frame R Q w (Lobby_removeUser ref u w1).
Proof using R_refl R_trans R_users. unfold Lobby_removeUser. chain. Qed.
#[local] Hint Resolve fr_TriviaRoom_removeUser fr_Lobby_removeUser : frame.

Lemma fr_removeUser ref u w w1 : frame R Q w w1 → frame R Q w (removeUser ref u w1).
Proof using R_refl R_trans R_users R_timerId R_stats_delete.
  unfold removeUser. chain.
Qed.
#[local] Hint Resolve fr_removeUser : frame.

Lemma fr_RoomBase_addUser ref u w w1 :
  frame R Q w w1 → frame R Q w (RoomBase_addUser ref u w1).
Proof using R_refl R_trans R_users R_timerId R_stats_delete.
  unfold RoomBase_addUser. chain.
Qed.
#[local] Hint Resolve fr_RoomBase_addUser : frame.

Lemma fr_answerListener ref u n w w1 :
  frame R Q w w1 → frame R Q w (answerListener ref u n w1).
Proof using R_refl R_trans R_stats_select.
  intros H. unfold answerListener, with_room.
  destruct (heap w1 !! ref) as [r|] eqn:Hr; [|done].
  destruct (userStats r !! nickname u) as [s|] eqn:Hs; [|done].
  case_match; [|done].
  eapply frame_trans; [done..|]. eapply frame_updRoom_at; eauto.
Qed.

Lemma fr_TriviaRoom_addUser ref u w w1 :
  frame R Q w w1 → frame R Q w (TriviaRoom_addUser ref u w1).
Proof using R_refl R_trans R_users R_timerId R_stats_delete R_stats_fresh.
  unfold TriviaRoom_addUser. chain.
Qed.

Lemma fr_Lobby_addUser ref u w w1 :
  frame R Q w w1 → frame R Q w (Lobby_addUser ref u w1).
Proof using R_refl R_trans R_users R_timerId R_stats_delete.
  unfold Lobby_addUser. chain.
Qed.
#[local] Hint Resolve fr_TriviaRoom_addUser fr_Lobby_addUser fr_answerListener : frame.

Lemma fr_addUser ref u w w1 : frame R Q w w1 → frame R Q w (addUser ref u w1).
Proof using R_refl R_trans R_users R_timerId R_stats_delete R_stats_fresh.
  unfold addUser. chain.
Qed.

Lemma fr_fireAnswer u n w w1 : frame R Q w w1 → frame R Q w (fireAnswer u n w1).
Proof using R_refl R_trans R_stats_select.
  unfold fireAnswer. generalize (default [] (answerListeners w1 !! socket u)).
  intros l. revert w1. induction l as [|x l IH]; intros w1 H; simpl; [done|].
  apply IH. by apply fr_answerListener.
Qed.
#[local] Hint Resolve fr_addUser fr_fireAnswer : frame.

Context (R_stats_grade : ∀ ref k s c q r,
  userStats r !! k = Some s →
  R ref r (set_userStats (<[k:=(grade c q s).2]>) r)).
Context (R_stats_reset : ∀ ref r,
  R ref r (set_userStats (fmap (set_selectedAnswerIndex (-1))) r)).

Lemma fr_gradeUser ref q u w w1 w2 :
  frame R Q w w1 → gradeUser ref q u w1 = Some w2 → frame R Q w w2.
Proof using R_refl R_trans R_stats_grade.
  intros H. unfold gradeUser, with_room.
  destruct (heap w1 !! ref) as [r|] eqn:Hr; [|done].
  destruct (userStats r !! nickname u) as [s|] eqn:Hs; [|done]. simpl.
  destruct (grade (canSkipQuestions (config r)) q s) as [res s'] eqn:Hg.
  intros [= <-]. apply fr_emit. eapply frame_trans; [done..|].
  eapply frame_updRoom_at; [done..|].
  replace s' with (grade (canSkipQuestions (config r)) q s).2 by by rewrite Hg.
  eauto.
Qed.

Lemma fr_forEach_gradeUser ref q l w w1 w2 :
  frame R Q w w1 → forEach (gradeUser ref q) l w1 = Some w2 → frame R Q w w2.
Proof using R_refl R_trans R_stats_grade.
  revert w1. induction l as [|u l IH]; intros w1 H; simpl.
  - by intros [= <-].
  - destruct (gradeUser ref q u w1) as [w'|] eqn:Hg; [|done]. simpl.
    apply IH. by eapply fr_gradeUser.
Qed.

Lemma fr_sendAnswerResultsAndResetSelections ref w w1 w2 :
  frame R Q w w1 → sendAnswerResultsAndResetSelections ref w1 = Some w2 →
  frame R Q w w2.
Proof using R_refl R_trans R_stats_grade R_stats_reset.
  intros H. unfold sendAnswerResultsAndResetSelections, with_room.
  destruct (heap w1 !! ref) as [r|] eqn:Hr; [|by intros [= <-]].
  destruct (currentQuestion r) as [q|]; [|by intros [= <-]].
  destruct (forEach (gradeUser ref q) (users r) w1) as [w'|] eqn:Hf; [|done].
  simpl. intros [= <-]. apply fr_updRoom; [auto|].
  apply fr_sendUserStatsToAll. by eapply fr_forEach_gradeUser.
Qed.
End member_ops.

(** The callbacks of the game cycle of the room at [ref0] (fetch, countdown,
    grading) are frames for every relation that also allows the assignments
    they make to that room, when [Q] does not select it. *)
Section game_ops.
Context (R : nat → Room → Room → Prop) (Q : nat → Prop) (ref0 : nat).
Context (R_refl : ∀ ref r, R ref r r).
Context (R_trans : ∀ ref a b c, R ref a b → R ref b c → R ref a c).
Context (Q_ref0 : ¬ Q ref0).
Context (R_timerId : ∀ ref v r, R ref r (set_timerId v r)).
Context (R_stats_grade : ∀ ref k s c q r,
  userStats r !! k = Some s →
  R ref r (set_userStats (<[k:=(grade c q s).2]>) r)).
Context (R_stats_reset : ∀ ref r,
  R ref r (set_userStats (fmap (set_selectedAnswerIndex (-1))) r)).
Context (R_secondsLeft : ∀ v r, R ref0 r (set_secondsLeft v r)).
Context (R_currentQuestion : ∀ v r, R ref0 r (set_currentQuestion v r)).
Context (R_acceptAnswers : ∀ v r, R ref0 r (set_acceptAnswers v r)).
Context (R_questionsAnswered : ∀ v r, R ref0 r (set_questionsAnswered v r)).

Lemma fr_setTimeout t w w1 :
  task_room t = ref0 → frame R Q w w1 → frame R Q w (setTimeout t w1).2.
Proof using R_refl R_trans Q_ref0.
  intros Ht H. eapply frame_trans; [done..|]. apply frame_setTimeout; [done|].
  by rewrite Ht.
Qed.

Lemma fr_axiosGet url t w w1 :
  task_room t = ref0 → frame R Q w w1 → frame R Q w (axiosGet url t w1).
Proof using R_refl R_trans Q_ref0.
  intros Ht H. unfold axiosGet. apply fr_setTimeout; [done|].
  by apply fr_emit.
Qed.

Lemma fr_setNewQuestion q w w1 : frame R Q w w1 → frame R Q w (setNewQuestion ref0 q w1).
Proof using R_refl R_trans R_secondsLeft R_currentQuestion.
  intros H. unfold setNewQuestion, with_room.
  apply fr_sendCurrentQuestionToAll; [done..|].
  case_match; [apply fr_toRoom; [done..|]|];
    repeat (apply fr_updRoom; [done|done|auto|]); done.
Qed.

Lemma fr_onComplete q w w1 : frame R Q w w1 → frame R Q w (onComplete ref0 q w1).
Proof using R_refl R_trans Q_ref0 R_timerId R_secondsLeft R_currentQuestion
  R_acceptAnswers.
  intros H. unfold onComplete.
  match goal with
  | |- context [setTimeout ?t ?w'] =>
      change (frame R Q w (updRoom ref0 (set_timerId (Z.of_nat (setTimeout t w').1))
                         (setTimeout t w').2))
  end.
  apply fr_updRoom; [done|done|auto|]. apply fr_setTimeout; [done|].
  apply fr_setNewQuestion. apply fr_updRoom; auto.
Qed.

Lemma fr_onError e w w1 : frame R Q w w1 → frame R Q w (onError ref0 e w1).
Proof using R_refl R_trans Q_ref0.
  intros H. unfold onError. apply fr_setTimeout; [done|]. by apply fr_emit.
Qed.

Lemma fr_perform p w w1 : frame R Q w w1 → frame R Q w (perform ref0 p w1).
Proof using R_refl R_trans Q_ref0 R_timerId R_secondsLeft R_currentQuestion
  R_acceptAnswers.
  intros H. destruct p; simpl.
  - by apply fr_axiosGet.
  - by apply fr_onComplete.
  - by apply fr_onError.
Qed.

Lemma fr_requestNewQuestion w w1 :
  frame R Q w w1 → frame R Q w (requestNewQuestion ref0 w1).
Proof using R_refl R_trans Q_ref0 R_timerId R_secondsLeft R_currentQuestion
  R_acceptAnswers.
  intros H. unfold requestNewQuestion, with_room.
  case_match; [|done]. by apply fr_perform.
Qed.

Lemma fr_settle k res draws w w1 :
  frame R Q w w1 → frame R Q w (settle ref0 k res draws w1).
Proof using R_refl R_trans Q_ref0 R_timerId R_secondsLeft R_currentQuestion
  R_acceptAnswers.
  intros H. unfold settle, with_room.
  case_match; [|done]. case_match. apply fr_perform.
  by apply fr_set_sessionTokens.
Qed.

Lemma fr_timer w w1 w2 : frame R Q w w1 → timer ref0 w1 = Some w2 → frame R Q w w2.
Proof using R_refl R_trans Q_ref0 R_timerId R_secondsLeft R_currentQuestion
  R_acceptAnswers R_questionsAnswered R_stats_grade R_stats_reset.
  intros H. unfold timer, with_room.
  destruct (heap w1 !! ref0) as [r|] eqn:Hr; [|by intros [= <-]].
  destruct (secondsLeft r =? 0).
  - match goal with
    | |- context [sendAnswerResultsAndResetSelections ref0 ?w'] =>
        assert (frame R Q w w') as H';
        [|destruct (sendAnswerResultsAndResetSelections ref0 w') as [w3|] eqn:Hs;
          [|done]]
    end.
    { apply fr_toRoom; [done..|]. repeat (apply fr_updRoom; [done|done|auto|]).
      done. }
    simpl. eapply fr_sendAnswerResultsAndResetSelections in Hs; [|done..].
    destruct (heap w3 !! ref0) as [r3|]; [|by intros [= <-]].
    destruct (negb (isGameOver r3)).
    + intros [= <-]. by apply fr_setTimeout.
    + destruct (deleteOnLastUser r3); intros [= <-].
      * apply fr_deleteRoom; [done..|]. by apply fr_sendGameOverToAll.
      * by apply fr_sendGameOverToAll.
  - match goal with
    | |- context [setTimeout ?t ?w'] =>
        change (Some (updRoom ref0 (set_timerId (Z.of_nat (setTimeout t w').1))
                         (setTimeout t w').2) = Some w2 → frame R Q w w2)
    end.
    intros [= <-]. apply fr_updRoom; [done|done|auto|].
    apply fr_setTimeout; [done|].
    case_match; [apply fr_toRoom; [done..|]|];
      (apply fr_updRoom; [done|done|auto|]); done.
Qed.
End game_ops.


(** ** The invariant of the game cycle *)

Lemma game_eq_refl r : game_eq r r.
Proof. done. Qed.

Lemma game_eq_trans a b c : game_eq a b → game_eq b c → game_eq a c.
Proof. unfold game_eq. intros (?&?&?) (?&?&?). repeat split; congruence. Qed.

Lemma game_eq_isGameOver r r' : game_eq r r' → isGameOver r' = isGameOver r.
Proof. intros (?&Hc&Hq). unfold isGameOver. by rewrite Hc, Hq. Qed.

Lemma elem_of_tasks_for e ref p :
  e ∈ tasks_for ref p ↔ e ∈ p ∧ task_room e.2 = ref.
Proof. unfold tasks_for. rewrite list_elem_of_filter. tauto. Qed.

(** A step that leaves every room's game fields alone and queues nothing
    keeps the invariant. *)
Lemma game_inv_quiet w w' :
  frame (λ _, game_eq) (λ _, True) w w' → game_inv w → game_inv w'.
Proof.
  intros (Hh & Hp & Hn) (J1 & J2 & J3). split; [|split].
  - intros e He. rewrite Hn. apply J1.
    assert (e ∈ tasks_for (task_room e.2) (pending w')) as He'
      by by apply elem_of_tasks_for.
    eapply sublist_subseteq in He'; [|by apply Hp].
    by apply elem_of_tasks_for in He' as [? _].
  - intros ref r' Hr'. rewrite Hn. specialize (Hh ref). rewrite Hr' in Hh.
    inversion Hh as [r ? _ Hr|]; subst. symmetry in Hr. eauto.
  - intros ref r' Hr'. specialize (Hh ref). rewrite Hr' in Hh.
    inversion Hh as [r ? Hg Hr|]; subst. symmetry in Hr.
    destruct (J3 _ _ Hr) as (L & Q0 & Q1 & G).
    pose proof (sublist_length _ _ (Hp ref I)) as Hlen.
    destruct Hg as (Hc & Hqc & Hqa).
    rewrite Hqc, Hqa. split_and!; [lia|done|done|].
    intros Hgo. rewrite (game_eq_isGameOver r r') in Hgo by done.
    specialize (G Hgo). specialize (Hp ref I). rewrite G in Hp.
    by apply sublist_nil_r in Hp.
Qed.

Lemma elsewhere_refl ref0 ref r : elsewhere ref0 ref r r.
Proof. right. apply game_eq_refl. Qed.

Lemma elsewhere_trans ref0 ref a b c :
  elsewhere ref0 ref a b → elsewhere ref0 ref b c → elsewhere ref0 ref a c.
Proof.
  intros [?|Hab] [?|Hbc]; try (by left). right. by eapply game_eq_trans.
Qed.

Lemma everywhere_trans (ref : nat) a b c :
  game_eq a b → game_eq b c → game_eq a c.
Proof. apply game_eq_trans. Qed.

Lemma take_spec h w t w1 :
  take h w = Some (t, w1) →
  (h, t) ∈ pending w ∧ w1 = set_pending (filter (λ p, p.1 ≠ h)) w.
Proof.
  unfold take. destruct (List.find _ (pending w)) as [[h' t']|] eqn:Hf; [|done].
  simpl. intros [= <- <-]. apply find_some in Hf as [Hin Hh].
  apply bool_decide_eq_true in Hh. simpl in Hh. subst h'.
  split; [|done]. by apply list_elem_of_In.
Qed.

Lemma tasks_for_app ref p e :
  tasks_for ref (p ++ [e]) =
  tasks_for ref p ++ (if decide (task_room e.2 = ref) then [e] else []).
Proof.
  unfold tasks_for. by rewrite filter_app.
Qed.

Lemma game_inv_advance_idle w1 w' ref0 :
  game_inv w1 → (ref0 < nextRoom w1)%nat →
  (∀ r, heap w1 !! ref0 = Some r →
        tasks_for ref0 (pending w1) = [] ∧ isGameOver r = false) →
  frame (elsewhere ref0) (λ ref, ref ≠ ref0) w1 w' →
  advance ref0 w1 w' →
  game_inv w'.
Proof.
  intros (J1 & J2 & J3) Hlt Hidle (Hh & Hp & Hn) Hadv.
  split; [|split].
  - intros e He. rewrite Hn. destruct (decide (task_room e.2 = ref0)) as [->|Hne].
    + done.
    + apply J1.
      assert (e ∈ tasks_for (task_room e.2) (pending w')) as He'
        by by apply elem_of_tasks_for.
      eapply sublist_subseteq in He'; [|by apply Hp].
      by apply elem_of_tasks_for in He' as [He' _].
  - intros ref r' Hr'. rewrite Hn. specialize (Hh ref). rewrite Hr' in Hh.
    inversion Hh as [r ? _ Hr|]; subst. symmetry in Hr. eauto.
  - intros ref r' Hr'. destruct (decide (ref = ref0)) as [->|Hne].
    + specialize (Hh ref0). rewrite Hr' in Hh.
      inversion Hh as [r ? _ Hr|]; subst. symmetry in Hr.
      destruct (Hadv r Hr) as (r'' & Hr'' & Hqc & Hcase).
      rewrite Hr' in Hr''. injection Hr'' as <-.
      destruct (J3 _ _ Hr) as (L & Q0 & Q1 & G).
      destruct (Hidle _ Hr) as (Hnone & Hlive).
      assert (Hroom : 0 < questionCount (config r) →
                questionsAnswered r + 1 ≤ questionCount (config r)).
      { intros Hpos. specialize (Q1 Hpos). unfold isGameOver in Hlive.
        apply andb_false_iff in Hlive as [Hl|Hl].
        - apply Z.eqb_neq in Hl. lia.
        - apply negb_false_iff, Z.eqb_eq in Hl. lia. }
      rewrite Hqc.
      destruct Hcase as [(Hqa & e & Hpe & He)|[(Hqa & Hgo & h & Hpe)
                                              |(Hqa & Hgo & Hsub)]].
      * rewrite Hpe, tasks_for_app, Hnone, decide_True by done. rewrite Hqa.
        split; [simpl; lia|]. split; [done|]. split; [done|].
        unfold isGameOver in *. rewrite Hqc, Hqa, Hlive. done.
      * rewrite Hpe, tasks_for_app, Hnone, decide_True by done. rewrite Hqa, Hgo.
        split; [simpl; lia|]. split; [lia|]. split; [done|]. done.
      * rewrite Hnone in Hsub. apply sublist_nil_r in Hsub. rewrite Hsub, Hqa.
        split; [simpl; lia|]. split; [lia|]. split; [done|]. done.
    + specialize (Hh ref). rewrite Hr' in Hh.
      inversion Hh as [r ? Hg Hr|]; subst. symmetry in Hr.
      destruct Hg as [?|(Hc & Hqc & Hqa)]; [done|].
      destruct (J3 _ _ Hr) as (L & Q0 & Q1 & G).
      specialize (Hp ref Hne).
      pose proof (sublist_length _ _ Hp) as Hlen.
      rewrite Hqc, Hqa. split; [lia|]. split; [done|]. split; [done|].
      intros Hgo. unfold isGameOver in Hgo. rewrite Hqc, Hqa in Hgo.
      specialize (G Hgo). rewrite G in Hp. by apply sublist_nil_r in Hp.
Qed.

Lemma game_inv_take w h t w1 :
  game_inv w → take h w = Some (t, w1) →
  game_inv w1 ∧ (task_room t < nextRoom w1)%nat
  ∧ ∀ r, heap w1 !! task_room t = Some r →
         tasks_for (task_room t) (pending w1) = [] ∧ isGameOver r = false.
Proof.
  intros HJ Ht. pose proof Ht as [Hin ->]%take_spec.
  assert (game_inv (set_pending (filter (λ p, p.1 ≠ h)) w)) as HJ1.
  { eapply game_inv_quiet; [|done]. apply frame_filter. by intros. }
  destruct HJ as (J1 & J2 & J3).
  set (ref0 := task_room t) in *.
  assert ((h, t) ∈ tasks_for ref0 (pending w)) as Hin'
    by by apply elem_of_tasks_for.
  split; [done|]. split; [apply (J1 _ Hin)|].
  simpl. intros r Hr. destruct (J3 _ _ Hr) as (L & _ & _ & G). split.
  - apply length_zero_iff_nil. unfold tasks_for in *.
    rewrite list_filter_filter.
    rewrite <- (list_filter_filter_l (λ e, task_room e.2 = ref0 ∧ e.1 ≠ h)
                  (λ e, task_room e.2 = ref0)) by (by intros ? [? ?]).
    pose proof (length_filter_lt (λ e, task_room e.2 = ref0 ∧ e.1 ≠ h)
                  _ (h, t) Hin') as Hl.
    simpl in Hl. lia.
  - destruct (isGameOver r); [|done]. specialize (G eq_refl).
    rewrite G in Hin'. by apply elem_of_nil in Hin'.
Qed.

Lemma game_inv_advance w h t w1 w' :
  game_inv w → take h w = Some (t, w1) →
  frame (elsewhere (task_room t)) (λ ref, ref ≠ task_room t) w1 w' →
  advance (task_room t) w1 w' →
  game_inv w'.
Proof.
  intros HJ Ht Hf Ha. destruct (game_inv_take _ _ _ _ HJ Ht) as (HJ1 & Hlt & Hidle).
  by eapply game_inv_advance_idle.
Qed.

Lemma pending_setNewQuestion ref q w :
  pending (setNewQuestion ref q w) = pending w.
Proof.
  unfold setNewQuestion, sendCurrentQuestionToAll, toRoom, with_room.
  repeat case_match; reflexivity.
Qed.

Lemma pending_perform ref p w :
  ∃ e, pending (perform ref p w) = pending w ++ [e] ∧ task_room e.2 = ref.
Proof.
  destruct p as [url k|q|e]; simpl.
  - by eexists (_, TFetch ref k).
  - unfold onComplete. simpl. rewrite pending_setNewQuestion. simpl.
    by eexists (_, TTimer ref).
  - by eexists (_, TRequestNewQuestion ref).
Qed.

Lemma game_eq_at (Q : nat → Prop) w w' ref r :
  frame (λ _, game_eq) Q w w' → heap w !! ref = Some r →
  ∃ r', heap w' !! ref = Some r' ∧ game_eq r r'.
Proof.
  intros (Hh & _) Hr. specialize (Hh ref). rewrite Hr in Hh.
  inversion Hh; subst. eauto.
Qed.

Lemma advance_perform ref p w w2 :
  heap w2 = heap w → pending w2 = pending w →
  advance ref w (perform ref p w2).
Proof.
  intros Hh Hp r Hr. rewrite <- Hh in Hr.
  assert (frame (λ _, game_eq) (λ _, False) w2 (perform ref p w2)) as Hf.
  { apply fr_perform; try done; try (by intros; apply game_eq_refl);
      [apply everywhere_trans|by auto|apply frame_refl; by intros]. }
  destruct (game_eq_at _ _ _ _ _ Hf Hr) as (r' & Hr' & Hc & Hqc & Hqa).
  exists r'. split_and!; [done..|]. left. split; [done|].
  rewrite <- Hp. apply pending_perform.
Qed.

Lemma advance_none ref w w' : heap w !! ref = None → advance ref w w'.
Proof. intros Hn r Hr. congruence. Qed.

Lemma advance_requestNewQuestion ref w : advance ref w (requestNewQuestion ref w).
Proof.
  unfold requestNewQuestion, with_room.
  destruct (heap w !! ref) eqn:Hr; [|by apply advance_none].
  by apply advance_perform.
Qed.

Lemma advance_settle ref k res draws w : advance ref w (settle ref k res draws w).
Proof.
  unfold settle, with_room.
  destruct (heap w !! ref) eqn:Hr; [|by apply advance_none].
  case_match. by apply advance_perform.
Qed.

Lemma pending_gradeUser ref q u w w' :
  gradeUser ref q u w = Some w' → pending w' = pending w.
Proof.
  unfold gradeUser, with_room. destruct (heap w !! ref) as [r|]; [|done].
  destruct (userStats r !! nickname u) as [s|]; [|done]. simpl.
  case_match. by intros [= <-].
Qed.

Lemma pending_forEach_gradeUser ref q l w w' :
  forEach (gradeUser ref q) l w = Some w' → pending w' = pending w.
Proof.
  revert w. induction l as [|u l IH]; intros w; simpl; [by intros [= <-]|].
  destruct (gradeUser ref q u w) as [w1|] eqn:Hg; [|done]. simpl.
  intros Hf. rewrite (IH _ Hf). by eapply pending_gradeUser.
Qed.

Lemma pending_sendAnswerResultsAndResetSelections ref w w' :
  sendAnswerResultsAndResetSelections ref w = Some w' → pending w' = pending w.
Proof.
  unfold sendAnswerResultsAndResetSelections, with_room.
  destruct (heap w !! ref) as [r|]; [|by intros [= <-]].
  destruct (currentQuestion r) as [q|]; [|by intros [= <-]].
  destruct (forEach _ _ _) as [w1|] eqn:Hf; [|done]. simpl.
  intros [= <-]. unfold sendUserStatsToAll, with_room.
  apply pending_forEach_gradeUser in Hf. by case_match.
Qed.

Lemma quiet_sendAnswerResultsAndResetSelections ref w w' :
  sendAnswerResultsAndResetSelections ref w = Some w' →
  frame (λ _, game_eq) (λ _, True) w w'.
Proof.
  apply fr_sendAnswerResultsAndResetSelections; try done;
    [apply everywhere_trans|apply frame_refl; by intros].
Qed.

Lemma quiet_deleteRoom ref w : frame (λ _, game_eq) (λ _, True) w (deleteRoom ref w).
Proof.
  apply fr_deleteRoom; try done; [apply everywhere_trans|apply frame_refl; by intros].
Qed.

Lemma advance_timer ref w w' : timer ref w = Some w' → advance ref w w'.
Proof.
  unfold timer, with_room. intros Ht r Hr. rewrite Hr in Ht.
  destruct (secondsLeft r =? 0) eqn:Hs.
  - match type of Ht with
    | context [sendAnswerResultsAndResetSelections ref ?w1] =>
        set (w2 := w1) in *
    end.
    assert (heap w2 !! ref
            = Some (set_acceptAnswers false
                      (set_questionsAnswered (questionsAnswered r + 1) r)))
      as Hr2.
    { subst w2. unfold toRoom, with_room. simpl.
      repeat (rewrite !lookup_alter_eq, Hr; simpl). reflexivity. }
    assert (pending w2 = pending w) as Hp2.
    { subst w2. unfold toRoom, with_room. by case_match. }
    destruct (sendAnswerResultsAndResetSelections ref w2) as [w3|] eqn:H3;
      [|done]. simpl in Ht.
    pose proof (pending_sendAnswerResultsAndResetSelections _ _ _ H3) as Hp3.
    apply quiet_sendAnswerResultsAndResetSelections in H3.
    destruct (game_eq_at _ _ _ _ _ H3 Hr2) as (r3 & Hr3 & Hc & Hqc & Hqa).
    simpl in Hqc, Hqa. rewrite Hr3 in Ht.
    destruct (isGameOver r3) eqn:Hgo; simpl in Ht.
    + assert (∃ w4, w' = w4 ∧ frame (λ _, game_eq) (λ _, True) w3 w4) as
        (w4 & -> & Hf4).
      { destruct (deleteOnLastUser r3); injection Ht as <-; eexists; split;
          try done.
        - eapply frame_trans; [apply everywhere_trans| |apply quiet_deleteRoom].
          apply fr_sendGameOverToAll; try done;
            [apply everywhere_trans|apply frame_refl; by intros].
        - apply fr_sendGameOverToAll; try done;
            [apply everywhere_trans|apply frame_refl; by intros]. }
      destruct (game_eq_at _ _ _ _ _ Hf4 Hr3) as (r4 & Hr4 & Hg4).
      exists r4. destruct Hg4 as (Hc4 & Hqc4 & Hqa4).
      split; [done|]. split; [congruence|]. right. right.
      split; [congruence|]. split.
      * rewrite <- Hgo. apply game_eq_isGameOver. done.
      * destruct Hf4 as (_ & Hsub & _). rewrite <- Hp2, <- Hp3. by apply Hsub.
    + injection Ht as <-. exists r3. simpl. rewrite Hr3.
      split; [done|]. split; [done|]. right. left.
      split; [done|]. split; [done|].
      rewrite Hp3, Hp2. by eexists.
  - injection Ht as <-.
    repeat first [progress unfold with_room, toRoom | progress simpl
                 | rewrite lookup_alter_eq | rewrite Hr].
    eexists. split; [done|]. simpl. split; [done|]. left. split; [done|].
    by eexists (_, TTimer ref).
Qed.

(** A callback of the room at [ref0] leaves the game fields and the
    callbacks of every other room alone. *)
Section elsewhere.
Context (ref0 : nat).

Lemma fr_elsewhere_refl w : frame (elsewhere ref0) (λ ref, ref ≠ ref0) w w.
Proof. apply frame_refl. apply elsewhere_refl. Qed.

Lemma elsewhere_timer w w' : timer ref0 w = Some w' → frame (elsewhere ref0) (λ ref, ref ≠ ref0) w w'.
Proof.
  apply fr_timer;
    try (by intros; apply elsewhere_refl); try (by intros; right);
    try (by intros; left);
    [apply elsewhere_trans|by auto|apply fr_elsewhere_refl].
Qed.

Lemma elsewhere_requestNewQuestion w : frame (elsewhere ref0) (λ ref, ref ≠ ref0) w (requestNewQuestion ref0 w).
Proof.
  apply fr_requestNewQuestion;
    try (by intros; apply elsewhere_refl); try (by intros; right);
    [apply elsewhere_trans|by auto|apply fr_elsewhere_refl].
Qed.

Lemma elsewhere_settle k res draws w : frame (elsewhere ref0) (λ ref, ref ≠ ref0) w (settle ref0 k res draws w).
Proof.
  apply fr_settle;
    try (by intros; apply elsewhere_refl); try (by intros; right);
    [apply elsewhere_trans|by auto|apply fr_elsewhere_refl].
Qed.

End elsewhere.

Lemma quiet_refl w : frame (λ _, game_eq) (λ _, True) w w.
Proof. apply frame_refl. by intros. Qed.

Lemma quiet_addUser ref u w : frame (λ _, game_eq) (λ _, True) w (addUser ref u w).
Proof.
  apply fr_addUser; try done; [apply everywhere_trans|apply quiet_refl].
Qed.

Lemma quiet_removeUser ref u w :
  frame (λ _, game_eq) (λ _, True) w (removeUser ref u w).
Proof.
  apply fr_removeUser; try done; [apply everywhere_trans|apply quiet_refl].
Qed.

Lemma quiet_fireAnswer u n w :
  frame (λ _, game_eq) (λ _, True) w (fireAnswer u n w).
Proof.
  apply fr_fireAnswer; try done; [apply everywhere_trans|apply quiet_refl].
Qed.

Lemma quiet_sendMessage ref u t w :
  frame (λ _, game_eq) (λ _, True) w (sendMessage ref u t w).
Proof.
  apply fr_sendMessage; try done; [apply everywhere_trans|apply quiet_refl].
Qed.

Lemma game_inv_makeNewRoom id nm d c w ref w' :
  game_inv w → makeNewRoom id nm d c w = (ref, w') → game_inv w'.
Proof.
  intros HJ. unfold makeNewRoom. intros [= <- <-].
  set (c' := default defaultConfiguration c).
  set (ref := nextRoom w).
  set (r0 := newTriviaRoom id nm d c').
  set (w1 := set_nextRoom (S ref) (set_heap <[ref:=r0]> w)).
  destruct HJ as (J1 & J2 & J3).
  assert (Hfresh : heap w !! ref = None).
  { destruct (heap w !! ref) eqn:Hr; [|done]. apply J2 in Hr. lia. }
  assert (Hnotask : tasks_for ref (pending w) = []).
  { destruct (tasks_for ref (pending w)) as [|e l] eqn:He; [done|].
    assert (e ∈ tasks_for ref (pending w)) as Hin by (rewrite He; left).
    apply elem_of_tasks_for in Hin as [Hin Heq]. apply J1 in Hin. lia. }
  assert (Hover : isGameOver r0 = false).
  { unfold isGameOver. change (questionsAnswered r0) with 0.
    change (config r0) with c'. destruct (questionCount c'); done. }
  assert (HJ1 : game_inv w1).
  { split; [|split]; simpl.
    - intros e He. apply J1 in He. lia.
    - intros ref' r'. rewrite lookup_insert. case_decide; [lia|].
      intros Hr. apply J2 in Hr. lia.
    - intros ref' r'. rewrite lookup_insert. case_decide as Hd.
      + intros [= <-]. subst ref'. fold ref. rewrite Hnotask, Hover.
        change (questionsAnswered r0) with 0. change (config r0) with c'.
        split; [simpl; lia|]. split; [lia|]. split; [|done].
        generalize (questionCount c'). lia.
      + apply J3. }
  assert (game_inv (requestNewQuestion ref w1)) as HJ2.
  { eapply game_inv_advance_idle;
      [exact HJ1| | |
       apply elsewhere_requestNewQuestion|apply advance_requestNewQuestion].
    - unfold w1. simpl. lia.
    - unfold w1. simpl. rewrite lookup_insert_eq. by intros r [= <-]. }
  eapply game_inv_quiet; [|exact HJ2].
  apply fr_publish; try done; [apply everywhere_trans|].
  apply fr_set_rooms; try done; [apply everywhere_trans|apply quiet_refl].
Qed.

Lemma game_inv_step w ev w' : game_inv w → step w ev = Some w' → game_inv w'.
Proof.
  intros HJ. destruct ev as [u|u id|u|u info newId|u text|u n|u|h|h res draws];
    unfold step.
  - intros [= <-]. eapply game_inv_quiet; [apply quiet_addUser|done].
  - destruct (getRoomById id w); intros [= <-]; [|done].
    eapply game_inv_quiet; [apply quiet_addUser|done].
  - destruct (userRoom w !! socket u); intros [= <-]; [|done].
    eapply game_inv_quiet; [apply quiet_addUser|done].
  - match goal with
    | |- context [makeNewRoom ?a ?b ?c ?d w] =>
        destruct (makeNewRoom a b c d w) as [ref w1] eqn:Hm
    end.
    intros [= <-].
    eapply game_inv_quiet; [apply quiet_addUser|].
    by eapply game_inv_makeNewRoom.
  - destruct (userRoom w !! socket u); [|by intros [= <-]].
    case_decide; intros [= <-]; [done|].
    eapply game_inv_quiet; [apply quiet_sendMessage|done].
  - intros [= <-]. eapply game_inv_quiet; [apply quiet_fireAnswer|done].
  - destruct (userRoom w !! socket u); intros [= <-]; [|done].
    eapply game_inv_quiet; [apply quiet_removeUser|done].
  - destruct (take h w) as [[t w1]|] eqn:Ht; [|by intros [= <-]].
    destruct t as [ref|ref|ref k]; [| |by intros [= <-]].
    + intros Hw'. eapply (game_inv_advance _ _ (TTimer ref)); [done..| |].
      * by apply elsewhere_timer.
      * by apply advance_timer.
    + intros [= <-]. eapply (game_inv_advance _ _ (TRequestNewQuestion ref));
        [done..| |].
      * apply elsewhere_requestNewQuestion.
      * apply advance_requestNewQuestion.
  - destruct (take h w) as [[t w1]|] eqn:Ht; [|by intros [= <-]].
    destruct t as [ref|ref|ref k]; [by intros [= <-]..|].
    intros [= <-]. eapply (game_inv_advance _ _ (TFetch ref k)); [done..| |].
    + apply elsewhere_settle.
    + apply advance_settle.
Qed.

Lemma game_inv_steps evs w w' : game_inv w → steps w evs = Some w' → game_inv w'.
Proof.
  revert w. induction evs as [|ev evs IH]; intros w HJ; simpl.
  - by intros [= <-].
  - destruct (step w ev) as [w1|] eqn:Hs; [|done]. simpl.
    apply IH. by eapply game_inv_step.
Qed.

Lemma game_inv_emptyWorld cats : game_inv (emptyWorld cats).
Proof.
  split; [|split]; simpl.
  - intros e He. by apply elem_of_nil in He.
  - intros ref r. rewrite lookup_singleton. case_decide; [|done].
    intros _. lia.
  - intros ref r. rewrite lookup_singleton. case_decide; [|done].
    intros [= <-]. simpl. split; [lia|]. split; [lia|]. split; [lia|done].
Qed.

Lemma game_inv_boot cats id : game_inv (boot cats id).
Proof.
  unfold boot.
  destruct (makeNewRoom id "The Any Room" false None (emptyWorld cats))
    as [ref w] eqn:Hm.
  eapply game_inv_quiet.
  - apply frame_updRoom; [by intros|]. intros r. by destruct r.
  - eapply game_inv_makeNewRoom; [apply game_inv_emptyWorld|done].
Qed.

Lemma game_inv_reachable w : reachable w → game_inv w.
Proof.
  intros (cats & id & evs & Hs). eapply game_inv_steps; [|done].
  apply game_inv_boot.
Qed.




(** ** Grading *)





Lemma grade_points_nonneg canSkip q s : 0 ≤ points (grade canSkip q s).2.
Proof.
  unfold grade.
  destruct ((selectedAnswerIndex s =? -1) && canSkip);
    [|destruct (selectedAnswerIndex s =? correctAnswerIndex q)]; simpl;
    match goal with |- context [?x <? 0] => destruct (Z.ltb_spec x 0) end;
    simpl; lia.
Qed.








(** ** The accepted answer *)

Lemma answerListener_accepts ref user n w r s :
  heap w !! ref = Some r → userStats r !! nickname user = Some s →
  selectedAnswerIndex s = -1 → acceptAnswers r = true →
  answerListener ref user n w
  = updRoom ref
      (set_userStats (<[nickname user := set_selectedAnswerIndex n s]>)) w.
Proof.
  intros Hr Hs Hsel Hacc. unfold answerListener, with_room.
  by rewrite Hr, Hs, Hsel, Hacc.
Qed.

Lemma answerListener_locked ref user n w r :
  heap w !! ref = Some r → acceptAnswers r = false →
  answerListener ref user n w = w.
Proof.
  intros Hr Hacc. unfold answerListener, with_room. rewrite Hr, Hacc.
  destruct (userStats r !! nickname user); [|done]. by rewrite andb_false_r.
Qed.

Lemma answerListener_already ref user n w r s :
  heap w !! ref = Some r → userStats r !! nickname user = Some s →
  selectedAnswerIndex s ≠ -1 →
  answerListener ref user n w = w.
Proof.
  intros Hr Hs Hsel. unfold answerListener, with_room. rewrite Hr, Hs.
  apply Z.eqb_neq in Hsel. by rewrite Hsel.
Qed.

Lemma answerListener_stranger ref user n w r :
  heap w !! ref = Some r → userStats r !! nickname user = None →
  answerListener ref user n w = w.
Proof.
  intros Hr Hs. unfold answerListener, with_room. by rewrite Hr, Hs.
Qed.


(** ** Points stay at or above zero *)

Section points.
Lemma kp_refl ref r : keeps_points ref r r.
Proof. by intros ?. Qed.
Lemma kp_trans ref a b c :
  keeps_points ref a b → keeps_points ref b c → keeps_points ref a c.
Proof. unfold keeps_points. auto. Qed.
Lemma kp_users ref f r : keeps_points ref r (set_users f r).
Proof. by intros ?. Qed.
Lemma kp_timerId ref v r : keeps_points ref r (set_timerId v r).
Proof. by intros ?. Qed.
Lemma kp_secondsLeft v r : ∀ ref, keeps_points ref r (set_secondsLeft v r).
Proof. by intros ? ?. Qed.
Lemma kp_currentQuestion v r : ∀ ref, keeps_points ref r (set_currentQuestion v r).
Proof. by intros ? ?. Qed.
Lemma kp_acceptAnswers v r : ∀ ref, keeps_points ref r (set_acceptAnswers v r).
Proof. by intros ? ?. Qed.
Lemma kp_questionsAnswered v r :
  ∀ ref, keeps_points ref r (set_questionsAnswered v r).
Proof. by intros ? ?. Qed.
Lemma kp_stats_delete ref k r : keeps_points ref r (set_userStats (delete k) r).
Proof.
  intros H nick s. simpl. rewrite lookup_delete. case_decide; [done|]. apply H.
Qed.
Lemma kp_stats_fresh ref k r :
  keeps_points ref r (set_userStats (<[k:=newUserStatistics]>) r).
Proof.
  intros H nick s. simpl. rewrite lookup_insert. case_decide; [|apply H].
  by intros [= <-].
Qed.
Lemma kp_stats_select ref k s n r :
  userStats r !! k = Some s →
  keeps_points ref r (set_userStats (<[k:=set_selectedAnswerIndex n s]>) r).
Proof.
  intros Hs H nick s'. simpl. rewrite lookup_insert. case_decide; [|apply H].
  intros [= <-]. simpl. by eapply H.
Qed.
Lemma kp_stats_grade ref k s c q r :
  userStats r !! k = Some s →
  keeps_points ref r (set_userStats (<[k:=(grade c q s).2]>) r).
Proof.
  intros Hs H nick s'. simpl. rewrite lookup_insert. case_decide; [|apply H].
  intros [= <-]. apply grade_points_nonneg.
Qed.
Lemma kp_stats_reset ref r :
  keeps_points ref r (set_userStats (fmap (set_selectedAnswerIndex (-1))) r).
Proof.
  intros H nick s'. simpl. rewrite lookup_fmap.
  destruct (userStats r !! nick) as [s|] eqn:Hs; [|done].
  intros [= <-]. simpl. by eapply H.
Qed.

Lemma fr_points_refl w : frame keeps_points (λ _, False) w w.
Proof. apply frame_refl, kp_refl. Qed.

Lemma all_points_ok_frame w w' : frame keeps_points (λ _, False) w w' → all_points_ok w → all_points_ok w'.
Proof.
  intros (Hh & _) Hok ref r' Hr'. specialize (Hh ref). rewrite Hr' in Hh.
  inversion Hh as [r ? HR Hr|]; subst. symmetry in Hr. apply HR. by eapply Hok.
Qed.

Local Ltac kp :=
  intros;
  first [ apply kp_refl | eapply kp_trans; eassumption | apply kp_users
        | apply kp_timerId | apply kp_stats_delete | apply kp_stats_fresh
        | apply kp_stats_select; assumption
        | apply kp_stats_grade; assumption | apply kp_stats_reset
        | apply kp_secondsLeft | apply kp_currentQuestion
        | apply kp_acceptAnswers | apply kp_questionsAnswered
        | apply fr_points_refl | tauto | eassumption ].

Lemma points_addUser ref u w : frame keeps_points (λ _, False) w (addUser ref u w).
Proof. apply fr_addUser; kp. Qed.
Lemma points_removeUser ref u w : frame keeps_points (λ _, False) w (removeUser ref u w).
Proof. apply fr_removeUser; kp. Qed.
Lemma points_fireAnswer u n w : frame keeps_points (λ _, False) w (fireAnswer u n w).
Proof. apply fr_fireAnswer; kp. Qed.
Lemma points_sendMessage ref u t w : frame keeps_points (λ _, False) w (sendMessage ref u t w).
Proof. apply fr_sendMessage; kp. Qed.
Lemma points_timer ref w w' : timer ref w = Some w' → frame keeps_points (λ _, False) w w'.
Proof. apply fr_timer; kp. Qed.
Lemma points_requestNewQuestion ref w : frame keeps_points (λ _, False) w (requestNewQuestion ref w).
Proof. apply fr_requestNewQuestion; kp. Qed.
Lemma points_settle ref k res draws w : frame keeps_points (λ _, False) w (settle ref k res draws w).
Proof. apply fr_settle; kp. Qed.
Lemma points_take h t w w1 : take h w = Some (t, w1) → frame keeps_points (λ _, False) w w1.
Proof. intros [_ ->]%take_spec. apply frame_filter, kp_refl. Qed.

Lemma all_points_ok_makeNewRoom id nm d c w ref w' :
  all_points_ok w → makeNewRoom id nm d c w = (ref, w') → all_points_ok w'.
Proof.
  intros Hok. unfold makeNewRoom. intros [= <- <-].
  eapply all_points_ok_frame.
  - apply fr_publish; [kp..|]. apply fr_set_rooms; [kp..|].
    apply points_requestNewQuestion.
  - intros ref r. simpl. rewrite lookup_insert. case_decide; [|apply Hok].
    intros [= <-] nick s. simpl. by rewrite lookup_empty.
Qed.

Lemma all_points_ok_step w ev w' :
  all_points_ok w → step w ev = Some w' → all_points_ok w'.
Proof.
  intros Hok.
  destruct ev as [u|u id|u|u info newId|u text|u n|u|h|h res draws];
    unfold step.
  - intros [= <-]. eapply all_points_ok_frame; [apply points_addUser|done].
  - destruct (getRoomById id w); intros [= <-]; [|done].
    eapply all_points_ok_frame; [apply points_addUser|done].
  - destruct (userRoom w !! socket u); intros [= <-]; [|done].
    eapply all_points_ok_frame; [apply points_addUser|done].
  - match goal with
    | |- context [makeNewRoom ?a ?b ?c ?d w] =>
        destruct (makeNewRoom a b c d w) as [ref w1] eqn:Hm
    end.
    intros [= <-]. eapply all_points_ok_frame; [apply points_addUser|].
    by eapply all_points_ok_makeNewRoom.
  - destruct (userRoom w !! socket u); [|by intros [= <-]].
    case_decide; intros [= <-]; [done|].
    eapply all_points_ok_frame; [apply points_sendMessage|done].
  - intros [= <-]. eapply all_points_ok_frame; [apply points_fireAnswer|done].
  - destruct (userRoom w !! socket u); intros [= <-]; [|done].
    eapply all_points_ok_frame; [apply points_removeUser|done].
  - destruct (take h w) as [[t w1]|] eqn:Ht; [|by intros [= <-]].
    apply points_take in Ht. pose proof (all_points_ok_frame _ _ Ht Hok).
    destruct t as [ref|ref|ref k]; [| |by intros [= <-]].
    + intros Hw'. eapply all_points_ok_frame; [by eapply points_timer|done].
    + intros [= <-].
      eapply all_points_ok_frame; [apply points_requestNewQuestion|done].
  - destruct (take h w) as [[t w1]|] eqn:Ht; [|by intros [= <-]].
    apply points_take in Ht. pose proof (all_points_ok_frame _ _ Ht Hok).
    destruct t as [ref|ref|ref k]; [by intros [= <-]..|].
    intros [= <-]. eapply all_points_ok_frame; [apply points_settle|done].
Qed.

Lemma all_points_ok_steps evs w w' :
  all_points_ok w → steps w evs = Some w' → all_points_ok w'.
Proof.
  revert w. induction evs as [|ev evs IH]; intros w Hok; simpl.
  - by intros [= <-].
  - destruct (step w ev) as [w1|] eqn:Hs; [|done]. simpl.
    apply IH. by eapply all_points_ok_step.
Qed.

Lemma all_points_ok_boot cats id : all_points_ok (boot cats id).
Proof.
  unfold boot.
  destruct (makeNewRoom id "The Any Room" false None (emptyWorld cats))
    as [ref w] eqn:Hm.
  eapply all_points_ok_frame.
  - apply frame_updRoom; [apply kp_refl|]. by intros r ?.
  - eapply all_points_ok_makeNewRoom; [|done].
    intros ref' r. simpl. rewrite lookup_singleton. case_decide; [|done].
    intros [= <-] nick s. simpl. by rewrite lookup_empty.
Qed.
End points.

(** ** C10: removing a user who is not a member *)

Lemma users_frame w w' ref r :
  frame (λ _ r r', users r' = users r) (λ _, True) w w' →
  heap w !! ref = Some r → ∃ r', heap w' !! ref = Some r' ∧ users r' = users r.
Proof.
  intros (Hh & _) Hr. specialize (Hh ref). rewrite Hr in Hh.
  inversion Hh; subst. eauto.
Qed.

Lemma users_eq_trans (ref : nat) (a b c : Room) :
  users b = users a → users c = users b → users c = users a.
Proof. congruence. Qed.

Lemma heap_setRoom user room w : heap (setRoom user room w) = heap w.
Proof. unfold setRoom, with_room, emit. repeat case_match; reflexivity. Qed.

Lemma heap_toRoom ref m w : heap (toRoom ref m w) = heap w.
Proof. unfold toRoom, with_room, emit. repeat case_match; reflexivity. Qed.

Lemma RoomBase_removeUser_users ref user w r :
  heap w !! ref = Some r →
  heap (RoomBase_removeUser ref user w) !! ref
  = Some (set_users
            (Js.splice1 (Js.findIndex (λ u, bool_decide (u = user)) (users r))) r).
Proof.
  intros Hr. unfold RoomBase_removeUser, with_room. rewrite Hr.
  unfold sendUserLeft, leaveRoom. rewrite heap_toRoom, heap_setRoom. simpl.
  by rewrite lookup_alter_eq, Hr.
Qed.

Lemma removeUser_users ref user w r :
  heap w !! ref = Some r →
  ∃ r', heap (removeUser ref user w) !! ref = Some r'
        ∧ users r'
          = Js.splice1 (Js.findIndex (λ u, bool_decide (u = user)) (users r))
              (users r).
Proof.
  intros Hr. pose proof (RoomBase_removeUser_users ref user w r Hr) as Hb.
  unfold removeUser, with_room. rewrite Hr. destruct (cls r).
  - unfold Lobby_removeUser. simpl. rewrite Hb. eauto.
  - unfold TriviaRoom_removeUser.
    match goal with
    | |- context [sendUserStatsToAll ref ?w0] => set (w1 := w0)
    end.
    assert (frame (λ _ r r', users r' = users r) (λ _, True)
              (RoomBase_removeUser ref user w)
              (with_room ref (sendUserStatsToAll ref w1)
                 (sendUserStatsToAll ref w1)
                 (λ r0, if bool_decide (length (users r0) = 0%nat)
                             && deleteOnLastUser r0
                        then deleteRoom ref (sendUserStatsToAll ref w1)
                        else publish UPDATE_ROOM ref (sendUserStatsToAll ref w1))))
      as Hf.
    { assert (frame (λ _ r r', users r' = users r) (λ _, True)
                (RoomBase_removeUser ref user w) (sendUserStatsToAll ref w1))
        as Hf1.
      { apply fr_sendUserStatsToAll; [done|apply users_eq_trans|].
        apply fr_sendLeftGameRoom; [done|apply users_eq_trans|].
        apply fr_set_answerListeners; [done|apply users_eq_trans|].
        apply fr_updRoom; [done|apply users_eq_trans|done|].
        by apply frame_refl. }
      unfold with_room. case_match; [|done]. case_match.
      - apply fr_deleteRoom; [done|apply users_eq_trans|done|done].
      - apply fr_publish; [done|apply users_eq_trans|done]. }
    destruct (users_frame _ _ _ _ Hf Hb) as (r' & Hr' & Hu). eauto.
Qed.

(** C10.  For every room, of either class, and every user who is not one of
    its members, [removeUser] takes the last member of the list, the one
    who joined most recently, out of the room: the search yields -1 and
    [splice(-1, 1)] removes the last element.  On a room with members the
    list therefore changes. *)
Theorem removeUser_of_stranger_drops_last (ref : nat) (user : User)
    (w : World) (r : Room) :
  heap w !! ref = Some r →
  isUserInRoom r user = false →
  ∃ r', heap (removeUser ref user w) !! ref = Some r'
    ∧ users r' = removelast (users r)
    ∧ ∀ rest latest, users r = rest ++ [latest] →
        users r' = rest ∧ users r' ≠ users r.
Proof.
  intros Hr Hin. destruct (removeUser_users ref user w r Hr) as (r' & Hr' & Hu).
  unfold isUserInRoom in Hin. apply negb_false_iff, Z.eqb_eq in Hin.
  rewrite Hin, splice1_not_found in Hu.
  exists r'. split; [done|]. split; [done|].
  intros rest latest Hl. rewrite Hu, Hl, removelast_last. split; [done|].
  intros Heq. apply (f_equal length) in Heq. rewrite length_app in Heq.
  simpl in Heq. lia.
Qed.

(** The theorem at work: Bob, who sits in no room, is "removed" from the
    quiz room that Alice plays in, and Alice is gone from its list. *)
Lemma removeUser_of_stranger_witness :
  ∃ r', heap (removeUser 2 bob (worldOf playing)) !! 2%nat = Some r'
    ∧ users r' = removelast (users (roomOf (worldOf playing) 2))
    ∧ ∀ rest latest, users (roomOf (worldOf playing) 2) = rest ++ [latest] →
        users r' = rest ∧ users r' ≠ users (roomOf (worldOf playing) 2).
Proof.
  apply (removeUser_of_stranger_drops_last 2 bob (worldOf playing)
           (roomOf (worldOf playing) 2)); vm_compute; reflexivity.
Defined.

(** ** C1: joining the room one is already in *)

(** [RoomBase.addUser] is the no-op its comment promises. *)
Lemma RoomBase_addUser_member ref user w r :
  heap w !! ref = Some r → isUserInRoom r user = true →
  RoomBase_addUser ref user w = w.
Proof.
  intros Hr Hin. unfold RoomBase_addUser, with_room. by rewrite Hr, Hin.
Qed.

Ltac silent_eq :=
  unfold publish, sendCurrentQuestionToOne, sendGameOverToOne,
    sendUserStatsToAll, sendEnteredGameRoom, sendLeftGameRoom,
    sendCurrentQuestionToAll, sendGameOverToAll, sendRoomListToUser,
    sendUserJoined, sendUserLeft, sendUserList, sendMessage, toRoom, with_room,
    emit;
  repeat case_match; reflexivity.

Lemma TriviaRoom_addUser_heap ref user w :
  heap (TriviaRoom_addUser ref user w)
  = alter (set_userStats (<[nickname user := newUserStatistics]>)) ref
      (heap (RoomBase_addUser ref user w)).
Proof. unfold TriviaRoom_addUser. silent_eq. Qed.

Lemma TriviaRoom_addUser_listeners ref user w :
  answerListeners (TriviaRoom_addUser ref user w)
  = <[socket user :=
        default [] (answerListeners (RoomBase_addUser ref user w) !! socket user)
        ++ [(ref, user)]]>
      (answerListeners (RoomBase_addUser ref user w)).
Proof. unfold TriviaRoom_addUser. silent_eq. Qed.

(** [TriviaRoom.addUser] goes on after it: whatever the member had is
    replaced by fresh statistics and one more listener is registered. *)
Lemma TriviaRoom_addUser_member ref user w r :
  heap w !! ref = Some r → isUserInRoom r user = true →
  let w' := TriviaRoom_addUser ref user w in
  heap w' !! ref
  = Some (set_userStats (<[nickname user := newUserStatistics]>) r)
  ∧ answerListeners w' !! socket user
    = Some (default [] (answerListeners w !! socket user) ++ [(ref, user)]).
Proof.
  intros Hr Hin. simpl.
  rewrite TriviaRoom_addUser_heap, TriviaRoom_addUser_listeners.
  rewrite (RoomBase_addUser_member _ _ _ _ Hr Hin).
  rewrite lookup_alter_eq, Hr, lookup_insert_eq. done.
Qed.

(** C1, at the failing input.  Alice plays in the quiz room with 25 points,
    one right answer, answer 1 selected for the running question and one
    answer listener; the client sends 'join room' for that same room.  The
    member list is unchanged, but her statistics are those of a newcomer,
    her selection is forgotten and a second listener is registered. *)
Theorem rejoin_resets_statistics :
  let before := worldOf playing in
  let after := worldOf (playing ++ [JoinRoom alice "BBBBB"]) in
  isUserInRoom (roomOf before 2) alice = true
  ∧ userStats (roomOf before 2) !! "alice" = Some (mkUserStatistics 25 25 1 0 1)
  ∧ answerListeners before !! 1%nat = Some [(2%nat, alice)]
  ∧ users (roomOf after 2) = users (roomOf before 2)
  ∧ userStats (roomOf after 2) !! "alice" = Some (mkUserStatistics 0 0 0 0 (-1))
  ∧ answerListeners after !! 1%nat = Some [(2%nat, alice); (2%nat, alice)].
Proof. vm_compute. repeat split; reflexivity. Qed.

(** ** C7: answer submissions *)




(** A second submission in the same cycle and a submission after the lock
    are both ignored. *)
Example second_answer_ignored :
  userStats (roomOf (worldOf (playing ++ [Answer alice 0])) 2) !! "alice"
  = userStats (roomOf (worldOf playing) 2) !! "alice".
Proof. vm_compute. reflexivity. Qed.

Example late_answer_ignored :
  worldOf (playing ++ [Timeout 6; Answer alice 0])
  = worldOf (playing ++ [Timeout 6]).
Proof. vm_compute. reflexivity. Qed.

(** ** C3: installing a new question *)

Lemma onComplete_spec ref q w r :
  heap w !! ref = Some r →
  let w' := onComplete ref q w in
  let left := maxSeconds (config r) - 1 in
  heap w' !! ref
  = Some (set_timerId (Z.of_nat (nextId w))
            (set_secondsLeft left
               (set_secondsLeft (maxSeconds (config r))
                  (set_currentQuestion (Some q) (set_acceptAnswers true r)))))
  ∧ out w' = out w ++ [ToRoom (room_id r) (SecondsLeft left);
                       ToRoom (room_id r)
                         (SetQuestion q (questionsAnswered r + 1)
                            (questionCount (config r)))]
  ∧ pending w' = pending w ++ [(nextId w, TTimer ref)].
Proof.
  intros Hr. unfold onComplete, setNewQuestion, sendCurrentQuestionToAll,
    toRoom, with_room.
  repeat first [progress simpl | rewrite lookup_alter_eq | rewrite Hr].
  rewrite <- app_assoc. done.
Qed.




(** ** C4: the session token *)

Lemma makeQuestionRequest_exhausted data draws :
  response_code data = 4 →
  makeQuestionRequest (Resolved data) draws = inr (Js.mkError "4").
Proof. intros H. unfold makeQuestionRequest. by rewrite H. Qed.

Lemma run_OnComplete id q script tokens sent :
  run id (OnComplete q) script tokens sent = (sent, tokens, Some (inl q)).
Proof. by destruct script. Qed.

Lemma run_OnError id e script tokens sent :
  run id (OnError e) script tokens sent = (sent, tokens, Some (inr e)).
Proof. by destruct script. Qed.

(** C4, as the code has it.  A fetch made with a cached token [t] sends the
    question request with [t].  If that request succeeds or fails with
    anything but the error "4", the outcome goes to the caller as it is and
    nothing more is sent.  If it fails with "4" (which is what a response
    code 4 is turned into), exactly one token reset for [t] is sent; when
    the reset yields a token, that token replaces the cached one and the
    question request is sent once more with it, and the outcome of this
    second request, whatever it is, goes to the caller; when the reset
    itself fails, its error goes to the caller, the cache is left as it is
    and no further question request is sent.  In no case does the script
    of later settlements matter: nothing else is requested. *)
Theorem token_exhaustion_single_retry (id : string) (c : RoomConfiguration)
    (sessionTokens : gmap string string) (t : string)
    (res : HttpResult) (draws : list nat)
    (rest : list (HttpResult * list nat)) :
  sessionTokens !! id = Some t →
  let url := questionUrl c in
  let first := url +:+ "&token=" +:+ t in
  let reset := "https://opentdb.com/api_token.php?command=reset&token=" +:+ t in
  let exchange script :=
    run id (getTriviaQuestionAsync id c sessionTokens) script sessionTokens [] in
  (∀ data, response_code data = 4 →
     makeQuestionRequest (Resolved data) draws = inr (Js.mkError "4"))
  ∧ (∀ q, makeQuestionRequest res draws = inl q →
       exchange ((res, draws) :: rest) = ([first], sessionTokens, Some (inl q)))
  ∧ (∀ e, makeQuestionRequest res draws = inr e → Js.message e ≠ "4" →
       exchange ((res, draws) :: rest) = ([first], sessionTokens, Some (inr e)))
  ∧ (∀ e, makeQuestionRequest res draws = inr e → Js.message e = "4" →
       (∀ data d1 res2 d2 rest',
          rest = (Resolved data, d1) :: (res2, d2) :: rest' →
          exchange ((res, draws) :: rest)
          = ([first; reset; url +:+ "&token=" +:+ token data],
             <[id := token data]> sessionTokens,
             Some (makeQuestionRequest res2 d2)))
       ∧ (∀ e' d1 rest',
            rest = (Rejected e', d1) :: rest' →
            exchange ((res, draws) :: rest)
            = ([first; reset], sessionTokens, Some (inr e')))).
Proof.
  intros Ht url first reset exchange. subst exchange.
  unfold getTriviaQuestionAsync. rewrite Ht. fold url. fold first.
  split; [intros; by apply makeQuestionRequest_exhausted|].
  split; [|split].
  - intros q Hq. simpl. rewrite Hq. apply run_OnComplete.
  - intros e He Hne. simpl. rewrite He. rewrite decide_False by done.
    apply run_OnError.
  - intros e He H4. split.
    + intros data d1 res2 d2 rest' ->. simpl. rewrite He.
      rewrite decide_True by done.
      unfold getTokenThenRequestQuestion, sessionTokenUrl. rewrite Ht.
      fold reset. simpl.
      destruct (makeQuestionRequest res2 d2);
        [apply run_OnComplete|apply run_OnError].
    + intros e' d1 rest' ->. simpl. rewrite He. rewrite decide_True by done.
      unfold getTokenThenRequestQuestion, sessionTokenUrl. rewrite Ht.
      fold reset. simpl. apply run_OnError.
Qed.

(** The theorem at a room whose cached token "T1" is exhausted. *)
Lemma token_exhaustion_single_retry_witness :
  let id := "BBBBB" in
  let c := defaultConfiguration in
  let sessionTokens := cachedTokens in
  let t := "T1" in
  let res := exhausted in
  let draws := @nil nat in
  let rest := [(sampleToken "T2", @nil nat); (sampleAnswer, sampleDraws)] in
  let url := questionUrl c in
  let first := url +:+ "&token=" +:+ t in
  let reset := "https://opentdb.com/api_token.php?command=reset&token=" +:+ t in
  let exchange script :=
    run id (getTriviaQuestionAsync id c sessionTokens) script sessionTokens [] in
  (∀ data, response_code data = 4 →
     makeQuestionRequest (Resolved data) draws = inr (Js.mkError "4"))
  ∧ (∀ q, makeQuestionRequest res draws = inl q →
       exchange ((res, draws) :: rest) = ([first], sessionTokens, Some (inl q)))
  ∧ (∀ e, makeQuestionRequest res draws = inr e → Js.message e ≠ "4" →
       exchange ((res, draws) :: rest) = ([first], sessionTokens, Some (inr e)))
  ∧ (∀ e, makeQuestionRequest res draws = inr e → Js.message e = "4" →
       (∀ data d1 res2 d2 rest',
          rest = (Resolved data, d1) :: (res2, d2) :: rest' →
          exchange ((res, draws) :: rest)
          = ([first; reset; url +:+ "&token=" +:+ token data],
             <[id := token data]> sessionTokens,
             Some (makeQuestionRequest res2 d2)))
       ∧ (∀ e' d1 rest',
            rest = (Rejected e', d1) :: rest' →
            exchange ((res, draws) :: rest)
            = ([first; reset], sessionTokens, Some (inr e')))).
Proof.
  apply (token_exhaustion_single_retry "BBBBB" defaultConfiguration cachedTokens
           "T1" exhausted [] [(sampleToken "T2", []); (sampleAnswer, sampleDraws)]).
  vm_compute. reflexivity.
Defined.

(** The exchange of that example: three requests, the new token cached, the
    question delivered. *)
Example exhausted_token_is_renewed :
  run "BBBBB" (getTriviaQuestionAsync "BBBBB" defaultConfiguration cachedTokens)
    [(exhausted, []); (sampleToken "T2", []); (sampleAnswer, sampleDraws)]
    cachedTokens []
  = (["https://opentdb.com/api.php?amount=1&token=T1";
      "https://opentdb.com/api_token.php?command=reset&token=T1";
      "https://opentdb.com/api.php?amount=1&token=T2"],
     <["BBBBB" := "T2"]> cachedTokens,
     Some (inl (normalize sampleRaw sampleDraws))).
Proof. vm_compute. reflexivity. Qed.

(** C4 as stated fails: when the token reset itself fails, the exhausted
    request is followed by one token request and by no second question
    request, however many settlements are on offer; the caller gets the
    error of the reset. *)
Lemma failed_reset_makes_no_retry :
  let '(sent, tokens, outcome) :=
    run "BBBBB" (getTriviaQuestionAsync "BBBBB" defaultConfiguration cachedTokens)
      [(exhausted, []); (offline, []); (sampleAnswer, sampleDraws)]
      cachedTokens [] in
  sent = ["https://opentdb.com/api.php?amount=1&token=T1";
          "https://opentdb.com/api_token.php?command=reset&token=T1"]
  ∧ length (filter (λ u, isTokenRequest u = true) sent) = 1%nat
  ∧ length (filter (λ u, isQuestionRequest u = true) sent) = 1%nat
  ∧ outcome = Some (inr (Js.mkError "Network Error"))
  ∧ tokens = cachedTokens.
Proof. vm_compute. repeat split; reflexivity. Qed.

(** ** C5: the answers of a fetched question *)



(** ** C2: the final ranking *)

Lemma ratio_answered s :
  (0 < answered s)%nat → ratio s = Some (accuracy s).
Proof.
  unfold ratio, accuracy, answered. intros H.
  destruct (questionsRight s + questionsWrong s)%nat as [|n] eqn:Hn; [lia|].
  by rewrite Pos.of_nat_succ.
Qed.

Lemma not_outranks sa sb :
  (0 < answered sa)%nat → (0 < answered sb)%nat → ¬ outranks sb sa →
  points sb ≤ points sa
  ∧ (points sa = points sb → (accuracy sb <= accuracy sa)%Q).
Proof.
  intros Ha Hb Hn. unfold outranks in Hn. split.
  - destruct (Z.le_gt_cases (points sb) (points sa)); [done|].
    exfalso. apply Hn. by left.
  - intros Heq. apply Qnot_lt_le. intros Hlt. apply Hn. right.
    split; [done|]. exists (accuracy sb), (accuracy sa).
    by rewrite !ratio_answered.
Qed.

Lemma sorted_lookup {A} (R : A → A → Prop) l i j x y :
  StronglySorted R l → (i < j)%nat → l !! i = Some x → l !! j = Some y → R x y.
Proof.
  intros Hs. revert i j. induction Hs as [|a l Hs IH Ha]; intros i j Hij Hi Hj.
  - done.
  - destruct j as [|j]; [lia|]. destruct i as [|i]; simpl in *.
    + injection Hi as ->. rewrite Forall_forall in Ha. apply Ha.
      by eapply list_elem_of_lookup_2.
    + apply (IH i j); [lia|done..].
Qed.

Lemma getUserStats_graded r :
  (∀ u, u ∈ users r → is_Some (userStats r !! nickname u)) →
  Forall graded (getUserStats r).
Proof.
  intros H. unfold getUserStats. rewrite Forall_fmap, Forall_forall.
  intros u Hu. by apply H.
Qed.

(** C2, as the code has it.  For a room in which every member has answered
    at least one question, the final ranking is a rearrangement of the
    members' statistics in which, of any two entries, the one that stands
    first has at least as many points as the other and, when the points are
    equal, at least as high an accuracy ratio
    questionsRight / (questionsRight + questionsWrong). *)
Theorem final_ranking_by_points_then_accuracy (r : Room) :
  (∀ u, u ∈ users r →
     ∃ s, userStats r !! nickname u = Some s ∧ (0 < answered s)%nat) →
  finalStats r ≡ₚ getUserStats r
  ∧ ∀ i j ni si nj sj,
      (i < j)%nat →
      finalStats r !! i = Some (ni, Some si) →
      finalStats r !! j = Some (nj, Some sj) →
      points sj ≤ points si
      ∧ (points si = points sj → (accuracy sj <= accuracy si)%Q).
Proof.
  intros Hall. unfold finalStats.
  split; [apply sort_perm|].
  assert (Forall graded (getUserStats r)) as Hg.
  { apply getUserStats_graded. intros u Hu.
    destruct (Hall u Hu) as (s & -> & _). done. }
  pose proof (sort_sorted _ Hg) as Hs.
  assert (∀ n s, (n, Some s) ∈ Js.sort compareStats (getUserStats r) →
            (0 < answered s)%nat) as Hans.
  { intros n s Hin. rewrite sort_perm in Hin. unfold getUserStats in Hin.
    apply list_elem_of_fmap in Hin as (u & [= -> Heq] & Hu).
    destruct (Hall u Hu) as (s' & Hs' & Hpos). congruence. }
  intros i j ni si nj sj Hij Hi Hj.
  apply not_outranks.
  - apply (Hans ni). by eapply list_elem_of_lookup_2.
  - apply (Hans nj). by eapply list_elem_of_lookup_2.
  - pose proof (sorted_lookup _ _ _ _ _ _ Hs Hij Hi Hj) as Hr.
    by apply (Hr si sj).
Qed.

(** The theorem at that room. *)
Lemma final_ranking_witness :
  finalStats tieBreakRoom ≡ₚ getUserStats tieBreakRoom
  ∧ ∀ i j ni si nj sj,
      (i < j)%nat →
      finalStats tieBreakRoom !! i = Some (ni, Some si) →
      finalStats tieBreakRoom !! j = Some (nj, Some sj) →
      points sj ≤ points si
      ∧ (points si = points sj → (accuracy sj <= accuracy si)%Q).
Proof.
  apply (final_ranking_by_points_then_accuracy tieBreakRoom).
  intros u Hu. vm_compute in Hu.
  apply elem_of_cons in Hu as [->|Hu];
    [|apply elem_of_cons in Hu as [->|Hu]; [|by apply elem_of_nil in Hu]].
  - exists memberB. split; [reflexivity|vm_compute; lia].
  - exists memberA. split; [reflexivity|vm_compute; lia].
Defined.

(** Member A (100 points, 2 right, 0 wrong) ranks above member B (100
    points, 1 right, 1 wrong), whoever joined first. *)
Example tie_break_by_accuracy :
  finalStats tieBreakRoom = [("alice", Some memberA); ("bob", Some memberB)]
  ∧ finalStats (rankingRoom [(alice, memberA); (bob, memberB)])
    = [("alice", Some memberA); ("bob", Some memberB)].
Proof. vm_compute. split; reflexivity. Qed.

(** C2 as stated fails on the member without answers: against a member
    with the same points and a defined ratio the comparator answers 0 both
    ways, and the stable sort leaves the two in join order, so the member
    without answers stays first. *)
Lemma unanswered_member_not_ranked_lower :
  let r := rankingRoom [(carol, unanswered); (bob, answeredWrong)] in
  ratio unanswered = None
  ∧ ratio answeredWrong = Some (0 # 1)
  ∧ points unanswered = points answeredWrong
  ∧ compareStats ("carol", Some unanswered) ("bob", Some answeredWrong) = 0
  ∧ compareStats ("bob", Some answeredWrong) ("carol", Some unanswered) = 0
  ∧ finalStats r = [("carol", Some unanswered); ("bob", Some answeredWrong)].
Proof. vm_compute. repeat split; reflexivity. Qed.

(** ** C6: the grading pass *)



(** In that scenario the pass marks the question SKIPPED for Alice, leaves
    her points where they were and counts one more wrong answer. *)
Example skipped_question_graded :
  let w := worldOf (playing ++ [Timeout 6; Timeout 7;
                                Response 8 sampleAnswer sampleDraws]) in
  (λ w', (userStats (roomOf w' 2) !! "alice", last (out w')))
    <$> sendAnswerResultsAndResetSelections 2 w
  = Some (Some (mkUserStatistics 0 0 1 2 (-1)),
          Some (ToRoom "BBBBB"
                  (SetUserStats [("alice", Some (mkUserStatistics 0 0 1 2 (-1)))]))).
Proof. vm_compute. reflexivity. Qed.

(** ** C9: points never go below zero *)

(** C9.  In every state the server can reach, the points of every member of
    every room are at least 0, and the statistics update of a grading pass
    leaves them at least 0, whatever the question and the selection. *)
Theorem points_never_negative (w : World) (ref : nat) (r : Room)
    (nick : string) (s : UserStatistics) :
  reachable w →
  heap w !! ref = Some r →
  userStats r !! nick = Some s →
  0 ≤ points s
  ∧ ∀ canSkip q, 0 ≤ points (grade canSkip q s).2.
Proof.
  intros (cats & id & evs & Hsteps) Hr Hs. split.
  - assert (all_points_ok w) as Hok.
    { eapply all_points_ok_steps; [|done]. apply all_points_ok_boot. }
    by eapply Hok.
  - intros canSkip q. apply grade_points_nonneg.
Qed.

Lemma reachable_worldOf evs w :
  steps (boot [] "AAAAA") evs = Some w → reachable w.
Proof. intros H. by exists [], "AAAAA", evs. Qed.

(** The theorem at the end of the quiz game, where a wrong answer has
    brought Alice from 25 points down to 0. *)
Lemma points_never_negative_witness :
  0 ≤ points (mkUserStatistics 0 0 1 2 (-1))
  ∧ ∀ canSkip q, 0 ≤ points (grade canSkip q (mkUserStatistics 0 0 1 2 (-1))).2.
Proof.
  apply (points_never_negative (worldOf played) 2 (roomOf (worldOf played) 2)
           "alice" (mkUserStatistics 0 0 1 2 (-1))).
  - apply (reachable_worldOf played). vm_compute. reflexivity.
  - vm_compute. reflexivity.
  - vm_compute. reflexivity.
Defined.

(** A wrong answer on a hard question with 10 points: the total -40 is
    brought back to 0. *)
Example wrong_answer_floored :
  grade false (mkTriviaQuestion "?" ["a"; "b"] 0 "General" "hard")
    (mkUserStatistics 10 0 1 0 1)
  = (INCORRECT, mkUserStatistics 0 (-50) 1 1 1).
Proof. reflexivity. Qed.

(** ** C8: the end of the game *)




(** The quiz room is over after its third grading pass and not before, and
    nothing is left waiting for it; the default room, with no limit, is not
    over. *)
Example three_questions_then_over :
  isGameOver (roomOf (worldOf (playing ++ [Timeout 6; Timeout 7;
                Response 8 sampleAnswer sampleDraws])) 2) = false
  ∧ questionsAnswered (roomOf (worldOf played) 2) = 3
  ∧ isGameOver (roomOf (worldOf played) 2) = true
  ∧ tasks_for 2 (pending (worldOf played)) = []
  ∧ questionCount (config (roomOf (worldOf played) 1)) = 0
  ∧ isGameOver (roomOf (worldOf played) 1) = false.
Proof. vm_compute. repeat split; reflexivity. Qed.

(** ** Removing the element that a search finds *)

Lemma splice1_nonneg {A} (i : Z) (l : list A) :
  0 ≤ i → Js.splice1 i l = delete (Z.to_nat i) l.
Proof.
  intros Hi. unfold Js.splice1.
  destruct (i <? 0) eqn:Hlt; [lia|].
  destruct (decide (i ≤ Z.of_nat (length l))) as [Hle|Hgt].
  - by rewrite Z.min_l.
  - rewrite Z.min_r by lia. rewrite Nat2Z.id.
    rewrite !delete_take_drop. rewrite !take_ge, !drop_ge by lia. done.
Qed.

Lemma findIndex_eq_member {A} `{EqDecision A} (x : A) (l : list A) :
  x ∈ l →
  ∃ l1 l2, l = l1 ++ x :: l2 ∧ (x ∉ l1)
    ∧ Js.findIndex (λ u, bool_decide (u = x)) l = Z.of_nat (length l1).
Proof.
  induction l as [|y l IH]; [by intros ?%elem_of_nil|].
  intros Hin. simpl. destruct (decide (y = x)) as [->|Hne].
  - exists [], l. rewrite bool_decide_eq_true_2 by done.
    split; [done|]. split; [apply not_elem_of_nil|done].
  - rewrite bool_decide_eq_false_2 by done.
    apply elem_of_cons in Hin as [->|Hin]; [done|].
    destruct (IH Hin) as (l1 & l2 & -> & Hn & ->).
    exists (y :: l1), l2. split; [done|]. split.
    + intros [->|?]%elem_of_cons; done.
    + simpl. destruct (Z.of_nat (length l1)) eqn:E; lia.
Qed.

Lemma splice1_member {A} `{EqDecision A} (x : A) (l : list A) :
  x ∈ l →
  ∃ l1 l2, l = l1 ++ x :: l2 ∧ (x ∉ l1)
    ∧ Js.splice1 (Js.findIndex (λ u, bool_decide (u = x)) l) l = l1 ++ l2.
Proof.
  intros (l1 & l2 & -> & Hn & Hi)%findIndex_eq_member.
  exists l1, l2. split; [done|]. split; [done|].
  rewrite Hi, splice1_nonneg by lia. rewrite Nat2Z.id.
  rewrite delete_take_drop. rewrite take_app_length.
  rewrite cons_middle, app_assoc.
  replace (S (length l1)) with (length (l1 ++ [x])) by (rewrite length_app; simpl; lia).
  by rewrite drop_app_length.
Qed.

(** On a list without repetition the search-and-splice removes [x] and
    nothing else. *)
Lemma filter_ne_notin {A} `{EqDecision A} (x : A) (l : list A) :
  x ∉ l → filter (λ y, y ≠ x) l = l.
Proof.
  induction l as [|y l IH]; [done|]. intros Hn.
  rewrite filter_cons_True.
  - f_equal. apply IH. intros ?. apply Hn. by right.
  - intros ->. apply Hn. by left.
Qed.

Lemma splice1_member_NoDup {A} `{EqDecision A} (x : A) (l : list A) :
  x ∈ l → NoDup l →
  let l' := Js.splice1 (Js.findIndex (λ u, bool_decide (u = x)) l) l in
  NoDup l' ∧ (∀ y, y ∈ l' ↔ y ∈ l ∧ y ≠ x) ∧ l' = filter (λ y, y ≠ x) l.
Proof.
  intros (l1 & l2 & -> & Hn & ->)%splice1_member Hnd. simpl.
  apply NoDup_app in Hnd as (Hnd1 & Hd & Hnd2).
  apply NoDup_cons in Hnd2 as (Hx2 & Hnd2).
  split; [|split].
  - apply NoDup_app. split; [done|]. split; [|done].
    intros y Hy Hy2. apply (Hd y Hy). by right.
  - intros y. rewrite !elem_of_app, elem_of_cons. split.
    + intros [Hy|Hy].
      * split; [by left|]. by intros ->.
      * split; [by right; right|]. by intros ->.
    + intros [[Hy|[->|Hy]] Hne]; [by left|done|by right].
  - rewrite filter_app, filter_cons_False by (by intros ?).
    by rewrite !filter_ne_notin.
Qed.

(** ** What joining and leaving change *)

Lemma userRoom_setRoom_Some user ref w :
  userRoom (setRoom user (Some ref) w) = <[socket user := ref]> (userRoom w).
Proof.
  unfold setRoom. case_decide as Hc.
  - by rewrite insert_id.
  - unfold with_room, emit. repeat case_match; reflexivity.
Qed.

Lemma userRoom_setRoom_None user w :
  userRoom (setRoom user None w) = delete (socket user) (userRoom w).
Proof.
  unfold setRoom. case_decide as Hc.
  - by rewrite delete_id.
  - unfold with_room, emit. repeat case_match; reflexivity.
Qed.

(** Sending and publishing leave the rooms and the users' rooms alone. *)
Ltac quiet_eq :=
  unfold deleteRoom, publish, sendCurrentQuestionToOne, sendGameOverToOne,
    sendUserStatsToAll, sendEnteredGameRoom, sendLeftGameRoom,
    sendCurrentQuestionToAll, sendGameOverToAll, sendRoomListToUser,
    sendUserJoined, sendUserLeft, sendUserList, sendMessage, toRoom, with_room,
    clearTimeout, updRoom, emit;
  repeat case_match; reflexivity.

Lemma RoomBase_removeUser_heap ref user w r :
  heap w !! ref = Some r →
  heap (RoomBase_removeUser ref user w)
  = alter (set_users
             (Js.splice1 (Js.findIndex (λ u, bool_decide (u = user)) (users r))))
      ref (heap w).
Proof.
  intros Hr. unfold RoomBase_removeUser, with_room. rewrite Hr.
  unfold sendUserLeft, leaveRoom. by rewrite heap_toRoom, heap_setRoom.
Qed.

Lemma userRoom_toRoom ref m w : userRoom (toRoom ref m w) = userRoom w.
Proof. quiet_eq. Qed.

Lemma RoomBase_removeUser_userRoom ref user w r :
  heap w !! ref = Some r →
  userRoom (RoomBase_removeUser ref user w) = delete (socket user) (userRoom w).
Proof.
  intros Hr. unfold RoomBase_removeUser, with_room. rewrite Hr.
  unfold sendUserLeft, leaveRoom. by rewrite userRoom_toRoom, userRoom_setRoom_None.
Qed.

Lemma userRoom_deleteRoom ref w : userRoom (deleteRoom ref w) = userRoom w.
Proof. quiet_eq. Qed.
Lemma userRoom_publish ev ref w : userRoom (publish ev ref w) = userRoom w.
Proof. quiet_eq. Qed.

Lemma heap_publish ev ref w : heap (publish ev ref w) = heap w.
Proof. quiet_eq. Qed.

Lemma heap_deleteRoom ref w :
  heap (deleteRoom ref w) = heap w
  ∨ heap (deleteRoom ref w) = alter (set_timerId (-1)) ref (heap w).
Proof.
  unfold deleteRoom, with_room. case_match; [|by left]. case_match; [|by left].
  right. rewrite heap_publish. reflexivity.
Qed.

(** [removeUser], on a room of either class: the user's [room] is unset; no
    other room changes; the room loses the member that the search finds
    and, if it is a trivia room, the statistics under the user's nickname;
    only its timer handle may change besides. *)
Lemma removeUser_effect ref user w r :
  heap w !! ref = Some r →
  userRoom (removeUser ref user w) = delete (socket user) (userRoom w)
  ∧ (∀ ref', ref' ≠ ref → heap (removeUser ref user w) !! ref' = heap w !! ref')
  ∧ ∃ r', heap (removeUser ref user w) !! ref = Some r'
      ∧ users r'
        = Js.splice1 (Js.findIndex (λ u, bool_decide (u = user)) (users r)) (users r)
      ∧ cls r' = cls r
      ∧ userStats r'
        = match cls r with
          | TriviaClass => delete (nickname user) (userStats r)
          | LobbyClass => userStats r
          end.
Proof.
  intros Hr.
  pose proof (RoomBase_removeUser_heap ref user w r Hr) as Hb.
  pose proof (RoomBase_removeUser_userRoom ref user w r Hr) as Hu.
  unfold removeUser, with_room. rewrite Hr. destruct (cls r) eqn:Hc.
  - unfold Lobby_removeUser. simpl. rewrite Hb, Hu. split; [done|]. split.
    + intros ref' Hne. by rewrite lookup_alter_ne.
    + rewrite lookup_alter_eq, Hr. simpl. eexists. split; [done|]. by rewrite ?Hc.
  - unfold TriviaRoom_removeUser.
    set (w1 := RoomBase_removeUser ref user w) in *.
    set (w2 := sendUserStatsToAll ref
                 (sendLeftGameRoom user
                    (set_answerListeners (delete (socket user))
                       (updRoom ref (set_userStats (delete (nickname user))) w1)))).
    assert (heap w2 = alter (set_userStats (delete (nickname user))) ref (heap w1))
      as Hh2 by (unfold w2; quiet_eq).
    assert (userRoom w2 = userRoom w1) as Hu2 by (unfold w2; quiet_eq).
    assert (∃ f, (f = id ∨ f = set_timerId (-1))
              ∧ heap (with_room ref w2 w2 (λ r0,
                   if bool_decide (length (users r0) = 0%nat) && deleteOnLastUser r0
                   then deleteRoom ref w2 else publish UPDATE_ROOM ref w2))
                = alter f ref (heap w2)
              ∧ userRoom (with_room ref w2 w2 (λ r0,
                   if bool_decide (length (users r0) = 0%nat) && deleteOnLastUser r0
                   then deleteRoom ref w2 else publish UPDATE_ROOM ref w2))
                = userRoom w2) as (f & Hf & Hh3 & Hu3).
    { unfold with_room. destruct (heap w2 !! ref) as [r2|].
      - case_match.
        + rewrite userRoom_deleteRoom.
          destruct (heap_deleteRoom ref w2) as [->| ->].
          * exists id. split; [by left|]. split; [|done].
            symmetry. by apply alter_id.
          * exists (set_timerId (-1)). split; [by right|]. done.
        + rewrite userRoom_publish, heap_publish. exists id.
          split; [by left|]. split; [|done].
          symmetry. by apply alter_id.
      - exists id. split; [by left|]. split; [|done].
        symmetry. by apply alter_id. }
    fold w2. rewrite Hh3, Hu3, Hh2, Hu2, Hb, Hu. split; [done|]. split.
    + intros ref' Hne. by rewrite !lookup_alter_ne.
    + rewrite !lookup_alter_eq, Hr. simpl. eexists. split; [done|].
      destruct Hf as [-> | ->]; simpl; rewrite ?Hc; done.
Qed.
Lemma RoomBase_addUser_newcomer ref user w r :
  heap w !! ref = Some r → isUserInRoom r user = false →
  let w0 := match userRoom w !! socket user with
            | Some prev => removeUser prev user w
            | None => w
            end in
  heap (RoomBase_addUser ref user w)
  = alter (set_users (λ us, us ++ [user])) ref (heap w0)
  ∧ userRoom (RoomBase_addUser ref user w) = <[socket user := ref]> (userRoom w0).
Proof.
  intros Hr Hin. simpl. unfold RoomBase_addUser, with_room. rewrite Hr, Hin.
  set (w0 := match userRoom w !! socket user with
             | Some prev => removeUser prev user w
             | None => w
             end).
  destruct (heap (setRoom user (Some ref)
                    (updRoom ref (set_users (λ us, us ++ [user])) w0)) !! ref);
    unfold sendUserList, sendUserJoined, toRoom, with_room, emit;
    repeat case_match; simpl; rewrite ?heap_setRoom, ?userRoom_setRoom_Some; done.
Qed.

Lemma addUser_class_heap ref user w r :
  heap w !! ref = Some r →
  heap (addUser ref user w)
  = alter (match cls r with
           | TriviaClass => set_userStats (<[nickname user := newUserStatistics]>)
           | LobbyClass => id
           end) ref (heap (RoomBase_addUser ref user w))
  ∧ userRoom (addUser ref user w) = userRoom (RoomBase_addUser ref user w).
Proof.
  intros Hr. unfold addUser, with_room. rewrite Hr. destruct (cls r).
  - split.
    + transitivity (heap (RoomBase_addUser ref user w)).
      * unfold Lobby_addUser. quiet_eq.
      * symmetry. by apply alter_id.
    + unfold Lobby_addUser. quiet_eq.
  - split.
    + apply TriviaRoom_addUser_heap.
    + unfold TriviaRoom_addUser. quiet_eq.
Qed.

(** ** Rooms and users agree *)

Lemma NoDup_fmap_eq {A B} (f : A → B) (l : list A) x y :
  NoDup (f <$> l) → x ∈ l → y ∈ l → f x = f y → x = y.
Proof.
  induction l as [|a l IH]; [by intros _ ?%elem_of_nil|].
  rewrite fmap_cons. intros [Ha Hnd]%NoDup_cons.
  intros [->|Hx]%elem_of_cons [->|Hy]%elem_of_cons Heq; [done| | |by apply IH].
  - exfalso. apply Ha. rewrite Heq. by apply list_elem_of_fmap_2.
  - exfalso. apply Ha. rewrite <- Heq. by apply list_elem_of_fmap_2.
Qed.

Lemma names_socket_inj U u v :
  names_ok U → u ∈ U → v ∈ U → socket u = socket v → u = v.
Proof. intros (Hnd & _). by apply NoDup_fmap_eq. Qed.

Lemma names_nickname_inj U u v :
  names_ok U → u ∈ U → v ∈ U → nickname u ≠ "" → nickname u = nickname v → u = v.
Proof. intros (_ & _ & H) Hu Hv Hn Heq. apply H; [done..|]. by rewrite Heq. Qed.

Lemma isUserInRoom_spec r user : isUserInRoom r user = true ↔ user ∈ users r.
Proof.
  unfold isUserInRoom. rewrite negb_true_iff, Z.eqb_neq. split.
  - intros Hne. destruct (decide (user ∈ users r)) as [|Hn]; [done|].
    exfalso. apply Hne. apply findIndex_none. apply Forall_forall.
    intros v Hv. apply bool_decide_eq_false_2. by intros ->.
  - intros (l1 & l2 & _ & _ & ->)%findIndex_eq_member. lia.
Qed.

(** The state keeps agreeing with a list of users that still holds all
    those who are in a room. *)
Lemma members_inv_users U U' w :
  (∀ u, u ∈ U → is_Some (userRoom w !! socket u) → u ∈ U') →
  members_inv U w → members_inv U' w.
Proof.
  intros HU (M1 & M2). split; [|done].
  intros ref r Hr. destruct (M1 ref r Hr) as (Hnd & Hm & Hs).
  split; [done|]. split; [|done].
  intros u Hu. destruct (Hm u Hu) as (? & ? & ?). eauto.
Qed.

(** Changes within [same_members] keep the agreement. *)
Lemma members_inv_quiet U w w' :
  (∀ ref, option_Forall2 (same_members ref) (heap w !! ref) (heap w' !! ref)) →
  userRoom w' = userRoom w → members_inv U w → members_inv U w'.
Proof.
  intros Hh Hu (M1 & M2). split.
  - intros ref r' Hr'. specialize (Hh ref). rewrite Hr' in Hh.
    inversion Hh as [r x HR Hr Hx|]; subst. destruct HR as (Hus & Hc & Hd).
    symmetry in Hr.
    destruct (M1 ref r Hr) as (Hnd & Hm & Hs). rewrite Hus, Hu, Hc.
    split; [done|]. split; [done|].
    intros Ht k. rewrite <- (Hs Ht k), <- !elem_of_dom, Hd. done.
  - intros s ref Hs. rewrite Hu in Hs.
    destruct (M2 s ref Hs) as (r & u & Hr & Hin & Hsock).
    specialize (Hh ref). rewrite Hr in Hh.
    inversion Hh as [x r' HR Hx Hr'|]; subst. destruct HR as (Hus & _).
    symmetry in Hr'.
    exists r', u. by rewrite Hus.
Qed.

(** A new room without members keeps it too. *)
Lemma members_inv_fresh U w w' ref r :
  heap w !! ref = None → users r = [] → userStats r = ∅ →
  heap w' = <[ref := r]> (heap w) → userRoom w' = userRoom w →
  members_inv U w → members_inv U w'.
Proof.
  intros Hfresh Hus Hst Hh Hu (M1 & M2). split.
  - intros ref' r'. rewrite Hh, Hu, lookup_insert. case_decide as Hd.
    + intros [= <-]. rewrite Hus, Hst. split; [constructor|].
      split; [by intros u ?%elem_of_nil|].
      intros _ k. rewrite lookup_empty. split; [by intros [? ?]|].
      by intros (u & ?%elem_of_nil & _).
    + apply M1.
  - intros s ref' Hs. rewrite Hu in Hs.
    destruct (M2 s ref' Hs) as (r' & u & Hr' & Hin & Hsock).
    exists r', u. rewrite Hh, lookup_insert_ne; [done|]. by intros <-; congruence.
Qed.
(** A user whose [room] is set is a member of that room. *)
Lemma members_inv_member U w user ref :
  names_ok U → members_inv U w → user ∈ U →
  userRoom w !! socket user = Some ref →
  ∃ r, heap w !! ref = Some r ∧ user ∈ users r.
Proof.
  intros HU (M1 & M2) Hin Hroom.
  destruct (M2 _ _ Hroom) as (r & u & Hr & Hu & Hsock).
  destruct (M1 _ _ Hr) as (_ & Hm & _). destruct (Hm u Hu) as (HuU & _).
  assert (u = user) as -> by by eapply names_socket_inj.
  eauto.
Qed.

(** Leaving: the room that the user was in loses that user and nobody
    else, every other room keeps its members, and the agreement holds
    again. *)
Lemma members_inv_removeUser U w user ref :
  names_ok U → members_inv U w → user ∈ U →
  userRoom w !! socket user = Some ref →
  members_inv U (removeUser ref user w)
  ∧ userRoom (removeUser ref user w) = delete (socket user) (userRoom w)
  ∧ ∀ ref' r, heap w !! ref' = Some r →
      ∃ r', heap (removeUser ref user w) !! ref' = Some r'
        ∧ users r' = filter (λ u, u ≠ user) (users r) ∧ cls r' = cls r.
Proof.
  intros HU HM Hin Hroom.
  destruct (members_inv_member _ _ _ _ HU HM Hin Hroom) as (r & Hr & Hmem).
  destruct HM as (M1 & M2).
  destruct (removeUser_effect ref user w r Hr) as (Hur & Hother & r1 & Hr1 & Hus & Hc & Hst).
  destruct (M1 _ _ Hr) as (Hnd & Hm & Hs).
  destruct (splice1_member_NoDup user (users r) Hmem Hnd) as (Hnd1 & Hiff & Hfil).
  rewrite <- Hus in Hnd1, Hiff, Hfil.
  assert (Hsock : ∀ ref' r' u, heap w !! ref' = Some r' → u ∈ users r' → u ≠ user →
            socket u ≠ socket user).
  { intros ref' r' u Hr' Hu Hne Heq. apply Hne.
    destruct (M1 _ _ Hr') as (_ & Hm' & _). destruct (Hm' u Hu) as (? & _).
    by eapply names_socket_inj. }
  assert (Helse : ∀ ref' r' u, ref' ≠ ref → heap w !! ref' = Some r' → u ∈ users r' →
            u ≠ user).
  { intros ref' r' u Hne Hr' Hu ->.
    destruct (M1 _ _ Hr') as (_ & Hm' & _). destruct (Hm' user Hu) as (_ & _ & Hx).
    congruence. }
  split; [|split; [done|]].
  - split.
    + intros ref' r'. destruct (decide (ref' = ref)) as [->|Hne].
      * rewrite Hr1. intros [= <-]. split; [done|]. split.
        -- intros u [Hu Hneq]%Hiff. destruct (Hm u Hu) as (? & ? & ?).
           split; [done|]. split; [done|]. rewrite Hur, lookup_delete_ne; [done|].
           intros Heq. by eapply (Hsock ref r u).
        -- rewrite Hc. intros Ht k. rewrite Hst, Ht, lookup_delete.
           case_decide as Hk.
           ++ split; [by intros [? ?]|]. intros (u & [Hu Hneq]%Hiff & Hn).
              exfalso. apply Hneq. destruct (Hm u Hu) as (? & ? & _).
              eapply names_nickname_inj; [done..|]. congruence.
           ++ rewrite (Hs Ht k). split.
              ** intros (u & Hu & Hn). exists u. split; [|done]. apply Hiff.
                 split; [done|]. intros ->. congruence.
              ** intros (u & [Hu _]%Hiff & Hn). eauto.
      * rewrite Hother by done. intros Hr'.
        destruct (M1 _ _ Hr') as (Hnd' & Hm' & Hs'). split; [done|]. split; [|done].
        intros u Hu. destruct (Hm' u Hu) as (? & ? & ?).
        split; [done|]. split; [done|]. rewrite Hur, lookup_delete_ne; [done|].
        intros Heq. eapply (Hsock ref' r' u); [done..| |done]. by eapply Helse.
    + intros s ref'. rewrite Hur, lookup_delete. case_decide as Hs'; [done|].
      intros Hsr. destruct (M2 _ _ Hsr) as (r' & u & Hr' & Hu & Hsk).
      destruct (decide (ref' = ref)) as [->|Hne].
      * exists r1, u. split; [done|]. split; [|done].
        assert (r' = r) as -> by congruence. apply Hiff. split; [done|].
        intros ->. congruence.
      * exists r', u. by rewrite Hother.
  - intros ref' r' Hr'. destruct (decide (ref' = ref)) as [->|Hne].
    + exists r1. assert (r' = r) as -> by congruence. done.
    + exists r'. rewrite Hother by done. split; [done|]. split; [|done].
      symmetry. apply filter_ne_notin. intros Hu. by eapply (Helse ref' r' user).
Qed.
(** Entering: a user without a room becomes the last member of the room,
    with fresh statistics in a trivia room. *)
Lemma members_inv_push U w0 w' user ref r0 (g : Room → Room) :
  names_ok U → members_inv U w0 → user ∈ U → nickname user ≠ "" →
  userRoom w0 !! socket user = None → heap w0 !! ref = Some r0 →
  heap w' = alter g ref (heap w0) →
  userRoom w' = <[socket user := ref]> (userRoom w0) →
  users (g r0) = users r0 ++ [user] → cls (g r0) = cls r0 →
  (cls r0 = TriviaClass →
   userStats (g r0) = <[nickname user := newUserStatistics]> (userStats r0)) →
  members_inv U w'.
Proof.
  intros HU (M1 & M2) Hin Hnamed Hnone Hr0 Hh Hur Hus Hc Hst.
  assert (Hout : ∀ ref' r' u, heap w0 !! ref' = Some r' → u ∈ users r' →
            socket u ≠ socket user).
  { intros ref' r' u Hr' Hu Heq.
    destruct (M1 _ _ Hr') as (_ & Hm & _). destruct (Hm u Hu) as (? & _ & Hx).
    rewrite Heq in Hx. congruence. }
  destruct (M1 _ _ Hr0) as (Hnd & Hm & Hs).
  assert (user ∉ users r0) as Hnew.
  { intros Hu. by eapply (Hout ref r0 user). }
  split.
  - intros ref' r'. rewrite Hh, Hur. destruct (decide (ref' = ref)) as [->|Hne].
    + rewrite lookup_alter_eq, Hr0. intros [= <-]. rewrite Hus, Hc. split; [|split].
      * apply NoDup_app. split; [done|]. split; [|apply NoDup_singleton].
        intros u Hu ->%list_elem_of_singleton. done.
      * intros u [Hu| ->%list_elem_of_singleton]%elem_of_app.
        -- destruct (Hm u Hu) as (? & ? & ?). split; [done|]. split; [done|].
           rewrite lookup_insert_ne; [done|]. intros Heq.
           by eapply (Hout ref r0 u).
        -- by rewrite lookup_insert_eq.
      * intros Ht k. rewrite (Hst Ht), lookup_insert. case_decide as Hk.
        -- split; [|by eauto]. intros _. exists user.
           split; [|done]. apply elem_of_app. right. by apply list_elem_of_singleton.
        -- rewrite (Hs Ht k). split.
           ++ intros (u & Hu & Hn). exists u. split; [|done].
              apply elem_of_app. by left.
           ++ intros (u & [Hu| ->%list_elem_of_singleton]%elem_of_app & Hn);
                [eauto|done].
    + rewrite lookup_alter_ne by done. intros Hr'.
      destruct (M1 _ _ Hr') as (Hnd' & Hm' & Hs'). split; [done|]. split; [|done].
      intros u Hu. destruct (Hm' u Hu) as (? & ? & ?).
      split; [done|]. split; [done|]. rewrite lookup_insert_ne; [done|].
      intros Heq. by eapply (Hout ref' r' u).
  - intros s ref'. rewrite Hur, Hh, lookup_insert. case_decide as Hs'.
    + intros [= <-]. exists (g r0), user. rewrite lookup_alter_eq, Hr0.
      split; [done|]. split; [|done]. rewrite Hus. apply elem_of_app. right.
      by apply list_elem_of_singleton.
    + intros Hsr. destruct (M2 _ _ Hsr) as (r' & u & Hr' & Hu & Hsk).
      destruct (decide (ref' = ref)) as [->|Hne].
      * exists (g r0), u. rewrite lookup_alter_eq, Hr0.
        split; [done|]. split; [|done].
        assert (r' = r0) as -> by congruence. rewrite Hus.
        apply elem_of_app. by left.
      * exists r', u. by rewrite lookup_alter_ne.
Qed.
(** [addUser] by a connected user with a nickname keeps the agreement and
    makes the room the user's room.  A member stays where it is in the
    list; a newcomer is taken out of the room it was in and becomes the last
    member. *)
Lemma members_inv_addUser U w user ref r :
  names_ok U → members_inv U w → user ∈ U → nickname user ≠ "" →
  heap w !! ref = Some r →
  members_inv U (addUser ref user w)
  ∧ userRoom (addUser ref user w) = <[socket user := ref]> (userRoom w)
  ∧ ∀ ref' r', heap w !! ref' = Some r' →
      ∃ r'', heap (addUser ref user w) !! ref' = Some r'' ∧ cls r'' = cls r'
        ∧ users r''
          = if isUserInRoom r user then users r'
            else if decide (ref' = ref) then users r' ++ [user]
            else filter (λ u, u ≠ user) (users r').
Proof.
  intros HU HM Hin Hnamed Hr.
  destruct (addUser_class_heap ref user w r Hr) as (Hh & Hur).
  set (f := match cls r with
            | TriviaClass => set_userStats (<[nickname user := newUserStatistics]>)
            | LobbyClass => id
            end) in *.
  assert (Hf : ∀ x, users (f x) = users x ∧ cls (f x) = cls x)
    by (intros x; unfold f; by destruct (cls r)).
  destruct (isUserInRoom r user) eqn:Hmem.
  - rewrite (RoomBase_addUser_member _ _ _ _ Hr Hmem) in Hh, Hur.
    apply isUserInRoom_spec in Hmem.
    pose proof HM as (M1 & M2). destruct (M1 _ _ Hr) as (_ & Hm & Hs).
    destruct (Hm user Hmem) as (_ & _ & Hroom).
    split; [|split].
    + eapply members_inv_quiet; [|exact Hur|exact HM].
      intros ref'. rewrite Hh, lookup_alter. case_decide as Hd.
      * subst ref'. rewrite Hr. constructor. destruct (Hf r) as (? & ?).
        split; [done|]. split; [done|]. unfold f. destruct (cls r) eqn:Hc; [done|].
        simpl. apply dom_insert_lookup_L, (Hs eq_refl). eauto.
      * destruct (heap w !! ref'); constructor. done.
    + by rewrite Hur, insert_id.
    + intros ref' r' Hr'. rewrite Hh, lookup_alter. case_decide as Hd.
      * subst ref'. rewrite Hr'. simpl. eexists. split; [done|].
        destruct (Hf r'). done.
      * eauto.
  - set (w0 := match userRoom w !! socket user with
               | Some prev => removeUser prev user w
               | None => w
               end).
    destruct (RoomBase_addUser_newcomer ref user w r Hr Hmem) as (Hb & Hbu).
    fold w0 in Hb, Hbu. rewrite Hb in Hh. rewrite Hbu in Hur.
    assert (Hnot : user ∉ users r).
    { intros Hx%isUserInRoom_spec. congruence. }
    assert (members_inv U w0
            ∧ userRoom w0 = delete (socket user) (userRoom w)
            ∧ ∀ ref' r', heap w !! ref' = Some r' →
                ∃ r'', heap w0 !! ref' = Some r''
                  ∧ users r'' = filter (λ u, u ≠ user) (users r')
                  ∧ cls r'' = cls r') as (HM0 & Hur0 & Heff0).
    { unfold w0. destruct (userRoom w !! socket user) as [prev|] eqn:Hprev.
      - by apply members_inv_removeUser.
      - split; [done|]. split; [by rewrite delete_id|].
        intros ref' r' Hr'. exists r'. split; [done|]. split; [|done].
        symmetry. apply filter_ne_notin. intros Hu.
        destruct HM as (M1 & _). destruct (M1 _ _ Hr') as (_ & Hm & _).
        destruct (Hm user Hu) as (_ & _ & Hx). congruence. }
    destruct (Heff0 _ _ Hr) as (r0 & Hr0 & Hus0 & Hc0).
    rewrite (filter_ne_notin _ _ Hnot) in Hus0.
    rewrite alter_alter_eq in Hh.
    split; [|split].
    + eapply (members_inv_push U w0 _ user ref r0); [done..| | |exact Hh| | | |].
      * rewrite Hur0. apply lookup_delete_eq.
      * done.
      * done.
      * simpl. by destruct (Hf (set_users (λ us, us ++ [user]) r0)) as (-> & _).
      * simpl. by destruct (Hf (set_users (λ us, us ++ [user]) r0)) as (_ & ->).
      * intros Ht. unfold f. rewrite <- Hc0, Ht. done.
    + by rewrite Hur, Hur0, insert_delete_eq.
    + intros ref' r' Hr'. destruct (Heff0 _ _ Hr') as (r1 & Hr1 & Hus1 & Hc1).
      rewrite Hh, lookup_alter. case_decide as Hd.
      * subst ref'. rewrite Hr1. simpl. eexists. split; [done|].
        destruct (Hf (set_users (λ us, us ++ [user]) r1)) as (-> & ->). simpl.
        split; [done|]. rewrite Hus1, decide_True by done. f_equal.
        assert (r' = r) as -> by congruence. by apply filter_ne_notin.
      * rewrite decide_False by done. eauto.
Qed.

(** ** What the game cycle does not touch

    A component of the state that no assignment to the rooms, the listing,
    the tokens, the queue or the trace changes is the same after every
    callback of the game cycle and after every message that is only sent
    on. *)
Section untouched.
Context {A : Type} (π : World → A).
Context (π_heap : ∀ f w, π (set_heap f w) = π w).
Context (π_nextRoom : ∀ v w, π (set_nextRoom v w) = π w).
Context (π_rooms : ∀ f w, π (set_rooms f w) = π w).
Context (π_sessionTokens : ∀ f w, π (set_sessionTokens f w) = π w).
Context (π_pending : ∀ f w, π (set_pending f w) = π w).
Context (π_nextId : ∀ v w, π (set_nextId v w) = π w).
Context (π_out : ∀ f w, π (set_out f w) = π w).

Ltac untouched :=
  repeat first
    [ rewrite π_heap | rewrite π_nextRoom | rewrite π_rooms
    | rewrite π_sessionTokens | rewrite π_pending | rewrite π_nextId
    | rewrite π_out
    | progress unfold emit, toRoom, updRoom, with_room, setTimeout, clearTimeout,
        axiosGet, publish, sendUserJoined, sendUserLeft, sendUserList,
        sendMessage, sendUserStatsToAll, sendEnteredGameRoom, sendLeftGameRoom,
        sendCurrentQuestionToOne, sendCurrentQuestionToAll, sendGameOverToAll,
        sendGameOverToOne, sendRoomListToUser, deleteRoom
    | progress simpl
    | case_match ];
  try done.

Lemma un_emit e w : π (emit e w) = π w.
Proof using π_out. untouched. Qed.
Lemma un_toRoom ref m w : π (toRoom ref m w) = π w.
Proof using π_out. untouched. Qed.
Lemma un_updRoom ref f w : π (updRoom ref f w) = π w.
Proof using π_heap. untouched. Qed.
Lemma un_setTimeout t w : π (setTimeout t w).2 = π w.
Proof using π_pending π_nextId. untouched. Qed.
Lemma un_sendMessage ref u t w : π (sendMessage ref u t w) = π w.
Proof using π_out. untouched. Qed.
Lemma un_publish ev ref w : π (publish ev ref w) = π w.
Proof using π_out π_sessionTokens. untouched. Qed.
Lemma un_deleteRoom ref w : π (deleteRoom ref w) = π w.
Proof using π_out π_sessionTokens π_rooms π_heap π_pending. untouched. Qed.
Lemma un_sendUserStatsToAll ref w : π (sendUserStatsToAll ref w) = π w.
Proof using π_out. untouched. Qed.
Lemma un_sendGameOverToAll ref w : π (sendGameOverToAll ref w) = π w.
Proof using π_out. untouched. Qed.
Lemma un_sendCurrentQuestionToAll ref w : π (sendCurrentQuestionToAll ref w) = π w.
Proof using π_out. untouched. Qed.

Lemma un_answerListener ref u n w : π (answerListener ref u n w) = π w.
Proof using π_heap. unfold answerListener. untouched. Qed.

Lemma un_fireAnswer u n w : π (fireAnswer u n w) = π w.
Proof using π_heap.
  unfold fireAnswer. generalize (default [] (answerListeners w !! socket u)).
  intros l. revert w. induction l as [|x l IH]; intros w; simpl; [done|].
  by rewrite IH, un_answerListener.
Qed.

Lemma un_gradeUser ref q u w w' : gradeUser ref q u w = Some w' → π w' = π w.
Proof using π_heap π_out.
  unfold gradeUser, with_room. destruct (heap w !! ref) as [r|]; [|done].
  destruct (userStats r !! nickname u) as [s|]; [|done]. simpl.
  destruct (grade (canSkipQuestions (config r)) q s). intros [= <-].
  by rewrite un_emit, un_updRoom.
Qed.

Lemma un_forEach_gradeUser ref q l w w' :
  forEach (gradeUser ref q) l w = Some w' → π w' = π w.
Proof using π_heap π_out.
  revert w. induction l as [|u l IH]; intros w; simpl; [by intros [= <-]|].
  destruct (gradeUser ref q u w) as [w1|] eqn:Hg; [|done]. simpl.
  intros Hf. rewrite (IH _ Hf). by eapply un_gradeUser.
Qed.

Lemma un_sendAnswerResultsAndResetSelections ref w w' :
  sendAnswerResultsAndResetSelections ref w = Some w' → π w' = π w.
Proof using π_heap π_out.
  unfold sendAnswerResultsAndResetSelections, with_room.
  destruct (heap w !! ref) as [r|]; [|by intros [= <-]].
  destruct (currentQuestion r) as [q|]; [|by intros [= <-]].
  destruct (forEach (gradeUser ref q) (users r) w) as [w1|] eqn:Hf; [|done].
  simpl. intros [= <-]. rewrite un_updRoom, un_sendUserStatsToAll.
  by eapply un_forEach_gradeUser.
Qed.

Lemma un_setNewQuestion ref q w : π (setNewQuestion ref q w) = π w.
Proof using π_heap π_out.
  unfold setNewQuestion. rewrite un_sendCurrentQuestionToAll.
  unfold with_room. case_match; rewrite ?un_toRoom, !un_updRoom; done.
Qed.

Lemma un_onComplete ref q w : π (onComplete ref q w) = π w.
Proof using π_heap π_out π_pending π_nextId.
  unfold onComplete.
  match goal with
  | |- context [setTimeout ?t ?w'] =>
      change (π (updRoom ref (set_timerId (Z.of_nat (setTimeout t w').1))
                   (setTimeout t w').2) = π w)
  end.
  by rewrite un_updRoom, un_setTimeout, un_setNewQuestion, un_updRoom.
Qed.

Lemma un_onError ref e w : π (onError ref e w) = π w.
Proof using π_out π_pending π_nextId.
  unfold onError. by rewrite un_setTimeout, un_emit.
Qed.

Lemma un_perform ref p w : π (perform ref p w) = π w.
Proof using π_heap π_out π_pending π_nextId.
  destruct p; simpl.
  - unfold axiosGet. by rewrite un_setTimeout, un_emit.
  - apply un_onComplete.
  - apply un_onError.
Qed.

Lemma un_requestNewQuestion ref w : π (requestNewQuestion ref w) = π w.
Proof using π_heap π_out π_pending π_nextId.
  unfold requestNewQuestion, with_room. case_match; [|done]. apply un_perform.
Qed.

Lemma un_settle ref k res draws w : π (settle ref k res draws w) = π w.
Proof using π_heap π_out π_pending π_nextId π_sessionTokens.
  unfold settle, with_room. case_match; [|done]. case_match.
  by rewrite un_perform, π_sessionTokens.
Qed.

Lemma un_timer ref w w' : timer ref w = Some w' → π w' = π w.
Proof using π_heap π_out π_pending π_nextId π_sessionTokens π_rooms.
  unfold timer, with_room. destruct (heap w !! ref) as [r|]; [|by intros [= <-]].
  destruct (secondsLeft r =? 0).
  - match goal with
    | |- context [sendAnswerResultsAndResetSelections ref ?w0] =>
        assert (π w0 = π w) as H0 by (by rewrite un_toRoom, !un_updRoom);
        destruct (sendAnswerResultsAndResetSelections ref w0) as [w3|] eqn:Hs;
        [|done]
    end.
    apply un_sendAnswerResultsAndResetSelections in Hs. simpl.
    destruct (heap w3 !! ref) as [r3|]; [|intros [= <-]; congruence].
    destruct (negb (isGameOver r3)).
    + intros [= <-]. transitivity (π w3); [apply un_setTimeout|congruence].
    + destruct (deleteOnLastUser r3); intros [= <-];
        rewrite ?un_deleteRoom, un_sendGameOverToAll; congruence.
  - match goal with
    | |- context [setTimeout ?t ?w0] =>
        change (Some (updRoom ref (set_timerId (Z.of_nat (setTimeout t w0).1))
                         (setTimeout t w0).2) = Some w' → π w' = π w)
    end.
    intros [= <-]. rewrite un_updRoom. etransitivity; [apply un_setTimeout|].
    case_match; rewrite ?un_toRoom, !un_updRoom; done.
Qed.

Lemma un_take h t w w1 : take h w = Some (t, w1) → π w1 = π w.
Proof using π_pending.
  unfold take. destruct (List.find _ _); [|done]. simpl. intros [= _ <-].
  apply π_pending.
Qed.

Lemma un_makeNewRoom id nm d c w : π (makeNewRoom id nm d c w).2 = π w.
Proof using π_heap π_out π_pending π_nextId π_sessionTokens π_rooms π_nextRoom.
  unfold makeNewRoom. simpl.
  by rewrite un_publish, π_rooms, un_requestNewQuestion, π_nextRoom, π_heap.
Qed.
End untouched.

(** ** The agreement of rooms and users over a turn of the event loop *)

Lemma sm_refl ref r : same_members ref r r.
Proof. done. Qed.
Lemma sm_trans ref a b c :
  same_members ref a b → same_members ref b c → same_members ref a c.
Proof. intros (? & ? & ?) (? & ? & ?). repeat split; congruence. Qed.
Lemma sm_timerId ref v r : same_members ref r (set_timerId v r).
Proof. done. Qed.
Lemma sm_secondsLeft v r : ∀ ref, same_members ref r (set_secondsLeft v r).
Proof. done. Qed.
Lemma sm_currentQuestion v r : ∀ ref, same_members ref r (set_currentQuestion v r).
Proof. done. Qed.
Lemma sm_acceptAnswers v r : ∀ ref, same_members ref r (set_acceptAnswers v r).
Proof. done. Qed.
Lemma sm_questionsAnswered v r : ∀ ref, same_members ref r (set_questionsAnswered v r).
Proof. done. Qed.
Lemma sm_stats_select ref k s n r :
  userStats r !! k = Some s →
  same_members ref r (set_userStats (<[k:=set_selectedAnswerIndex n s]>) r).
Proof. intros Hs. split; [done|]. split; [done|]. simpl. by apply dom_insert_lookup_L. Qed.
Lemma sm_stats_grade ref k s c q r :
  userStats r !! k = Some s →
  same_members ref r (set_userStats (<[k:=(grade c q s).2]>) r).
Proof. intros Hs. split; [done|]. split; [done|]. simpl. by apply dom_insert_lookup_L. Qed.
Lemma sm_stats_reset ref r :
  same_members ref r (set_userStats (fmap (set_selectedAnswerIndex (-1))) r).
Proof. split; [done|]. split; [done|]. simpl. apply dom_fmap_L. Qed.

Ltac sm :=
  intros;
  first [ apply sm_refl | eapply sm_trans; eassumption | apply sm_timerId
        | apply sm_stats_select; assumption
        | apply sm_stats_grade; assumption | apply sm_stats_reset
        | apply sm_secondsLeft | apply sm_currentQuestion
        | apply sm_acceptAnswers | apply sm_questionsAnswered
        | apply frame_refl, sm_refl | tauto | eassumption ].

Lemma userRoom_fireAnswer u n w : userRoom (fireAnswer u n w) = userRoom w.
Proof. by apply (un_fireAnswer userRoom). Qed.
Lemma userRoom_sendMessage ref u t w : userRoom (sendMessage ref u t w) = userRoom w.
Proof. by apply (un_sendMessage userRoom). Qed.
Lemma userRoom_timer ref w w' : timer ref w = Some w' → userRoom w' = userRoom w.
Proof. by apply (un_timer userRoom). Qed.
Lemma userRoom_requestNewQuestion ref w :
  userRoom (requestNewQuestion ref w) = userRoom w.
Proof. by apply (un_requestNewQuestion userRoom). Qed.
Lemma userRoom_settle ref k res draws w :
  userRoom (settle ref k res draws w) = userRoom w.
Proof. by apply (un_settle userRoom). Qed.
Lemma userRoom_take h t w w1 : take h w = Some (t, w1) → userRoom w1 = userRoom w.
Proof. by apply (un_take userRoom). Qed.
Lemma userRoom_makeNewRoom id nm d c w :
  userRoom (makeNewRoom id nm d c w).2 = userRoom w.
Proof. by apply (un_makeNewRoom userRoom). Qed.

Lemma members_inv_frame U w w' :
  frame same_members (λ _, False) w w' → userRoom w' = userRoom w →
  members_inv U w → members_inv U w'.
Proof. intros (Hh & _). by apply members_inv_quiet. Qed.

Lemma members_fireAnswer u n w :
  frame same_members (λ _, False) w (fireAnswer u n w).
Proof. apply fr_fireAnswer; sm. Qed.
Lemma members_sendMessage ref u t w :
  frame same_members (λ _, False) w (sendMessage ref u t w).
Proof. apply fr_sendMessage; sm. Qed.
Lemma members_timer ref w w' :
  timer ref w = Some w' → frame same_members (λ _, False) w w'.
Proof. apply fr_timer; sm. Qed.
Lemma members_requestNewQuestion ref w :
  frame same_members (λ _, False) w (requestNewQuestion ref w).
Proof. apply fr_requestNewQuestion; sm. Qed.
Lemma members_settle ref k res draws w :
  frame same_members (λ _, False) w (settle ref k res draws w).
Proof. apply fr_settle; sm. Qed.
Lemma members_take h t w w1 :
  take h w = Some (t, w1) → frame same_members (λ _, False) w w1.
Proof. intros [_ ->]%take_spec. apply frame_filter, sm_refl. Qed.

Lemma addUser_no_room ref user w : heap w !! ref = None → addUser ref user w = w.
Proof. intros Hr. unfold addUser, with_room. by rewrite Hr. Qed.

Lemma members_inv_addUser_any U w user ref :
  names_ok U → members_inv U w → user ∈ U → nickname user ≠ "" →
  members_inv U (addUser ref user w).
Proof.
  intros HU HM Hin Hn. destruct (heap w !! ref) as [r|] eqn:Hr.
  - by apply (members_inv_addUser U w user ref r).
  - by rewrite addUser_no_room.
Qed.

Lemma members_inv_makeNewRoom U id nm d c w :
  game_inv w → members_inv U w →
  members_inv U (makeNewRoom id nm d c w).2
  ∧ is_Some (heap (makeNewRoom id nm d c w).2 !! (makeNewRoom id nm d c w).1).
Proof.
  intros (_ & J2 & _) HM. unfold makeNewRoom. simpl.
  set (c' := default defaultConfiguration c).
  set (ref := nextRoom w).
  set (w1 := set_nextRoom (S ref) (set_heap <[ref:=newTriviaRoom id nm d c']> w)).
  assert (Hfresh : heap w !! ref = None).
  { destruct (heap w !! ref) eqn:Hr; [|done]. apply J2 in Hr. unfold ref in Hr. lia. }
  assert (members_inv U w1) as HM1.
  { eapply (members_inv_fresh U w w1 ref (newTriviaRoom id nm d c'));
      [exact Hfresh| | | | |exact HM]; reflexivity. }
  assert (frame same_members (λ _, False) w1
            (publish NEW_ROOM ref (set_rooms (set_key id ref) (requestNewQuestion ref w1))))
    as Hf.
  { apply fr_publish; [sm..|]. apply fr_set_rooms; [sm..|].
    apply members_requestNewQuestion. }
  split.
  - eapply members_inv_frame; [exact Hf| |exact HM1].
    apply (userRoom_makeNewRoom id nm d c w).
  - destruct Hf as (Hh & _). specialize (Hh ref).
    unfold w1 in Hh at 1. simpl in Hh. rewrite lookup_insert_eq in Hh.
    inversion Hh. eauto.
Qed.

(** A turn of the event loop on behalf of a connected user with a nickname,
    or a callback of the game cycle, keeps the agreement. *)
Lemma members_inv_step U w ev w' :
  names_ok U → game_inv w → members_inv U w →
  (∀ u, mover ev = Some u → u ∈ U ∧ nickname u ≠ "") →
  step w ev = Some w' → members_inv U w'.
Proof.
  intros HU HJ HM Hact.
  destruct ev as [u|u id|u|u info newId|u text|u n|u|h|h res draws];
    unfold step; try (destruct (Hact u eq_refl) as (Hin & Hn)); clear Hact.
  - intros [= <-]. by apply members_inv_addUser_any.
  - destruct (getRoomById id w); intros [= <-]; [|done].
    by apply members_inv_addUser_any.
  - destruct (userRoom w !! socket u); intros [= <-]; [|done].
    by apply members_inv_addUser_any.
  - match goal with
    | |- context [makeNewRoom ?a ?b ?c ?d w] =>
        pose proof (members_inv_makeNewRoom U a b c d w HJ HM) as (HM1 & _);
        destruct (makeNewRoom a b c d w) as [ref w1] eqn:Hm
    end.
    intros [= <-]. by apply members_inv_addUser_any.
  - destruct (userRoom w !! socket u); [|by intros [= <-]].
    case_decide; intros [= <-]; [done|].
    eapply members_inv_frame; [apply members_sendMessage| |done].
    apply userRoom_sendMessage.
  - intros [= <-]. eapply members_inv_frame; [apply members_fireAnswer| |done].
    apply userRoom_fireAnswer.
  - destruct (userRoom w !! socket u) as [ref|] eqn:Hroom; intros [= <-]; [|done].
    by apply members_inv_removeUser.
  - destruct (take h w) as [[t w1]|] eqn:Ht; [|by intros [= <-]].
    assert (members_inv U w1) as HM1.
    { eapply members_inv_frame; [by eapply members_take| |done].
      by eapply userRoom_take. }
    destruct t as [ref|ref|ref k]; [| |by intros [= <-]].
    + intros Hw'. eapply members_inv_frame; [by eapply members_timer| |done].
      by eapply userRoom_timer.
    + intros [= <-].
      eapply members_inv_frame; [apply members_requestNewQuestion| |done].
      apply userRoom_requestNewQuestion.
  - destruct (take h w) as [[t w1]|] eqn:Ht; [|by intros [= <-]].
    assert (members_inv U w1) as HM1.
    { eapply members_inv_frame; [by eapply members_take| |done].
      by eapply userRoom_take. }
    destruct t as [ref|ref|ref k]; [by intros [= <-]..|].
    intros [= <-]. eapply members_inv_frame; [apply members_settle| |done].
    apply userRoom_settle.
Qed.

(** ** Callbacks belong to trivia rooms *)









(** ** The server over a turn of its event loop *)

Lemma toLowerCase_empty s : toLowerCase s = "" → s = "".
Proof. by destruct s. Qed.

Lemma length_zero_empty (s : string) : String.length s = 0%nat → s = "".
Proof. by destruct s. Qed.

Lemma isNicknameValid_nonempty nick : isNicknameValid nick = true → nick ≠ "".
Proof. by destruct nick. Qed.

Lemma findUser_spec s sv user :
  findUser s sv = Some user → user ∈ allUsers sv ∧ socket user = s.
Proof.
  unfold findUser. intros [Hin Hs]%find_some.
  apply bool_decide_eq_true in Hs. split; [|done]. by apply list_elem_of_In.
Qed.

Lemma findUser_None s sv :
  findUser s sv = None → s ∉ socket <$> allUsers sv.
Proof.
  unfold findUser. intros Hf (u & -> & Hu)%list_elem_of_fmap.
  apply list_elem_of_In in Hu. eapply find_none in Hf; [|done].
  by apply bool_decide_eq_false in Hf.
Qed.

Lemma isNicknameTaken_false nick sv :
  isNicknameTaken nick sv = false →
  ∀ v, v ∈ allUsers sv → toLowerCase (nickname v) ≠ toLowerCase nick.
Proof.
  unfold isNicknameTaken. destruct (List.find _ _) eqn:Hf; [done|].
  intros _ v Hv%list_elem_of_In. eapply find_none in Hf; [|done].
  by apply bool_decide_eq_false in Hf.
Qed.


Lemma steps_snoc w evs ev w1 :
  steps w evs = Some w1 → steps w (evs ++ [ev]) = step w1 ev.
Proof.
  revert w. induction evs as [|e evs IH]; intros w; simpl.
  - intros [= <-]. by destruct (step w ev).
  - destruct (step w e) as [w2|]; [|done]. simpl. apply IH.
Qed.

Lemma reachable_step w ev w' : reachable w → step w ev = Some w' → reachable w'.
Proof.
  intros (cats & id & evs & Hs) Hstep. exists cats, id, (evs ++ [ev]).
  by rewrite (steps_snoc _ _ _ _ Hs).
Qed.

(** A user without a nickname is in no room. *)
Lemma unnamed_no_room U w user :
  names_ok U → members_inv U w → user ∈ U → nickname user = "" →
  userRoom w !! socket user = None.
Proof.
  intros HU HM Hin Hn. destruct (userRoom w !! socket user) as [ref|] eqn:Hroom; [|done].
  destruct (members_inv_member _ _ _ _ HU HM Hin Hroom) as (r & Hr & Hmem).
  destruct HM as (M1 & _). destruct (M1 _ _ Hr) as (_ & Hm & _).
  by destruct (Hm user Hmem) as (_ & ? & _).
Qed.

Lemma names_ok_connection U s :
  names_ok U → s ∉ socket <$> U → names_ok (U ++ [mkUser s ""]).
Proof.
  intros (Hnd & Hv & Hd) Hs. split; [|split].
  - rewrite fmap_app. apply NoDup_app. split; [done|]. split; [|apply NoDup_singleton].
    intros x Hx ->%list_elem_of_singleton. done.
  - intros u [Hu| ->%list_elem_of_singleton]%elem_of_app; [by apply Hv|by left].
  - intros u v [Hu| ->%list_elem_of_singleton]%elem_of_app
             [Hv'| ->%list_elem_of_singleton]%elem_of_app Hn Hl; try done.
    + by apply Hd.
    + simpl in Hl. by apply toLowerCase_empty in Hl.
Qed.

Lemma names_ok_named U user nick :
  names_ok U → user ∈ U → nickname user = "" → isNicknameValid nick = true →
  (∀ v, v ∈ U → toLowerCase (nickname v) ≠ toLowerCase nick) →
  names_ok ((λ u, if decide (u = user) then mkUser (socket user) nick else u) <$> U).
Proof.
  intros (Hnd & Hv & Hd) Hin Hun Hvalid Hfree. split; [|split].
  - rewrite <- list_fmap_compose.
    replace (socket ∘ (λ u, if decide (u = user) then mkUser (socket user) nick else u)
               <$> U) with (socket <$> U); [done|].
    apply list_fmap_ext. intros i u _. simpl.
    by destruct (decide (u = user)) as [->|].
  - intros u' (u & -> & Hu)%list_elem_of_fmap. case_decide; [by right|by apply Hv].
  - intros u' v' (u & -> & Hu)%list_elem_of_fmap (v & -> & Hv')%list_elem_of_fmap.
    destruct (decide (u = user)) as [->|Hne], (decide (v = user)) as [->|Hne'];
      simpl; try done.
    + intros _ Hl. exfalso. symmetry in Hl. by apply (Hfree v).
    + intros _ Hl. exfalso. by apply (Hfree u).
    + by apply Hd.
Qed.

Lemma names_ok_filter U (P : User → Prop) `{!∀ u, Decision (P u)} :
  names_ok U → names_ok (filter P U).
Proof.
  intros (Hnd & Hv & Hd). split; [|split].
  - eapply sublist_NoDup; [exact Hnd|]. apply fmap_sublist, sublist_filter.
  - intros u [_ Hu]%list_elem_of_filter. by apply Hv.
  - intros u v [_ Hu]%list_elem_of_filter [_ Hv']%list_elem_of_filter. by apply Hd.
Qed.

Lemma NoDup_of_fmap {A B} (f : A → B) (l : list A) : NoDup (f <$> l) → NoDup l.
Proof.
  induction l as [|x l IH]; [constructor|]. rewrite fmap_cons.
  intros [Hx Hnd]%NoDup_cons. apply NoDup_cons. split; [|by apply IH].
  intros Hin. apply Hx. by apply list_elem_of_fmap_2.
Qed.
Lemma turn_inv ev sv sv' :
  server_inv sv →
  (∀ u, mover ev = Some u → u ∈ allUsers sv ∧ nickname u ≠ "") →
  turn ev sv = Some sv' →
  server_inv sv' ∧ allUsers sv' = allUsers sv
  ∧ step (world sv) ev = Some (world sv').
Proof.
  intros (HU & HM & HR) Hact. unfold turn.
  destruct (step (world sv) ev) as [w'|] eqn:Hs; [|done]. simpl.
  intros [= <-]. simpl. split; [|done]. split; [done|]. split.
  - eapply members_inv_step; [done|by apply game_inv_reachable|done..].
  - by eapply reachable_step.
Qed.

Lemma setNickname_inv user nick sv :
  server_inv sv → user ∈ allUsers sv → server_inv (setNickname user nick sv).
Proof.
  intros (HU & HM & HR) Hin. unfold setNickname.
  destruct (String.length (nickname user) =? 0)%nat eqn:Hlen; [|done]. simpl.
  destruct (isNicknameValid nick) eqn:Hvalid; [|done].
  destruct (isNicknameTaken nick sv) eqn:Htaken; [done|]. simpl.
  apply Nat.eqb_eq, length_zero_empty in Hlen.
  set (named := mkUser (socket user) nick).
  set (U' := (λ u, if decide (u = user) then named else u) <$> allUsers sv).
  assert (names_ok U') as HU'.
  { apply names_ok_named; [done..|]. by apply isNicknameTaken_false. }
  assert (members_inv U' (world sv)) as HM'.
  { eapply members_inv_users; [|exact HM]. intros u Hu [ref Hroom].
    apply list_elem_of_fmap. exists u. split; [|done].
    rewrite decide_False; [done|]. intros ->.
    rewrite (unnamed_no_room _ _ _ HU HM Hin Hlen) in Hroom. done. }
  assert (named ∈ U') as Hnamed.
  { apply list_elem_of_fmap. exists user. by rewrite decide_True. }
  assert (nickname named ≠ "") as Hnn by by apply isNicknameValid_nonempty.
  destruct (pendingJoinRoomRequests sv !! socket user) as [id|] eqn:Hp.
  - destruct (getRoomById id (world sv)) as [ref|] eqn:Hg.
    + split; [done|]. split; [by apply members_inv_addUser_any|]. simpl.
      apply (reachable_step _ (JoinRoom named id) _ HR). simpl. by rewrite Hg.
    + split; [done|]. split; [by apply members_inv_addUser_any|]. simpl.
      by apply (reachable_step _ (EnterLobby named) _ HR).
  - split; [done|]. split; [by apply members_inv_addUser_any|]. simpl.
    by apply (reachable_step _ (EnterLobby named) _ HR).
Qed.
Lemma disconnect_users sv user :
  names_ok (allUsers sv) → user ∈ allUsers sv →
  allUsers (disconnect user sv) = filter (λ u, u ≠ user) (allUsers sv).
Proof.
  intros (Hnd & _) Hin.
  assert (allUsers (disconnect user sv)
          = Js.splice1 (Js.findIndex (λ u, bool_decide (u = user)) (allUsers sv))
              (allUsers sv)) as ->.
  { unfold disconnect. simpl. by destruct (userRoom (world sv) !! socket user). }
  apply NoDup_of_fmap in Hnd.
  by destruct (splice1_member_NoDup user (allUsers sv) Hin Hnd) as (_ & _ & ->).
Qed.

Lemma disconnect_world sv user :
  world (disconnect user sv)
  = match userRoom (world sv) !! socket user with
    | Some ref => removeUser ref user (world sv)
    | None => world sv
    end.
Proof.
  unfold disconnect. simpl. by destruct (userRoom (world sv) !! socket user).
Qed.

Lemma disconnect_inv user sv :
  server_inv sv → user ∈ allUsers sv → server_inv (disconnect user sv).
Proof.
  intros (HU & HM & HR) Hin. split; [|split].
  - rewrite disconnect_users by done. by apply names_ok_filter.
  - rewrite disconnect_users, disconnect_world by done.
    destruct (userRoom (world sv) !! socket user) as [ref|] eqn:Hroom.
    + destruct (members_inv_removeUser _ _ _ _ HU HM Hin Hroom) as (HM' & Hur & _).
      eapply members_inv_users; [|exact HM']. intros u Hu [ref' Hr'].
      apply list_elem_of_filter. split; [|done]. intros ->.
      rewrite Hur, lookup_delete_eq in Hr'. done.
    + eapply members_inv_users; [|exact HM]. intros u Hu [ref' Hr'].
      apply list_elem_of_filter. split; [|done]. intros ->. congruence.
  - rewrite disconnect_world.
    destruct (userRoom (world sv) !! socket user) as [ref|] eqn:Hroom; [|done].
    apply (reachable_step _ (Disconnect user) _ HR). simpl. by rewrite Hroom.
Qed.

Lemma connection_inv s sv :
  server_inv sv → s ∉ socket <$> allUsers sv → server_inv (connection s sv).
Proof.
  intros (HU & HM & HR) Hs. split; [|split]; simpl; [| |done].
  - by apply names_ok_connection.
  - eapply members_inv_users; [|exact HM]. intros u Hu _.
    apply elem_of_app. by left.
Qed.

(** Every turn of the event loop of the server keeps the invariant. *)
Lemma receive_inv sv ev sv' :
  server_inv sv → receive sv ev = Some sv' → server_inv sv'.
Proof.
  intros HI. destruct ev as [s|s m|h|h res draws]; simpl.
  - case_bool_decide as Hs; intros [= <-]; [done|]. by apply connection_inv.
  - destruct (findUser s sv) as [user|] eqn:Hf; [|by intros [= <-]].
    apply findUser_spec in Hf as [Hin Hs].
    destruct m as [nick|id| |info draws|text| |n|].
    + intros [= <-]. by apply setNickname_inv.
    + case_decide as Hn.
      * intros [= <-]. destruct HI as (? & ? & ?). by split.
      * intros Ht. eapply turn_inv in Ht as (? & _); [done..|].
        by intros u [= <-].
    + case_decide as Hn; [by intros [= <-]|].
      intros Ht. eapply turn_inv in Ht as (? & _); [done..|].
      by intros u [= <-].
    + case_decide as Hn; [by intros [= <-]|].
      intros Ht. eapply turn_inv in Ht as (? & _); [done..|].
      by intros u [= <-].
    + case_decide as Hn; [by intros [= <-]|].
      intros Ht. eapply turn_inv in Ht as (? & _); [done..|]. done.
    + case_decide as Hn; intros [= <-]; [done|].
      destruct HI as (? & ? & ?). by split.
    + intros Ht. eapply turn_inv in Ht as (? & _); [done..|]. done.
    + intros [= <-]. by apply disconnect_inv.
  - intros Ht. eapply turn_inv in Ht as (? & _); [done..|]. done.
  - intros Ht. eapply turn_inv in Ht as (? & _); [done..|]. done.
Qed.

Lemma listening_inv cats draws : server_inv (listening cats draws).
Proof.
  split; [|split]; simpl.
  - split; [constructor|]. split; [by intros u ?%elem_of_nil|].
    by intros u v ?%elem_of_nil.
  - pose proof (members_inv_makeNewRoom [] (generateId draws) "The Any Room" false
                  None (emptyWorld cats) (game_inv_emptyWorld cats)) as HM.
    unfold boot.
    destruct (makeNewRoom (generateId draws) "The Any Room" false None
                (emptyWorld cats)) as [ref w] eqn:Hm.
    eapply members_inv_quiet; [| |apply HM].
    + intros ref'. simpl. rewrite lookup_alter. case_decide as Hd.
      * subst ref'. simpl. destruct (heap w !! ref); constructor. done.
      * destruct (heap w !! ref'); constructor. done.
    + done.
    + split.
      * intros ref' r. simpl. rewrite lookup_singleton. case_decide; [|done].
        intros [= <-]. simpl. split; [constructor|].
        split; [by intros u ?%elem_of_nil|done].
      * intros s ref'. simpl. by rewrite lookup_empty.
  - exists cats, (generateId draws), []. done.
Qed.

Lemma serve_inv evs sv sv' :
  server_inv sv → serve sv evs = Some sv' → server_inv sv'.
Proof.
  revert sv. induction evs as [|ev evs IH]; intros sv HI; simpl.
  - by intros [= <-].
  - destruct (receive sv ev) as [sv1|] eqn:Hr; [|done]. simpl.
    apply IH. by eapply receive_inv.
Qed.

Lemma live_inv sv : live sv → server_inv sv.
Proof.
  intros (cats & draws & evs & Hs). eapply serve_inv; [|done].
  apply listening_inv.
Qed.

(** ** No handler throws *)




(** ** How the state evolves

    A relation between states that every assignment respects, except that
    the listing may only lose keys, holds between the state before and
    after each operation but [makeNewRoom]. *)
Section evolves.
Context (ρ : World → World → Prop).
Context (ρ_refl : ∀ w, ρ w w).
Context (ρ_trans : ∀ w1 w2 w3, ρ w1 w2 → ρ w2 w3 → ρ w1 w3).
Context (ρ_heap : ∀ f w, ρ w (set_heap f w)).
Context (ρ_sessionTokens : ∀ f w, ρ w (set_sessionTokens f w)).
Context (ρ_pending : ∀ f w, ρ w (set_pending f w)).
Context (ρ_nextId : ∀ v w, ρ w (set_nextId v w)).
Context (ρ_out : ∀ f w, ρ w (set_out f w)).
Context (ρ_userRoom : ∀ f w, ρ w (set_userRoom f w)).
Context (ρ_answerListeners : ∀ f w, ρ w (set_answerListeners f w)).
Context (ρ_rooms_delete : ∀ id w, ρ w (set_rooms (delete_key id) w)).

Lemma ev_step (f : World → World) w w1 : (∀ w', ρ w' (f w')) → ρ w w1 → ρ w (f w1).
Proof using ρ_trans. intros Hf H. eapply ρ_trans; [exact H|apply Hf]. Qed.

Lemma ev_emit e w w1 : ρ w w1 → ρ w (emit e w1).
Proof using ρ_trans ρ_out. apply ev_step. intros. apply ρ_out. Qed.
Lemma ev_updRoom ref f w w1 : ρ w w1 → ρ w (updRoom ref f w1).
Proof using ρ_trans ρ_heap. apply ev_step. intros. apply ρ_heap. Qed.
Lemma ev_set_answerListeners f w w1 : ρ w w1 → ρ w (set_answerListeners f w1).
Proof using ρ_trans ρ_answerListeners. apply ev_step. intros. apply ρ_answerListeners. Qed.
Lemma ev_set_sessionTokens f w w1 : ρ w w1 → ρ w (set_sessionTokens f w1).
Proof using ρ_trans ρ_sessionTokens. apply ev_step. intros. apply ρ_sessionTokens. Qed.
Lemma ev_clearTimeout h w w1 : ρ w w1 → ρ w (clearTimeout h w1).
Proof using ρ_trans ρ_pending. apply ev_step. intros. apply ρ_pending. Qed.
Lemma ev_setTimeout t w w1 : ρ w w1 → ρ w (setTimeout t w1).2.
Proof using ρ_trans ρ_pending ρ_nextId.
  intros H. simpl. eapply ρ_trans; [|apply ρ_nextId].
  eapply ρ_trans; [exact H|apply ρ_pending].
Qed.

Ltac sends :=
  intros;
  repeat (unfold toRoom, with_room, sendUserJoined, sendUserLeft, sendUserList,
          sendMessage, sendUserStatsToAll, sendEnteredGameRoom,
          sendLeftGameRoom, sendCurrentQuestionToOne, sendCurrentQuestionToAll,
          sendGameOverToAll, sendGameOverToOne, sendRoomListToUser;
          repeat case_match);
  first [assumption | by apply ev_emit].

Lemma ev_toRoom ref m w w1 : ρ w w1 → ρ w (toRoom ref m w1).
Proof using ρ_trans ρ_out. sends. Qed.
Lemma ev_sendUserJoined ref u w w1 : ρ w w1 → ρ w (sendUserJoined ref u w1).
Proof using ρ_trans ρ_out. sends. Qed.
Lemma ev_sendUserLeft ref u w w1 : ρ w w1 → ρ w (sendUserLeft ref u w1).
Proof using ρ_trans ρ_out. sends. Qed.
Lemma ev_sendUserList ref u w w1 : ρ w w1 → ρ w (sendUserList ref u w1).
Proof using ρ_trans ρ_out. sends. Qed.
Lemma ev_sendMessage ref u t w w1 : ρ w w1 → ρ w (sendMessage ref u t w1).
Proof using ρ_trans ρ_out. sends. Qed.
Lemma ev_sendUserStatsToAll ref w w1 : ρ w w1 → ρ w (sendUserStatsToAll ref w1).
Proof using ρ_trans ρ_out. sends. Qed.
Lemma ev_sendEnteredGameRoom ref u w w1 : ρ w w1 → ρ w (sendEnteredGameRoom ref u w1).
Proof using ρ_trans ρ_out. sends. Qed.
Lemma ev_sendLeftGameRoom u w w1 : ρ w w1 → ρ w (sendLeftGameRoom u w1).
Proof using ρ_trans ρ_out. sends. Qed.
Lemma ev_sendCurrentQuestionToOne ref u w w1 :
  ρ w w1 → ρ w (sendCurrentQuestionToOne ref u w1).
Proof using ρ_trans ρ_out. sends. Qed.
Lemma ev_sendCurrentQuestionToAll ref w w1 :
  ρ w w1 → ρ w (sendCurrentQuestionToAll ref w1).
Proof using ρ_trans ρ_out. sends. Qed.
Lemma ev_sendGameOverToAll ref w w1 : ρ w w1 → ρ w (sendGameOverToAll ref w1).
Proof using ρ_trans ρ_out. sends. Qed.
Lemma ev_sendGameOverToOne ref u w w1 : ρ w w1 → ρ w (sendGameOverToOne ref u w1).
Proof using ρ_trans ρ_out. sends. Qed.
Lemma ev_sendRoomListToUser u w w1 : ρ w w1 → ρ w (sendRoomListToUser u w1).
Proof using ρ_trans ρ_out. sends. Qed.

Lemma ev_publish ev ref w w1 : ρ w w1 → ρ w (publish ev ref w1).
Proof using ρ_trans ρ_out ρ_sessionTokens.
  intros H. unfold publish, with_room. case_match; [|done].
  destruct ev; try by apply ev_toRoom.
  apply ev_toRoom. by apply ev_set_sessionTokens.
Qed.

Lemma ev_setRoom u o w w1 : ρ w w1 → ρ w (setRoom u o w1).
Proof using ρ_trans ρ_out ρ_userRoom.
  intros H. unfold setRoom. case_decide; [done|].
  set (w2 := match userRoom w1 !! socket u with
             | Some c => with_room c w1 w1
                           (λ r, emit (SocketLeave (socket u) (room_id r)) w1)
             | None => w1
             end).
  assert (ρ w w2) as H1.
  { unfold w2. case_match; [|done]. unfold with_room. case_match; [|done].
    by apply ev_emit. }
  clearbody w2. destruct o as [n|].
  - unfold with_room. case_match.
    + apply ev_emit. eapply ρ_trans; [exact H1|apply ρ_userRoom].
    + eapply ρ_trans; [exact H1|apply ρ_userRoom].
  - eapply ρ_trans; [exact H1|apply ρ_userRoom].
Qed.

Lemma ev_deleteRoom ref w w1 : ρ w w1 → ρ w (deleteRoom ref w1).
Proof using ρ_trans ρ_out ρ_sessionTokens ρ_heap ρ_pending ρ_rooms_delete.
  intros H. unfold deleteRoom, with_room. case_match; [|done]. case_match; [|done].
  apply ev_publish. eapply ρ_trans; [|apply ρ_rooms_delete].
  apply ev_updRoom. by apply ev_clearTimeout.
Qed.

Lemma ev_RoomBase_removeUser ref u w w1 : ρ w w1 → ρ w (RoomBase_removeUser ref u w1).
Proof using ρ_trans ρ_out ρ_heap ρ_userRoom.
  intros H. unfold RoomBase_removeUser, with_room. case_match; [|done].
  apply ev_sendUserLeft. unfold leaveRoom. apply ev_setRoom. by apply ev_updRoom.
Qed.

Lemma ev_removeUser ref u w w1 : ρ w w1 → ρ w (removeUser ref u w1).
Proof using ρ_trans ρ_out ρ_sessionTokens ρ_heap ρ_pending ρ_rooms_delete
  ρ_userRoom ρ_answerListeners.
  intros H. unfold removeUser, with_room. case_match; [|done]. case_match.
  - unfold Lobby_removeUser. apply ev_emit. by apply ev_RoomBase_removeUser.
  - unfold TriviaRoom_removeUser, with_room.
    assert (ρ w (sendUserStatsToAll ref
                   (sendLeftGameRoom u
                      (set_answerListeners (delete (socket u))
                         (updRoom ref (set_userStats (delete (nickname u)))
                            (RoomBase_removeUser ref u w1)))))) as Htail.
    { apply ev_sendUserStatsToAll, ev_sendLeftGameRoom, ev_set_answerListeners,
        ev_updRoom. by apply ev_RoomBase_removeUser. }
    case_match; [|done]. case_match; [by apply ev_deleteRoom|by apply ev_publish].
Qed.

Lemma ev_RoomBase_addUser ref u w w1 : ρ w w1 → ρ w (RoomBase_addUser ref u w1).
Proof using ρ_trans ρ_out ρ_sessionTokens ρ_heap ρ_pending ρ_rooms_delete
  ρ_userRoom ρ_answerListeners.
  intros H. unfold RoomBase_addUser, with_room. case_match; [|done].
  case_match; [done|].
  apply ev_sendUserList, ev_sendUserJoined, ev_setRoom, ev_updRoom.
  case_match; [by apply ev_removeUser|done].
Qed.

Lemma ev_addUser ref u w w1 : ρ w w1 → ρ w (addUser ref u w1).
Proof using ρ_trans ρ_out ρ_sessionTokens ρ_heap ρ_pending ρ_rooms_delete
  ρ_userRoom ρ_answerListeners.
  intros H. unfold addUser, with_room. case_match; [|done]. case_match.
  - unfold Lobby_addUser. apply ev_emit, ev_sendRoomListToUser.
    by apply ev_RoomBase_addUser.
  - unfold TriviaRoom_addUser. apply ev_publish.
    assert (ρ w (sendUserStatsToAll ref
                   (sendEnteredGameRoom ref u
                      (set_answerListeners
                         (λ m, <[socket u:=default [] (m !! socket u) ++ [(ref, u)]]> m)
                         (updRoom ref (set_userStats <[nickname u:=newUserStatistics]>)
                            (RoomBase_addUser ref u w1)))))) as Htail.
    { apply ev_sendUserStatsToAll, ev_sendEnteredGameRoom, ev_set_answerListeners,
        ev_updRoom. by apply ev_RoomBase_addUser. }
    unfold with_room. case_match; [|done].
    case_match; [by apply ev_sendCurrentQuestionToOne|by apply ev_sendGameOverToOne].
Qed.

Lemma ev_answerListener ref u n w w1 : ρ w w1 → ρ w (answerListener ref u n w1).
Proof using ρ_trans ρ_heap.
  intros H. unfold answerListener, with_room. repeat case_match; try done.
  by apply ev_updRoom.
Qed.

Lemma ev_fireAnswer u n w w1 : ρ w w1 → ρ w (fireAnswer u n w1).
Proof using ρ_trans ρ_heap.
  unfold fireAnswer. generalize (default [] (answerListeners w1 !! socket u)).
  intros l. revert w1. induction l as [|x l IH]; intros w1 H; simpl; [done|].
  apply IH. by apply ev_answerListener.
Qed.

Lemma ev_gradeUser ref q u w w1 w2 :
  ρ w w1 → gradeUser ref q u w1 = Some w2 → ρ w w2.
Proof using ρ_trans ρ_heap ρ_out.
  intros H. unfold gradeUser, with_room. destruct (heap w1 !! ref) as [r|]; [|done].
  destruct (userStats r !! nickname u) as [s|]; [|done]. simpl.
  destruct (grade (canSkipQuestions (config r)) q s). intros [= <-].
  by apply ev_emit, ev_updRoom.
Qed.

Lemma ev_forEach_gradeUser ref q l w w1 w2 :
  ρ w w1 → forEach (gradeUser ref q) l w1 = Some w2 → ρ w w2.
Proof using ρ_trans ρ_heap ρ_out.
  revert w1. induction l as [|u l IH]; intros w1 H; simpl; [by intros [= <-]|].
  destruct (gradeUser ref q u w1) as [w'|] eqn:Hg; [|done]. simpl.
  apply IH. by eapply ev_gradeUser.
Qed.

Lemma ev_sendAnswerResultsAndResetSelections ref w w1 w2 :
  ρ w w1 → sendAnswerResultsAndResetSelections ref w1 = Some w2 → ρ w w2.
Proof using ρ_trans ρ_heap ρ_out.
  intros H. unfold sendAnswerResultsAndResetSelections, with_room.
  destruct (heap w1 !! ref) as [r|]; [|by intros [= <-]].
  destruct (currentQuestion r) as [q|]; [|by intros [= <-]].
  destruct (forEach (gradeUser ref q) (users r) w1) as [w'|] eqn:Hf; [|done].
  simpl. intros [= <-]. apply ev_updRoom, ev_sendUserStatsToAll.
  by eapply ev_forEach_gradeUser.
Qed.

Lemma ev_setNewQuestion ref q w w1 : ρ w w1 → ρ w (setNewQuestion ref q w1).
Proof using ρ_trans ρ_heap ρ_out.
  intros H. unfold setNewQuestion, with_room. apply ev_sendCurrentQuestionToAll.
  case_match; [apply ev_toRoom|]; repeat apply ev_updRoom; done.
Qed.

Lemma ev_perform ref p w w1 : ρ w w1 → ρ w (perform ref p w1).
Proof using ρ_trans ρ_heap ρ_out ρ_pending ρ_nextId.
  intros H. destruct p; simpl.
  - unfold axiosGet. by apply ev_setTimeout, ev_emit.
  - unfold onComplete.
    match goal with
    | |- context [setTimeout ?t ?w'] =>
        change (ρ w (updRoom ref (set_timerId (Z.of_nat (setTimeout t w').1))
                       (setTimeout t w').2))
    end.
    apply ev_updRoom, ev_setTimeout, ev_setNewQuestion. by apply ev_updRoom.
  - unfold onError. by apply ev_setTimeout, ev_emit.
Qed.

Lemma ev_requestNewQuestion ref w w1 : ρ w w1 → ρ w (requestNewQuestion ref w1).
Proof using ρ_trans ρ_heap ρ_out ρ_pending ρ_nextId.
  intros H. unfold requestNewQuestion, with_room. case_match; [|done].
  by apply ev_perform.
Qed.

Lemma ev_settle ref k res draws w w1 : ρ w w1 → ρ w (settle ref k res draws w1).
Proof using ρ_trans ρ_heap ρ_out ρ_pending ρ_nextId ρ_sessionTokens.
  intros H. unfold settle, with_room. case_match; [|done]. case_match.
  by apply ev_perform, ev_set_sessionTokens.
Qed.

Lemma ev_timer ref w w1 w2 : ρ w w1 → timer ref w1 = Some w2 → ρ w w2.
Proof using ρ_trans ρ_heap ρ_out ρ_pending ρ_nextId ρ_sessionTokens ρ_rooms_delete.
  intros H. unfold timer, with_room.
  destruct (heap w1 !! ref) as [r|]; [|by intros [= <-]].
  destruct (secondsLeft r =? 0).
  - match goal with
    | |- context [sendAnswerResultsAndResetSelections ref ?w0] =>
        assert (ρ w w0) as Hpre by (by apply ev_toRoom; repeat apply ev_updRoom);
        destruct (sendAnswerResultsAndResetSelections ref w0) as [w3|] eqn:Hs;
        [|done]
    end.
    eapply ev_sendAnswerResultsAndResetSelections in Hs; [|exact Hpre]. simpl.
    destruct (heap w3 !! ref) as [r3|]; [|by intros [= <-]].
    destruct (negb (isGameOver r3)).
    + intros [= <-]. by apply ev_setTimeout.
    + destruct (deleteOnLastUser r3); intros [= <-].
      * by apply ev_deleteRoom, ev_sendGameOverToAll.
      * by apply ev_sendGameOverToAll.
  - match goal with
    | |- context [setTimeout ?t ?w0] =>
        change (Some (updRoom ref (set_timerId (Z.of_nat (setTimeout t w0).1))
                         (setTimeout t w0).2) = Some w2 → ρ w w2)
    end.
    intros [= <-]. apply ev_updRoom, ev_setTimeout.
    case_match; [apply ev_toRoom|]; by apply ev_updRoom.
Qed.

Lemma ev_take h t w w1 w2 : ρ w w1 → take h w1 = Some (t, w2) → ρ w w2.
Proof using ρ_trans ρ_pending.
  intros H [_ ->]%take_spec. eapply ρ_trans; [exact H|apply ρ_pending].
Qed.
End evolves.

(** ** The listing of the rooms *)

Lemma get_key_cons id k v m :
  get_key id ((k, v) :: m) = if decide (k = id) then Some v else get_key id m.
Proof.
  unfold get_key. simpl. case_decide.
  - by rewrite bool_decide_eq_true_2.
  - by rewrite bool_decide_eq_false_2.
Qed.

Lemma get_key_None id m : get_key id m = None ↔ id ∉ m.*1.
Proof.
  induction m as [|[k v] m IH].
  - split; [|done]. intros _ ?%elem_of_nil. done.
  - rewrite get_key_cons, fmap_cons, not_elem_of_cons. simpl. case_decide as Hk.
    + split; [done|]. intros [? _]. congruence.
    + rewrite IH. split; [|tauto]. intros ?. split; [congruence|done].
Qed.

Lemma get_key_app_None id m v :
  get_key id m = None → get_key id (m ++ [(id, v)]) = Some v.
Proof.
  induction m as [|[k x] m IH]; simpl.
  - intros _. by rewrite get_key_cons, decide_True.
  - rewrite !get_key_cons. case_decide; [done|]. apply IH.
Qed.

Lemma get_key_set_key_eq id v m : get_key id (set_key id v m) = Some v.
Proof.
  unfold set_key, has_key. case_bool_decide as Hh.
  - induction m as [|[k x] m IH]; [by apply elem_of_nil in Hh|].
    rewrite fmap_cons. simpl. destruct (decide (k = id)) as [->|Hne].
    + by rewrite get_key_cons, decide_True.
    + rewrite get_key_cons, decide_False by done. apply IH.
      rewrite fmap_cons in Hh. apply elem_of_cons in Hh as [?|?]; [|done].
      simpl in *. congruence.
  - apply get_key_app_None. by apply get_key_None.
Qed.

Lemma get_key_set_key_ne id id' v m :
  id' ≠ id → get_key id' (set_key id v m) = get_key id' m.
Proof.
  intros Hne. unfold set_key. destruct (has_key id m).
  - induction m as [|[k x] m IH]; [done|].
    rewrite fmap_cons. simpl. destruct (decide (k = id)) as [->|Hk].
    + rewrite !get_key_cons, !decide_False by done. apply IH.
    + rewrite !get_key_cons. case_decide; [done|]. apply IH.
  - induction m as [|[k x] m IH]; simpl.
    + by rewrite get_key_cons, decide_False by done.
    + rewrite !get_key_cons. case_decide; [done|]. apply IH.
Qed.

Lemma get_key_delete_key id id' m :
  get_key id' (delete_key id m) = if decide (id' = id) then None else get_key id' m.
Proof.
  unfold delete_key. induction m as [|[k x] m IH].
  - by case_decide.
  - destruct (decide (k = id)) as [->|Hk].
    + rewrite filter_cons_False by (simpl; by intros ?). rewrite IH, get_key_cons.
      case_decide as Hd; [done|]. by rewrite decide_False by done.
    + rewrite filter_cons_True by done. rewrite !get_key_cons, IH.
      case_decide as Hk'; [|done]. rewrite decide_False; [done|congruence].
Qed.

Lemma ls_refl w : listing_shrinks w w.
Proof. done. Qed.
Lemma ls_trans w1 w2 w3 :
  listing_shrinks w1 w2 → listing_shrinks w2 w3 → listing_shrinks w1 w3.
Proof. intros (? & ?) (? & ?). split; [congruence|eauto]. Qed.
Lemma ls_rooms_delete id w : listing_shrinks w (set_rooms (delete_key id) w).
Proof.
  split; [done|]. intros id' ref. unfold getRoomById. simpl.
  rewrite get_key_delete_key. by case_decide.
Qed.

Ltac ls :=
  intros;
  first [ apply ls_refl | eapply ls_trans; eassumption | apply ls_rooms_delete
        | split; [reflexivity|intros ? ? Hkey; exact Hkey] ].

Lemma sr_trans ref a b c : same_room ref a b → same_room ref b c → same_room ref a c.
Proof. intros (? & ?) (? & ?). split; congruence. Qed.

Ltac sr :=
  intros;
  first [ by split | eapply sr_trans; eassumption | apply frame_refl; by split
        | tauto ].

Lemma directory_inv_evolves w w' :
  listing_shrinks w w' → frame same_room (λ _, False) w w' →
  directory_inv w → directory_inv w'.
Proof.
  intros (Hl & Hsub) (Hh & _) ((rl & Hrl & Hcl & Hil) & Hd).
  assert (∀ ref r, heap w !! ref = Some r →
            ∃ r', heap w' !! ref = Some r' ∧ cls r' = cls r ∧ room_id r' = room_id r)
    as Hkeep.
  { intros ref r Hr. specialize (Hh ref). rewrite Hr in Hh.
    inversion Hh as [x r' HR Hx Hr'|]; subst. destruct HR. eauto. }
  split.
  - destruct (Hkeep _ _ Hrl) as (r' & Hr' & Hc' & Hi'). exists r'.
    rewrite Hl. split; [done|]. split; congruence.
  - intros id ref Hg. destruct (Hd _ _ (Hsub _ _ Hg)) as (r & Hr & Hc & Hi).
    destruct (Hkeep _ _ Hr) as (r' & Hr' & Hc' & Hi'). exists r'.
    split; [done|]. split; congruence.
Qed.

Lemma directory_inv_makeNewRoom id nm d c w :
  game_inv w → directory_inv w →
  directory_inv (makeNewRoom id nm d c w).2
  ∧ getRoomById id (makeNewRoom id nm d c w).2 = Some (makeNewRoom id nm d c w).1.
Proof.
  intros (_ & J2 & _) HD. unfold makeNewRoom. simpl.
  set (c' := default defaultConfiguration c).
  set (ref := nextRoom w).
  set (r0 := newTriviaRoom id nm d c').
  set (w1 := set_nextRoom (S ref) (set_heap <[ref:=r0]> w)).
  assert (Hfresh : heap w !! ref = None).
  { destruct (heap w !! ref) eqn:Hr; [|done]. apply J2 in Hr. unfold ref in Hr. lia. }
  assert (directory_inv w1) as HD1.
  { destruct HD as ((rl & Hrl & Hcl) & Hd). split.
    - exists rl. split; [|done]. unfold w1. simpl. rewrite lookup_insert_ne; [done|].
      intros Heq. rewrite <- Heq in Hrl. congruence.
    - intros id' ref' Hg. destruct (Hd _ _ Hg) as (r & Hr & Hc). exists r.
      split; [|done]. unfold w1. simpl. rewrite lookup_insert_ne; [done|].
      intros Heq. rewrite <- Heq in Hr. congruence. }
  set (w2 := requestNewQuestion ref w1).
  assert (directory_inv w2) as HD2.
  { eapply directory_inv_evolves; [| |exact HD1].
    - apply ev_requestNewQuestion; ls.
    - apply fr_requestNewQuestion; sr. }
  assert (∃ r2, heap w2 !! ref = Some r2 ∧ cls r2 = TriviaClass ∧ room_id r2 = id)
    as (r2 & Hr2 & Hc2 & Hi2).
  { assert (frame same_room (λ _, False) w1 w2) as (Hh & _)
      by (apply fr_requestNewQuestion; sr).
    specialize (Hh ref). unfold w1 in Hh at 1. simpl in Hh.
    rewrite lookup_insert_eq in Hh.
    inversion Hh as [x r' HR Hx Hr'|]; subst. destruct HR. eauto. }
  set (w3 := publish NEW_ROOM ref (set_rooms (set_key id ref) w2)).
  assert (heap w3 = heap w2) as Hh3 by (unfold w3; by rewrite heap_publish).
  assert (lobby w3 = lobby w2) as Hl3
    by (unfold w3; by rewrite (un_publish lobby)).
  assert (rooms w3 = set_key id ref (rooms w2)) as Hr3
    by (unfold w3; by rewrite (un_publish rooms)).
  split.
  - destruct HD2 as ((rl & Hrl & Hcl) & Hd). split.
    + exists rl. by rewrite Hh3, Hl3.
    + intros id' ref'. unfold getRoomById. rewrite Hh3, Hr3.
      destruct (decide (id' = id)) as [->|Hne].
      * rewrite get_key_set_key_eq. intros [= <-]. eauto.
      * rewrite get_key_set_key_ne by done. apply Hd.
  - unfold getRoomById. rewrite Hr3. apply get_key_set_key_eq.
Qed.

Lemma directory_inv_step w ev w' :
  game_inv w → directory_inv w → step w ev = Some w' → directory_inv w'.
Proof.
  intros HJ HD.
  destruct ev as [u|u id|u|u info newId|u text|u n|u|h|h res draws];
    unfold step.
  - intros [= <-]. eapply directory_inv_evolves; [| |exact HD].
    + apply ev_addUser; ls.
    + apply fr_addUser; sr.
  - destruct (getRoomById id w); intros [= <-]; [|done].
    eapply directory_inv_evolves; [| |exact HD].
    + apply ev_addUser; ls.
    + apply fr_addUser; sr.
  - destruct (userRoom w !! socket u); intros [= <-]; [|done].
    eapply directory_inv_evolves; [| |exact HD].
    + apply ev_addUser; ls.
    + apply fr_addUser; sr.
  - match goal with
    | |- context [makeNewRoom ?a ?b ?c ?d w] =>
        pose proof (directory_inv_makeNewRoom a b c d w HJ HD) as (HD1 & _);
        destruct (makeNewRoom a b c d w) as [ref w1] eqn:Hm
    end.
    intros [= <-]. eapply directory_inv_evolves; [| |exact HD1].
    + apply ev_addUser; ls.
    + apply fr_addUser; sr.
  - destruct (userRoom w !! socket u); [|by intros [= <-]].
    case_decide; intros [= <-]; [done|].
    eapply directory_inv_evolves; [| |exact HD].
    + apply ev_sendMessage; ls.
    + apply fr_sendMessage; sr.
  - intros [= <-]. eapply directory_inv_evolves; [| |exact HD].
    + apply ev_fireAnswer; ls.
    + apply fr_fireAnswer; sr.
  - destruct (userRoom w !! socket u); intros [= <-]; [|done].
    eapply directory_inv_evolves; [| |exact HD].
    + apply ev_removeUser; ls.
    + apply fr_removeUser; sr.
  - destruct (take h w) as [[t w1]|] eqn:Ht; [|by intros [= <-]].
    assert (directory_inv w1) as HD1.
    { eapply directory_inv_evolves; [| |exact HD].
      - eapply ev_take; [| |apply ls_refl|exact Ht]; ls.
      - apply take_spec in Ht as [_ ->]. apply frame_filter. done. }
    destruct t as [ref|ref|ref k]; [| |by intros [= <-]].
    + intros Hw'. eapply directory_inv_evolves; [| |exact HD1].
      * eapply ev_timer; [..|apply ls_refl|exact Hw']; ls.
      * eapply fr_timer; [..|apply frame_refl|exact Hw']; sr.
    + intros [= <-]. eapply directory_inv_evolves; [| |exact HD1].
      * apply ev_requestNewQuestion; ls.
      * apply fr_requestNewQuestion; sr.
  - destruct (take h w) as [[t w1]|] eqn:Ht; [|by intros [= <-]].
    assert (directory_inv w1) as HD1.
    { eapply directory_inv_evolves; [| |exact HD].
      - eapply ev_take; [| |apply ls_refl|exact Ht]; ls.
      - apply take_spec in Ht as [_ ->]. apply frame_filter. done. }
    destruct t as [ref|ref|ref k]; [by intros [= <-]..|].
    intros [= <-]. eapply directory_inv_evolves; [| |exact HD1].
    + apply ev_settle; ls.
    + apply fr_settle; sr.
Qed.
Lemma directory_inv_steps evs w w' :
  game_inv w → directory_inv w → steps w evs = Some w' → directory_inv w'.
Proof.
  revert w. induction evs as [|ev evs IH]; intros w HJ HD; simpl.
  - by intros [= <-].
  - destruct (step w ev) as [w1|] eqn:Hs; [|done]. simpl.
    apply IH; [by eapply game_inv_step|by eapply directory_inv_step].
Qed.

Lemma directory_inv_boot cats id :
  directory_inv (boot cats id) ∧ is_Some (getRoomById id (boot cats id)).
Proof.
  unfold boot.
  assert (directory_inv (emptyWorld cats)) as HD0.
  { split; [by exists theLobby|]. intros id' ref'. done. }
  pose proof (directory_inv_makeNewRoom id "The Any Room" false None (emptyWorld cats)
                (game_inv_emptyWorld cats) HD0) as (HD & Hg).
  destruct (makeNewRoom id "The Any Room" false None (emptyWorld cats))
    as [ref w] eqn:Hm. simpl in *.
  split; [|exists ref; exact Hg].
  eapply directory_inv_evolves; [| |exact HD].
  - done.
  - apply frame_updRoom; [done|]. intros r. by destruct r.
Qed.

Lemma directory_inv_reachable w : reachable w → directory_inv w.
Proof.
  intros (cats & id & evs & Hs).
  eapply directory_inv_steps; [apply game_inv_boot|apply directory_inv_boot|done].
Qed.

(** ** The handlers of user.js on a running server *)

(** An accepted nickname: the user object gets the name, ['good nickname']
    is sent, and the user enters the room asked for before, if it is
    listed, or else the lobby; the request is forgotten. *)
Lemma setNickname_accepted user nick sv :
  nickname user = "" → isNicknameValid nick = true →
  isNicknameTaken nick sv = false →
  setNickname user nick sv
  = mkServer
      (addUser
         (match pendingJoinRoomRequests sv !! socket user with
          | Some id => default (lobby (world sv)) (getRoomById id (world sv))
          | None => lobby (world sv)
          end)
         (mkUser (socket user) nick) (world sv))
      ((λ u, if decide (u = user) then mkUser (socket user) nick else u)
         <$> allUsers sv)
      (delete (socket user) (pendingJoinRoomRequests sv))
      (told sv ++ [(length (out (world sv)), socket user, GoodNickname)]).
Proof.
  intros Hn Hv Ht. unfold setNickname. rewrite Hn, Hv, Ht. simpl.
  destruct (pendingJoinRoomRequests sv !! socket user) as [id|] eqn:Hp.
  - by destruct (getRoomById id (world sv)).
  - unfold set_world. simpl. by rewrite delete_id.
Qed.




(** X3. On a running server the members of a room are exactly the connected
    users whose room it is, each of them is listed once, and they have
    nicknames that differ. *)
Theorem rooms_and_users_agree (sv : Server) (ref : nat) (r : Room) :
  live sv → heap (world sv) !! ref = Some r →
  NoDup (users r)
  ∧ NoDup (nickname <$> users r)
  ∧ ∀ u, u ∈ users r
      ↔ u ∈ allUsers sv ∧ userRoom (world sv) !! socket u = Some ref.
Proof.
  intros (HU & HM & _)%live_inv Hr. pose proof HM as (M1 & M2).
  destruct (M1 _ _ Hr) as (Hnd & Hm & _).
  split; [done|]. split.
  - apply NoDup_fmap_2_strong; [|done]. intros u v Hu Hv Heq.
    destruct (Hm u Hu) as (? & ? & _). destruct (Hm v Hv) as (? & _).
    by eapply names_nickname_inj.
  - intros u. split.
    + intros Hu. destruct (Hm u Hu) as (? & _ & ?). done.
    + intros [Hu Hroom].
      destruct (members_inv_member _ _ _ _ HU HM Hu Hroom) as (r' & Hr' & Hin).
      congruence.
Qed.

(** X5. On a running server a disconnection of a user takes that user out of
    [allUsers] and out of the room the user was in, forgets the user's
    remembered request, and removes nobody else from any room. *)
Theorem disconnect_removes_only_that_user (sv : Server) (s : nat) (user : User) :
  live sv → findUser s sv = Some user →
  ∃ sv', receive sv (FromClient s OnDisconnect) = Some sv'
    ∧ allUsers sv' = filter (λ u, u ≠ user) (allUsers sv)
    ∧ userRoom (world sv') !! s = None
    ∧ pendingJoinRoomRequests sv' !! s = None
    ∧ ∀ ref r, heap (world sv) !! ref = Some r →
        ∃ r', heap (world sv') !! ref = Some r'
          ∧ users r' = filter (λ u, u ≠ user) (users r).
Proof.
  intros (HU & HM & _)%live_inv Hf. simpl. rewrite Hf.
  apply findUser_spec in Hf as [Hin <-].
  exists (disconnect user sv). split; [done|].
  split; [by apply disconnect_users|]. rewrite disconnect_world.
  split; [|split].
  - destruct (userRoom (world sv) !! socket user) as [ref|] eqn:Hroom; [|done].
    destruct (members_inv_removeUser _ _ _ _ HU HM Hin Hroom) as (_ & -> & _).
    apply lookup_delete_eq.
  - unfold disconnect. simpl.
    destruct (userRoom (world sv) !! socket user); simpl; apply lookup_delete_eq.
  - intros ref r Hr.
    destruct (userRoom (world sv) !! socket user) as [ref0|] eqn:Hroom.
    + destruct (members_inv_removeUser _ _ _ _ HU HM Hin Hroom) as (_ & _ & Heff).
      destruct (Heff _ _ Hr) as (r' & ? & ? & _). eauto.
    + exists r. split; [done|]. symmetry. apply filter_ne_notin. intros Hu.
      destruct HM as (M1 & _). destruct (M1 _ _ Hr) as (_ & Hm & _).
      destruct (Hm user Hu) as (_ & _ & ?). congruence.
Qed.

(** X6. On a running server, ['join room'] with a listed identifier from a
    user who has a nickname makes that room the user's room: a user who is
    not yet a member becomes its last member and leaves the room the user
    was in; every other member of every room stays. *)
Theorem join_room_moves_user (sv : Server) (s : nat) (user : User)
    (id : string) (ref : nat) :
  live sv → findUser s sv = Some user → nickname user ≠ "" →
  getRoomById id (world sv) = Some ref →
  ∃ sv' r r', receive sv (FromClient s (OnJoinRoom id)) = Some sv'
    ∧ allUsers sv' = allUsers sv
    ∧ heap (world sv) !! ref = Some r ∧ room_id r = id
    ∧ heap (world sv') !! ref = Some r'
    ∧ userRoom (world sv') !! s = Some ref
    ∧ users r' = (if decide (user ∈ users r) then users r else users r ++ [user])
    ∧ ∀ ref' r0, ref' ≠ ref → heap (world sv) !! ref' = Some r0 →
        ∃ r1, heap (world sv') !! ref' = Some r1
          ∧ users r1 = filter (λ u, u ≠ user) (users r0).
Proof.
  intros (HU & HM & HR)%live_inv Hf Hn Hg. simpl. rewrite Hf.
  apply findUser_spec in Hf as [Hin <-].
  rewrite decide_False by done. unfold turn. simpl. rewrite Hg. simpl.
  destruct (directory_inv_reachable _ HR) as (_ & Hd).
  destruct (Hd _ _ Hg) as (r & Hr & _ & Hid).
  destruct (members_inv_addUser _ _ _ _ _ HU HM Hin Hn Hr) as (_ & Hur & Heff).
  destruct (Heff _ _ Hr) as (r' & Hr' & _ & Hus').
  eexists _, r, r'. split; [done|]. simpl.
  split; [done|]. split; [done|]. split; [done|]. split; [done|].
  split; [by rewrite Hur, lookup_insert_eq|]. split.
  - rewrite Hus'. destruct (isUserInRoom r user) eqn:Hmem.
    + apply isUserInRoom_spec in Hmem. by rewrite decide_True.
    + rewrite decide_True by done. rewrite decide_False; [done|].
      intros Hx%isUserInRoom_spec. congruence.
  - intros ref' r0 Hne Hr0. destruct (Heff _ _ Hr0) as (r1 & Hr1 & _ & Hus1).
    exists r1. split; [done|]. rewrite Hus1.
    destruct (isUserInRoom r user) eqn:Hmem; [|by rewrite decide_False].
    apply isUserInRoom_spec in Hmem. symmetry. apply filter_ne_notin. intros Hu.
    destruct HM as (M1 & _).
    destruct (M1 _ _ Hr) as (_ & Hm & _). destruct (Hm user Hmem) as (_ & _ & Ha).
    destruct (M1 _ _ Hr0) as (_ & Hm0 & _). destruct (Hm0 user Hu) as (_ & _ & Hb).
    congruence.
Qed.



Lemma live_serverOf evs sv :
  serve (listening [] []) evs = Some sv → live sv.
Proof. intros H. by exists [], [], evs. Qed.

Lemma rooms_and_users_agree_witness :
  NoDup (users (roomOf (world (serverOf arrival)) 0))
  ∧ NoDup (nickname <$> users (roomOf (world (serverOf arrival)) 0))
  ∧ ∀ u, u ∈ users (roomOf (world (serverOf arrival)) 0)
      ↔ u ∈ allUsers (serverOf arrival)
        ∧ userRoom (world (serverOf arrival)) !! socket u = Some 0%nat.
Proof.
  apply (rooms_and_users_agree (serverOf arrival) 0
           (roomOf (world (serverOf arrival)) 0)).
  - apply (live_serverOf arrival). vm_compute. reflexivity.
  - vm_compute. reflexivity.
Defined.


Lemma disconnect_removes_only_that_user_witness :
  ∃ sv', receive (serverOf arrival) (FromClient 1 OnDisconnect) = Some sv'
    ∧ allUsers sv' = filter (λ u, u ≠ alice) (allUsers (serverOf arrival))
    ∧ userRoom (world sv') !! 1%nat = None
    ∧ pendingJoinRoomRequests sv' !! 1%nat = None
    ∧ ∀ ref r, heap (world (serverOf arrival)) !! ref = Some r →
        ∃ r', heap (world sv') !! ref = Some r'
          ∧ users r' = filter (λ u, u ≠ alice) (users r).
Proof.
  apply (disconnect_removes_only_that_user (serverOf arrival) 1 alice).
  - apply (live_serverOf arrival). vm_compute. reflexivity.
  - vm_compute. reflexivity.
Defined.

Lemma join_room_moves_user_witness :
  ∃ sv' r r',
    receive (serverOf arrival) (FromClient 1 (OnJoinRoom "aaaaa")) = Some sv'
    ∧ allUsers sv' = allUsers (serverOf arrival)
    ∧ heap (world (serverOf arrival)) !! 1%nat = Some r ∧ room_id r = "aaaaa"
    ∧ heap (world sv') !! 1%nat = Some r'
    ∧ userRoom (world sv') !! 1%nat = Some 1%nat
    ∧ users r' = (if decide (alice ∈ users r) then users r else users r ++ [alice])
    ∧ ∀ ref' r0, ref' ≠ 1%nat →
        heap (world (serverOf arrival)) !! ref' = Some r0 →
        ∃ r1, heap (world sv') !! ref' = Some r1
          ∧ users r1 = filter (λ u, u ≠ alice) (users r0).
Proof.
  apply (join_room_moves_user (serverOf arrival) 1 alice "aaaaa" 1).
  - apply (live_serverOf arrival). vm_compute. reflexivity.
  - vm_compute. reflexivity.
  - discriminate.
  - vm_compute. reflexivity.
Defined.



(** The run of the example: Bob, who asked for 'The Any Room' before he
    had a nickname, is its only member, and Alice is in the lobby. *)
Example straight_into_the_room :
  let sv := serverOf straightIn in
  allUsers sv = [alice; bob]
  ∧ users (roomOf (world sv) 0) = [alice]
  ∧ users (roomOf (world sv) 1) = [bob]
  ∧ pendingJoinRoomRequests sv = ∅
  ∧ (told sv).*2 = [NeedNickname; GoodNickname; NeedNickname; GoodNickname].
Proof. vm_compute. repeat split; reflexivity. Qed.

(** ** The question source: a fetch from its first request to its callback *)

Lemma run_final id url script tokens sent :
  ∃ outcome,
    run id (Request url AwaitFinal) script tokens sent
    = (sent ++ [url], tokens, outcome)
    ∧ (script ≠ [] → is_Some outcome) ∧ (script = [] → outcome = None).
Proof.
  destruct script as [|[res draws] script]; simpl.
  - exists None. split; [done|]. split; [by intros ?|done].
  - destruct (makeQuestionRequest res draws) as [q|e].
    + rewrite run_OnComplete. eexists. split; [done|]. split; [by eauto|done].
    + rewrite run_OnError. eexists. split; [done|]. split; [by eauto|done].
Qed.

Lemma questionUrl_not_token c tail :
  isTokenRequest (questionUrl c +:+ tail) = false
  ∧ isQuestionRequest (questionUrl c +:+ tail) = true.
Proof. unfold questionUrl. by destruct (hasDifficulty c), (hasCategory c). Qed.

Lemma sessionTokenUrl_token id tokens :
  isTokenRequest (sessionTokenUrl id tokens) = true
  ∧ isQuestionRequest (sessionTokenUrl id tokens) = false.
Proof. unfold sessionTokenUrl. by destruct (tokens !! id). Qed.

(** X9. The first fetch of a room: with no token cached, the fetch asks for
    a new token and sends nothing else before the answer.  A token that
    arrives is cached and one question request is sent with it, whose
    outcome, a question or an error, goes to the caller.  If the token
    request fails, its error goes to the caller, no question request is sent
    and nothing is cached. *)
Theorem first_fetch_requests_token (id : string) (c : RoomConfiguration)
    (sessionTokens : gmap string string) :
  sessionTokens !! id = None →
  let url := questionUrl c in
  let request := "https://opentdb.com/api_token.php?command=request" in
  let exchange script :=
    run id (getTriviaQuestionAsync id c sessionTokens) script sessionTokens [] in
  exchange [] = ([request], sessionTokens, None)
  ∧ (∀ data draws,
       exchange [(Resolved data, draws)]
       = ([request; url +:+ "&token=" +:+ token data],
          <[id := token data]> sessionTokens, None))
  ∧ (∀ data draws res2 draws2 rest,
       exchange ((Resolved data, draws) :: (res2, draws2) :: rest)
       = ([request; url +:+ "&token=" +:+ token data],
          <[id := token data]> sessionTokens,
          Some (makeQuestionRequest res2 draws2)))
  ∧ (∀ e draws rest,
       exchange ((Rejected e, draws) :: rest)
       = ([request], sessionTokens, Some (inr e))).
Proof.
  intros Hnone url request exchange. subst exchange.
  unfold getTriviaQuestionAsync, getTokenThenRequestQuestion, sessionTokenUrl.
  rewrite Hnone. fold url. fold request.
  split; [done|]. split; [done|]. split.
  - intros data draws res2 draws2 rest. simpl.
    destruct (makeQuestionRequest res2 draws2);
      [apply run_OnComplete|apply run_OnError].
  - intros e draws rest. simpl. apply run_OnError.
Qed.

Lemma first_fetch_requests_token_witness :
  let id := "BBBBB" in
  let c := defaultConfiguration in
  let sessionTokens := (∅ : gmap string string) in
  let url := questionUrl c in
  let request := "https://opentdb.com/api_token.php?command=request" in
  let exchange script :=
    run id (getTriviaQuestionAsync id c sessionTokens) script sessionTokens [] in
  exchange [] = ([request], sessionTokens, None)
  ∧ (∀ data draws,
       exchange [(Resolved data, draws)]
       = ([request; url +:+ "&token=" +:+ token data],
          <[id := token data]> sessionTokens, None))
  ∧ (∀ data draws res2 draws2 rest,
       exchange ((Resolved data, draws) :: (res2, draws2) :: rest)
       = ([request; url +:+ "&token=" +:+ token data],
          <[id := token data]> sessionTokens,
          Some (makeQuestionRequest res2 draws2)))
  ∧ (∀ e draws rest,
       exchange ((Rejected e, draws) :: rest)
       = ([request], sessionTokens, Some (inr e))).
Proof.
  apply (first_fetch_requests_token "BBBBB" defaultConfiguration ∅).
  reflexivity.
Defined.

(** X10. Whatever the supplier answers, a fetch sends at most three
    requests, of which at most one asks for a token and at most two for a
    question; it has called back once three requests have settled, and as
    long as it has not, exactly one request is waiting for its answer. *)
Theorem fetch_is_bounded (id : string) (c : RoomConfiguration)
    (sessionTokens : gmap string string)
    (script : list (HttpResult * list nat)) :
  ∃ sent tokens outcome,
    run id (getTriviaQuestionAsync id c sessionTokens) script sessionTokens []
    = (sent, tokens, outcome)
    ∧ (length sent ≤ 3)%nat
    ∧ (length (filter (λ u, isTokenRequest u = true) sent) ≤ 1)%nat
    ∧ (length (filter (λ u, isQuestionRequest u = true) sent) ≤ 2)%nat
    ∧ (3 ≤ length script → is_Some outcome)%nat
    ∧ (outcome = None → length sent = S (length script)).
Proof.
  assert (Hq : ∀ tail, filter (λ u, isTokenRequest u = true) [questionUrl c +:+ tail] = []
                     ∧ filter (λ u, isQuestionRequest u = true) [questionUrl c +:+ tail]
                       = [questionUrl c +:+ tail]).
  { intros tail. destruct (questionUrl_not_token c tail) as (H1 & H2).
    rewrite filter_cons_False, filter_cons_True by (rewrite ?H1, ?H2; done). done. }
  assert (Ht : filter (λ u, isTokenRequest u = true) [sessionTokenUrl id sessionTokens]
               = [sessionTokenUrl id sessionTokens]
             ∧ filter (λ u, isQuestionRequest u = true)
                 [sessionTokenUrl id sessionTokens] = []).
  { destruct (sessionTokenUrl_token id sessionTokens) as (H1 & H2).
    rewrite filter_cons_True, filter_cons_False by (rewrite ?H1, ?H2; done). done. }
  assert (Htoken : ∀ script sent,
    ∃ rest tokens outcome,
      run id (getTokenThenRequestQuestion id (questionUrl c) sessionTokens)
        script sessionTokens sent
      = (sent ++ sessionTokenUrl id sessionTokens :: rest, tokens, outcome)
      ∧ (rest = [] ∨ ∃ tail, rest = [questionUrl c +:+ tail])
      ∧ (2 ≤ length script → is_Some outcome)%nat
      ∧ (outcome = None → length rest = length script)).
  { intros script' sent. unfold getTokenThenRequestQuestion.
    destruct script' as [|[res draws] script']; simpl.
    - eexists [], _, _. split; [done|]. split; [by left|]. split; [lia|done].
    - destruct res as [data|e]; simpl.
      + destruct (run_final id (questionUrl c +:+ "&token=" +:+ token data)
                    script' (<[id:=token data]> sessionTokens)
                    (sent ++ [sessionTokenUrl id sessionTokens]))
          as (outcome & -> & Hsome & Hnone).
        eexists [_], _, outcome. rewrite <- app_assoc. split; [done|].
        split; [right; eauto|]. split.
        * intros Hl. apply Hsome. destruct script'; simpl in *; [lia|done].
        * intros Ho. destruct script'; [done|].
          assert (is_Some outcome) as [? ?] by by apply Hsome. congruence.
      + rewrite run_OnError. eexists [], _, _. split; [done|].
        split; [by left|]. split; [eauto|done]. }
  unfold getTriviaQuestionAsync. destruct (sessionTokens !! id) as [t|] eqn:Htok.
  - destruct script as [|[res draws] script]; simpl.
    + eexists _, _, _. split; [done|]. destruct (Hq ("&token=" +:+ t)) as (-> & ->).
      simpl. repeat split; try lia; try done.
    + destruct (makeQuestionRequest res draws) as [q|e].
      * rewrite run_OnComplete. eexists _, _, _. split; [done|].
        destruct (Hq ("&token=" +:+ t)) as (-> & ->).
        simpl. repeat split; try lia; try done; eauto.
      * case_decide.
        -- destruct (Htoken script [questionUrl c +:+ "&token=" +:+ t])
             as (rest & tokens & outcome & -> & Hrest & Hsome & Hnone).
           eexists _, _, _. split; [done|].
           rewrite !filter_app.
           destruct (Hq ("&token=" +:+ t)) as (-> & ->).
           destruct (sessionTokenUrl_token id sessionTokens) as (H1 & H2).
           rewrite (filter_cons_True (λ u, isTokenRequest u = true)) by done.
           rewrite (filter_cons_False (λ u, isQuestionRequest u = true))
             by (rewrite H2; done).
           destruct Hrest as [-> | (tail & ->)].
           ++ simpl. repeat split; try lia.
              ** intros Hl. apply Hsome. lia.
              ** intros Ho. specialize (Hnone Ho). simpl in Hnone. lia.
           ++ destruct (Hq tail) as (-> & ->). simpl. repeat split; try lia.
              ** intros Hl. apply Hsome. lia.
              ** intros Ho. specialize (Hnone Ho). simpl in Hnone. lia.
        -- rewrite run_OnError. eexists _, _, _. split; [done|].
           destruct (Hq ("&token=" +:+ t)) as (-> & ->).
           simpl. repeat split; try lia; try done; eauto.
  - destruct (Htoken script []) as (rest & tokens & outcome & -> & Hrest & Hsome & Hnone).
    eexists _, _, _. split; [done|]. simpl.
    destruct (sessionTokenUrl_token id sessionTokens) as (H1 & H2).
    rewrite (filter_cons_True (λ u, isTokenRequest u = true)) by done.
    rewrite (filter_cons_False (λ u, isQuestionRequest u = true))
      by (rewrite H2; done).
    destruct Hrest as [-> | (tail & ->)].
    + simpl. repeat split; try lia.
      * intros Hl. apply Hsome. lia.
      * intros Ho. specialize (Hnone Ho). simpl in Hnone. lia.
    + destruct (Hq tail) as (-> & ->). simpl. repeat split; try lia.
      * intros Hl. apply Hsome. lia.
      * intros Ho. specialize (Hnone Ho). simpl in Hnone. lia.
Qed.

(** ** Identifiers, creation and deletion of rooms *)

Lemma string_app_cons a s1 s2 : String a s1 +:+ s2 = String a (s1 +:+ s2).
Proof. reflexivity. Qed.

Lemma string_length_app s1 s2 :
  String.length (s1 +:+ s2) = (String.length s1 + String.length s2)%nat.
Proof.
  induction s1 as [|a s1 IH]; [done|]. rewrite string_app_cons. simpl. by rewrite IH.
Qed.

Lemma string_get_lt i s : (i < String.length s)%nat → is_Some (String.get i s).
Proof.
  revert i. induction s as [|a s IH]; intros i Hi; simpl in *; [lia|].
  destruct i; [eauto|]. apply IH. lia.
Qed.

Lemma string_get_app i s1 s2 ch :
  String.get i (s1 +:+ s2) = Some ch →
  String.get i s1 = Some ch
  ∨ String.get (i - String.length s1) s2 = Some ch.
Proof.
  revert i. induction s1 as [|a s1 IH]; intros i.
  - simpl. rewrite Nat.sub_0_r. by right.
  - rewrite string_app_cons. simpl. destruct i; [by left|]. apply IH.
Qed.

Lemma generateIdFrom_spec n draws id :
  String.length (generateIdFrom n draws id) = (String.length id + n)%nat
  ∧ ∀ i ch, String.get i (generateIdFrom n draws id) = Some ch →
      String.get i id = Some ch ∨ ∃ j, String.get j alphabet = Some ch.
Proof.
  revert draws id. induction n as [|n IH]; intros draws id.
  - simpl. split; [lia|]. by left.
  - change (generateIdFrom (S n) draws id)
      with (generateIdFrom n (tl draws)
              (id +:+ charAt (Js.randomIndex (hd O draws) (String.length alphabet))
                        alphabet)).
    set (j := Js.randomIndex (hd 0%nat draws) (String.length alphabet)).
    assert (is_Some (String.get j alphabet)) as [ch0 Hj].
    { apply string_get_lt. unfold j, Js.randomIndex.
      apply Nat.mod_upper_bound. done. }
    assert (charAt j alphabet = String ch0 "") as -> by (unfold charAt; by rewrite Hj).
    destruct (IH (tl draws) (id +:+ String ch0 "")) as (Hlen & Hch). split.
    + rewrite Hlen, string_length_app. simpl. lia.
    + intros i ch Hi. destruct (Hch i ch Hi) as [Hin|?]; [|by right].
      apply string_get_app in Hin as [?|Hin]; [by left|]. right.
      destruct (i - String.length id)%nat; simpl in Hin; [|done].
      injection Hin as <-. eauto.
Qed.

(** X11. [generateId] returns five characters, each a letter of the
    alphabet, whatever is drawn. *)
Theorem generateId_five_letters (draws : list nat) :
  String.length (generateId draws) = 5%nat
  ∧ ∀ i ch, String.get i (generateId draws) = Some ch →
      ∃ j, String.get j alphabet = Some ch.
Proof.
  destruct (generateIdFrom_spec 5 draws "") as (Hlen & Hch). split; [done|].
  intros i ch Hi. destruct (Hch i ch Hi) as [Hx|?]; [|done]. by destruct i.
Qed.

(** Nothing keeps the identifier of the lobby from being drawn. *)
Example generateId_can_draw_lobby : generateId [11; 14; 1; 1; 24]%nat = "lobby".
Proof. reflexivity. Qed.

Lemma has_key_delete_key id m : has_key id (delete_key id m) = false.
Proof.
  unfold has_key. apply bool_decide_eq_false. apply get_key_None.
  rewrite get_key_delete_key. by rewrite decide_True.
Qed.

Lemma has_key_get_key id m : has_key id m = true → is_Some (get_key id m).
Proof.
  intros Hh. destruct (get_key id m) eqn:Hg; [eauto|].
  apply get_key_None in Hg. unfold has_key in Hh.
  by apply bool_decide_eq_true in Hh.
Qed.

(** X12. [deleteRoom] on a room that is not listed does nothing.  On a
    listed room it takes the identifier out of the listing, forgets the
    session token of the room, resets the timer handle and cancels the
    callback with that handle, and no other: a request or a pause of the
    room that is under way stays queued.  Deleting again changes nothing. *)
Theorem deleteRoom_effect (ref : nat) (w : World) (r : Room) :
  heap w !! ref = Some r →
  (has_key (room_id r) (rooms w) = false → deleteRoom ref w = w)
  ∧ (has_key (room_id r) (rooms w) = true →
     heap (deleteRoom ref w) = <[ref := set_timerId (-1) r]> (heap w)
     ∧ getRoomById (room_id r) (deleteRoom ref w) = None
     ∧ (∀ id, id ≠ room_id r →
          getRoomById id (deleteRoom ref w) = getRoomById id w)
     ∧ sessionTokens (deleteRoom ref w) = delete (room_id r) (sessionTokens w)
     ∧ pending (deleteRoom ref w)
       = filter (λ p, Z.of_nat p.1 ≠ timerId r) (pending w)
     ∧ deleteRoom ref (deleteRoom ref w) = deleteRoom ref w).
Proof.
  intros Hr. split.
  - intros Hk. unfold deleteRoom, with_room. by rewrite Hr, Hk.
  - intros Hk.
    set (w3 := set_rooms (delete_key (room_id r))
                 (updRoom ref (set_timerId (-1)) (clearTimeout (timerId r) w))).
    assert (deleteRoom ref w = publish DELETE_ROOM ref w3) as Hd.
    { unfold deleteRoom, with_room. by rewrite Hr, Hk. }
    assert (heap w3 !! ref = Some (set_timerId (-1) r)) as Hr3.
    { unfold w3. simpl. by rewrite lookup_alter_eq, Hr. }
    assert (heap (deleteRoom ref w) = <[ref := set_timerId (-1) r]> (heap w)) as Hh.
    { rewrite Hd, heap_publish. unfold w3. simpl. apply map_eq. intros i.
      rewrite lookup_alter, lookup_insert. case_decide; [|done]. subst i.
      by rewrite Hr. }
    assert (rooms (deleteRoom ref w) = delete_key (room_id r) (rooms w)) as Hrooms.
    { rewrite Hd. by rewrite (un_publish rooms). }
    split; [done|]. split; [|split; [|split; [|split]]].
    + unfold getRoomById. rewrite Hrooms, get_key_delete_key. by rewrite decide_True.
    + intros id Hne. unfold getRoomById.
      rewrite Hrooms, get_key_delete_key. by rewrite decide_False.
    + rewrite Hd. unfold publish, with_room. rewrite Hr3.
      unfold toRoom, with_room, emit. by repeat case_match.
    + rewrite Hd. by rewrite (un_publish pending).
    + unfold deleteRoom at 1. unfold with_room. rewrite Hh, lookup_insert_eq.
      simpl. by rewrite Hrooms, has_key_delete_key.
Qed.

Lemma deleteRoom_effect_witness :
  (has_key (room_id (roomOf (worldOf playing) 2)) (rooms (worldOf playing)) = false →
   deleteRoom 2 (worldOf playing) = worldOf playing)
  ∧ (has_key (room_id (roomOf (worldOf playing) 2)) (rooms (worldOf playing)) = true →
     heap (deleteRoom 2 (worldOf playing))
     = <[2%nat := set_timerId (-1) (roomOf (worldOf playing) 2)]>
         (heap (worldOf playing))
     ∧ getRoomById (room_id (roomOf (worldOf playing) 2))
         (deleteRoom 2 (worldOf playing)) = None
     ∧ (∀ id, id ≠ room_id (roomOf (worldOf playing) 2) →
          getRoomById id (deleteRoom 2 (worldOf playing))
          = getRoomById id (worldOf playing))
     ∧ sessionTokens (deleteRoom 2 (worldOf playing))
       = delete (room_id (roomOf (worldOf playing) 2))
           (sessionTokens (worldOf playing))
     ∧ pending (deleteRoom 2 (worldOf playing))
       = filter (λ p, Z.of_nat p.1 ≠ timerId (roomOf (worldOf playing) 2))
           (pending (worldOf playing))
     ∧ deleteRoom 2 (deleteRoom 2 (worldOf playing))
       = deleteRoom 2 (worldOf playing)).
Proof.
  apply (deleteRoom_effect 2 (worldOf playing) (roomOf (worldOf playing) 2)).
  vm_compute. reflexivity.
Defined.

Lemma getRoomIdList_set_key id ref m :
  (set_key id ref m).*1 = if has_key id m then m.*1 else m.*1 ++ [id].
Proof.
  unfold set_key. destruct (has_key id m).
  - rewrite <- list_fmap_compose. apply list_fmap_ext. intros i [k v] _. simpl.
    by case_decide.
  - by rewrite fmap_app.
Qed.

(** X13. [makeNewRoom] allocates a trivia room without members, question or
    statistics, lists it under its identifier, in place of a room that was
    listed under the same identifier, leaves every other entry of the
    listing as it is, and starts the first fetch of the room: one request
    goes out and waits for its answer. *)
Theorem makeNewRoom_registers (id nm : string) (d : bool)
    (c : option RoomConfiguration) (w : World) :
  let ref := nextRoom w in
  let cfg := default defaultConfiguration c in
  let w' := (makeNewRoom id nm d c w).2 in
  (makeNewRoom id nm d c w).1 = ref
  ∧ heap w'
    = <[ref := mkRoom TriviaClass id [] nm (-1) (maxSeconds cfg) None d cfg true 0 ∅]>
        (heap w)
  ∧ getRoomById id w' = Some ref
  ∧ (∀ id', id' ≠ id → getRoomById id' w' = getRoomById id' w)
  ∧ getRoomIdList w'
    = (if has_key id (rooms w) then getRoomIdList w else getRoomIdList w ++ [id])
  ∧ ∃ url k,
      getTriviaQuestionAsync id cfg (sessionTokens w) = Request url k
      ∧ pending w' = pending w ++ [(nextId w, TFetch ref k)]
      ∧ HttpGet url ∈ out w'.
Proof.
  intros ref cfg w'. unfold w', makeNewRoom. fold cfg. fold ref. simpl.
  set (r0 := newTriviaRoom id nm d cfg).
  set (w1 := set_nextRoom (S ref) (set_heap <[ref:=r0]> w)).
  assert (heap w1 !! ref = Some r0) as Hr1 by (unfold w1; simpl; apply lookup_insert_eq).
  assert (∃ url k, getTriviaQuestionAsync id cfg (sessionTokens w) = Request url k)
    as (url & k & Hreq).
  { unfold getTriviaQuestionAsync, getTokenThenRequestQuestion.
    destruct (sessionTokens w !! id); eauto. }
  assert (requestNewQuestion ref w1 = axiosGet url (TFetch ref k) w1) as Hrq.
  { unfold requestNewQuestion, with_room. rewrite Hr1.
    change (room_id r0) with id. change (config r0) with cfg.
    change (sessionTokens w1) with (sessionTokens w). by rewrite Hreq. }
  rewrite Hrq.
  set (w3 := publish NEW_ROOM ref (set_rooms (set_key id ref)
                                     (axiosGet url (TFetch ref k) w1))).
  assert (rooms w3 = set_key id ref (rooms w)) as Hrooms
    by (unfold w3; by rewrite (un_publish rooms)).
  split; [done|]. split; [|split; [|split; [|split]]].
  - unfold w3. by rewrite heap_publish.
  - unfold getRoomById. rewrite Hrooms. apply get_key_set_key_eq.
  - intros id' Hne. unfold getRoomById. rewrite Hrooms. by apply get_key_set_key_ne.
  - unfold getRoomIdList. rewrite Hrooms. apply getRoomIdList_set_key.
  - exists url, k. split; [done|]. split.
    + unfold w3. by rewrite (un_publish pending).
    + unfold w3, publish, toRoom, with_room, emit, axiosGet.
      repeat case_match; simpl; rewrite ?elem_of_app, ?list_elem_of_singleton;
        tauto.
Qed.

(** X14. In every state the server can reach, the room list sent to a user
    has one entry for each identifier of the listing, in the order of the
    listing, and each entry is the info object of the room that the
    identifier leads to. *)
Theorem room_list_is_complete (w : World) (user : User) :
  reachable w →
  ∃ infos,
    sendRoomListToUser user w = emit (ToSocket (socket user) (RoomList infos)) w
    ∧ info_id <$> infos = getRoomIdList w
    ∧ ∀ info, info ∈ infos →
        ∃ ref r, getRoomById (info_id info) w = Some ref
          ∧ heap w !! ref = Some r ∧ info = makeRoomInfoObject r.
Proof.
  intros (_ & Hd)%directory_inv_reachable. unfold sendRoomListToUser.
  eexists. split; [done|].
  set (f := λ id, makeRoomInfoObject <$> (getRoomById id w ≫= λ ref, heap w !! ref)).
  assert (∀ ids : list string, (∀ id, id ∈ ids → is_Some (getRoomById id w)) →
    info_id <$> omap f ids = ids
    ∧ ∀ info, info ∈ omap f ids →
        ∃ ref r, getRoomById (info_id info) w = Some ref
          ∧ heap w !! ref = Some r ∧ info = makeRoomInfoObject r) as Hall.
  { induction ids as [|id ids IH]; intros Hids.
    - split; [done|]. by intros info ?%elem_of_nil.
    - destruct (Hids id) as [ref Hg]; [left|].
      destruct (Hd _ _ Hg) as (r & Hr & _ & Hid).
      destruct IH as (IH1 & IH2); [intros ??; apply Hids; by right|].
      assert (f id = Some (makeRoomInfoObject r)) as Hf.
      { unfold f. rewrite Hg. simpl. by rewrite Hr. }
      change (omap f (id :: ids))
        with (match f id with Some y => y :: omap f ids | None => omap f ids end).
      rewrite Hf, fmap_cons. split.
      + rewrite IH1. simpl. by rewrite Hid.
      + intros info [->|Hin]%elem_of_cons; [|by apply IH2].
        exists ref, r. simpl. by rewrite Hid. }
  apply Hall. intros id Hin. unfold getRoomById.
  destruct (get_key id (rooms w)) eqn:Hg; [eauto|].
  apply get_key_None in Hg. done.
Qed.

Lemma room_list_is_complete_witness :
  ∃ infos,
    sendRoomListToUser alice (worldOf playing)
    = emit (ToSocket (socket alice) (RoomList infos)) (worldOf playing)
    ∧ info_id <$> infos = getRoomIdList (worldOf playing)
    ∧ ∀ info, info ∈ infos →
        ∃ ref r, getRoomById (info_id info) (worldOf playing) = Some ref
          ∧ heap (worldOf playing) !! ref = Some r ∧ info = makeRoomInfoObject r.
Proof.
  apply (room_list_is_complete (worldOf playing) alice).
  exists [], "AAAAA", playing. vm_compute. reflexivity.
Defined.

(** ** The listeners for answers *)

Lemma klass_frame (Q : nat → Prop) w w' :
  frame (λ _, game_eq) Q w w' →
  ∀ ref, cls <$> heap w' !! ref = cls <$> heap w !! ref.
Proof.
  intros (Hh & _) ref. specialize (Hh ref).
  destruct (heap w !! ref), (heap w' !! ref); inversion Hh as [x r' HR Hx Hr'|];
    subst; [|done]. destruct HR as (Hc & _). simpl. by rewrite Hc.
Qed.

Lemma klass_addUser ref u w ref' :
  cls <$> heap (addUser ref u w) !! ref' = cls <$> heap w !! ref'.
Proof. eapply klass_frame, quiet_addUser. Qed.
Lemma klass_removeUser ref u w ref' :
  cls <$> heap (removeUser ref u w) !! ref' = cls <$> heap w !! ref'.
Proof. eapply klass_frame, quiet_removeUser. Qed.

Lemma answerListeners_setRoom u o w :
  answerListeners (setRoom u o w) = answerListeners w.
Proof.
  unfold setRoom, with_room, emit. repeat case_match; reflexivity.
Qed.

Lemma answerListeners_RoomBase_removeUser ref user w :
  answerListeners (RoomBase_removeUser ref user w) = answerListeners w.
Proof.
  unfold RoomBase_removeUser, with_room. case_match; [|done].
  unfold sendUserLeft, leaveRoom.
  rewrite (un_toRoom answerListeners) by done. by rewrite answerListeners_setRoom.
Qed.

Lemma answerListeners_removeUser ref user w r :
  heap w !! ref = Some r →
  answerListeners (removeUser ref user w)
  = match cls r with
    | TriviaClass => delete (socket user) (answerListeners w)
    | LobbyClass => answerListeners w
    end.
Proof.
  intros Hr. unfold removeUser, with_room. rewrite Hr. destruct (cls r).
  - unfold Lobby_removeUser. rewrite (un_emit answerListeners) by done.
    apply answerListeners_RoomBase_removeUser.
  - unfold TriviaRoom_removeUser, with_room.
    match goal with
    | |- context [sendUserStatsToAll ref ?w0] =>
        assert (answerListeners (sendUserStatsToAll ref w0)
                = delete (socket user) (answerListeners w)) as Hl;
        [|set (w2 := sendUserStatsToAll ref w0) in *]
    end.
    { rewrite (un_sendUserStatsToAll answerListeners) by done.
      unfold sendLeftGameRoom. rewrite (un_emit answerListeners) by done. simpl.
      by rewrite answerListeners_RoomBase_removeUser. }
    case_match; [|done].
    case_match; rewrite ?(un_deleteRoom answerListeners),
                        ?(un_publish answerListeners) by done; done.
Qed.

Lemma answerListeners_RoomBase_addUser ref user w r :
  heap w !! ref = Some r →
  answerListeners (RoomBase_addUser ref user w)
  = if isUserInRoom r user then answerListeners w
    else answerListeners
           match userRoom w !! socket user with
           | Some prev => removeUser prev user w
           | None => w
           end.
Proof.
  intros Hr. unfold RoomBase_addUser, with_room. rewrite Hr.
  destruct (isUserInRoom r user); [done|].
  unfold sendUserList, with_room.
  case_match; rewrite ?(un_emit answerListeners) by done;
    unfold sendUserJoined; rewrite (un_toRoom answerListeners) by done;
    by rewrite answerListeners_setRoom.
Qed.

Lemma answerListeners_addUser ref user w r :
  heap w !! ref = Some r →
  answerListeners (addUser ref user w)
  = match cls r with
    | TriviaClass =>
        <[socket user :=
            default [] (answerListeners (RoomBase_addUser ref user w) !! socket user)
            ++ [(ref, user)]]>
          (answerListeners (RoomBase_addUser ref user w))
    | LobbyClass => answerListeners (RoomBase_addUser ref user w)
    end.
Proof.
  intros Hr. unfold addUser, with_room. rewrite Hr. destruct (cls r).
  - unfold Lobby_addUser. rewrite (un_emit answerListeners) by done.
    unfold sendRoomListToUser. by rewrite (un_emit answerListeners) by done.
  - apply TriviaRoom_addUser_listeners.
Qed.

(** The listeners stay right when the state changes without touching them,
    the users' rooms or the classes of the rooms, for a list of users that
    still holds those who are in a room. *)
Lemma listeners_inv_ext U U' w w' :
  answerListeners w' = answerListeners w → userRoom w' = userRoom w →
  (∀ ref, cls <$> heap w' !! ref = cls <$> heap w !! ref) →
  (∀ u, u ∈ U → is_Some (userRoom w !! socket u) → u ∈ U') →
  listeners_inv U w → listeners_inv U' w'.
Proof.
  intros Hl Hu Hk HU HL s. specialize (HL s). rewrite Hl, Hu.
  destruct (answerListeners w !! s) as [l|].
  - destruct HL as (Hne & user & ref & Hall & Hin & Hs & Hroom & Hc).
    split; [done|]. exists user, ref. rewrite Hk.
    split; [done|]. split; [|done]. apply HU; [done|]. rewrite Hs. eauto.
  - intros ref Hroom. rewrite Hk. by apply HL.
Qed.

Lemma listeners_inv_removeUser U w user ref :
  names_ok U → members_inv U w → listeners_inv U w → user ∈ U →
  userRoom w !! socket user = Some ref →
  listeners_inv U (removeUser ref user w).
Proof.
  intros HU HM HL Hin Hroom.
  destruct (members_inv_member _ _ _ _ HU HM Hin Hroom) as (r & Hr & _).
  destruct (members_inv_removeUser _ _ _ _ HU HM Hin Hroom) as (_ & Hur & _).
  pose proof (answerListeners_removeUser ref user w r Hr) as Hal.
  intros s. rewrite Hur, Hal.
  destruct (decide (s = socket user)) as [->|Hne].
  - assert (match cls r with
            | LobbyClass => answerListeners w
            | TriviaClass => delete (socket user) (answerListeners w)
            end !! socket user = None) as ->.
    { destruct (cls r) eqn:Hc; [|apply lookup_delete_eq].
      specialize (HL (socket user)).
      destruct (answerListeners w !! socket user) as [l|]; [|done].
      destruct HL as (_ & user' & ref' & _ & _ & _ & Hroom' & Hc').
      rewrite Hroom in Hroom'. injection Hroom' as <-.
      rewrite Hr in Hc'. simpl in Hc'. congruence. }
    intros ref'. by rewrite lookup_delete_eq.
  - assert (match cls r with
            | LobbyClass => answerListeners w
            | TriviaClass => delete (socket user) (answerListeners w)
            end !! s = answerListeners w !! s) as ->.
    { destruct (cls r); [done|]. by rewrite lookup_delete_ne. }
    specialize (HL s). rewrite lookup_delete_ne by done.
    destruct (answerListeners w !! s) as [l|].
    + destruct HL as (Hnil & user' & ref' & ? & ? & ? & ? & ?).
      split; [done|]. exists user', ref'. by rewrite klass_removeUser.
    + intros ref'. rewrite klass_removeUser. apply HL.
Qed.

Lemma listeners_inv_addUser U w user ref r :
  names_ok U → members_inv U w → listeners_inv U w → user ∈ U →
  nickname user ≠ "" → heap w !! ref = Some r →
  listeners_inv U (addUser ref user w).
Proof.
  intros HU HM HL Hin Hn Hr.
  destruct (members_inv_addUser _ _ _ _ _ HU HM Hin Hn Hr) as (_ & Hur & _).
  pose proof (answerListeners_addUser ref user w r Hr) as Hal.
  pose proof (answerListeners_RoomBase_addUser ref user w r Hr) as Hal0.
  (* the listeners and the users' rooms before the user enters *)
  assert (∃ w0, answerListeners (RoomBase_addUser ref user w) = answerListeners w0
            ∧ listeners_inv U w0
            ∧ (userRoom w0 !! socket user = Some ref
               ∨ userRoom w0 !! socket user = None)
            ∧ (∀ s, s ≠ socket user → userRoom w0 !! s = userRoom w !! s)
            ∧ ∀ ref', cls <$> heap w0 !! ref' = cls <$> heap w !! ref')
    as (w0 & Hl0 & HL0 & Hroom0 & Hother0 & Hk0).
  { destruct (isUserInRoom r user) eqn:Hmem.
    - exists w. split; [done|]. split; [done|]. split; [|done]. left.
      apply isUserInRoom_spec in Hmem. destruct HM as (M1 & _).
      destruct (M1 _ _ Hr) as (_ & Hm & _). by destruct (Hm user Hmem) as (_ & _ & ?).
    - destruct (userRoom w !! socket user) as [prev|] eqn:Hprev.
      + exists (removeUser prev user w). split; [done|].
        split; [by apply listeners_inv_removeUser|].
        destruct (members_inv_removeUser _ _ _ _ HU HM Hin Hprev) as (_ & -> & _).
        split; [right; apply lookup_delete_eq|]. split.
        * intros s Hs. by rewrite lookup_delete_ne.
        * intros ref'. apply klass_removeUser.
      + exists w. split; [done|]. split; [done|]. split; [by right|]. done. }
  assert (cls <$> heap w !! ref = Some (cls r)) as Hkr by by rewrite Hr.
  intros s. rewrite Hur, Hal, Hl0.
  destruct (decide (s = socket user)) as [->|Hne].
  - rewrite lookup_insert_eq. pose proof (HL0 (socket user)) as HLs.
    destruct (cls r) eqn:Hc.
    + destruct (answerListeners w0 !! socket user) as [l|]; [|
        intros ref' [= <-]; rewrite klass_addUser, Hkr; congruence].
      exfalso. destruct HLs as (_ & user' & ref' & _ & _ & _ & Hroom' & Hc').
      destruct Hroom0 as [Hx|Hx]; rewrite Hx in Hroom'; [|done].
      injection Hroom' as <-. rewrite Hk0, Hkr in Hc'. congruence.
    + rewrite lookup_insert_eq. split.
      { intros Heq. apply (f_equal length) in Heq. rewrite length_app in Heq.
        simpl in Heq. lia. }
      exists user, ref. rewrite klass_addUser, Hkr.
      split; [|done]. intros p [Hp| ->%list_elem_of_singleton]%elem_of_app;
        [|done].
      destruct (answerListeners w0 !! socket user) as [l|];
        [|by apply elem_of_nil in Hp].
      destruct HLs as (_ & user' & ref' & Hall & Hin' & Hs' & Hroom' & Hc').
      simpl in Hp. rewrite (Hall p Hp).
      destruct Hroom0 as [Hx|Hx]; rewrite Hx in Hroom'; [|done].
      injection Hroom' as <-. f_equal. by eapply names_socket_inj.
  - rewrite lookup_insert_ne by done. specialize (HL0 s).
    assert (match cls r with
            | LobbyClass => answerListeners w0
            | TriviaClass =>
                <[socket user:=default [] (answerListeners w0 !! socket user)
                               ++ [(ref, user)]]> (answerListeners w0)
            end !! s = answerListeners w0 !! s) as ->.
    { destruct (cls r); [done|]. by rewrite lookup_insert_ne. }
    rewrite <- (Hother0 s Hne).
    destruct (answerListeners w0 !! s) as [l|].
    + destruct HL0 as (Hnil & user' & ref' & ? & ? & ? & ? & Hc').
      split; [done|]. exists user', ref'. rewrite klass_addUser, <- Hk0. done.
    + intros ref'. rewrite klass_addUser, <- Hk0. apply HL0.
Qed.

Lemma klass_game w w' :
  frame same_members (λ _, False) w w' →
  ∀ ref, cls <$> heap w' !! ref = cls <$> heap w !! ref.
Proof.
  intros (Hh & _) ref. specialize (Hh ref).
  destruct (heap w !! ref), (heap w' !! ref); inversion Hh as [x r' HR Hx Hr'|];
    subst; [|done]. destruct HR as (_ & Hc & _). simpl. by rewrite Hc.
Qed.

Lemma listeners_inv_makeNewRoom U id nm d c w :
  game_inv w → members_inv U w → listeners_inv U w →
  listeners_inv U (makeNewRoom id nm d c w).2.
Proof.
  intros (_ & J2 & _) (_ & M2) HL s. specialize (HL s).
  rewrite (un_makeNewRoom answerListeners), (un_makeNewRoom userRoom) by done.
  assert (∀ ref, is_Some (heap w !! ref) →
            cls <$> heap (makeNewRoom id nm d c w).2 !! ref = cls <$> heap w !! ref)
    as Hk.
  { intros ref [r Hr]. unfold makeNewRoom. simpl. rewrite heap_publish. simpl.
    match goal with
    | |- context [requestNewQuestion ?a ?w1] =>
        rewrite (klass_game w1 (requestNewQuestion a w1)
                   (members_requestNewQuestion a w1))
    end.
    simpl. rewrite lookup_insert_ne; [done|]. intros Heq.
    apply J2 in Hr. lia. }
  destruct (answerListeners w !! s) as [l|].
  - destruct HL as (Hnil & user & ref & ? & ? & ? & Hroom & Hc).
    split; [done|]. exists user, ref. rewrite Hk; [done|].
    destruct (M2 _ _ Hroom) as (r & _ & Hr & _). eauto.
  - intros ref Hroom. rewrite Hk; [by apply HL|].
    destruct (M2 _ _ Hroom) as (r & _ & Hr & _). eauto.
Qed.

Lemma listeners_inv_step U w ev w' :
  names_ok U → game_inv w → members_inv U w → listeners_inv U w →
  (∀ u, mover ev = Some u → u ∈ U ∧ nickname u ≠ "") →
  step w ev = Some w' → listeners_inv U w'.
Proof.
  intros HU HJ HM HL Hact.
  assert (∀ ref u w0, members_inv U w0 → listeners_inv U w0 → u ∈ U →
            nickname u ≠ "" → listeners_inv U (addUser ref u w0)) as Hadd.
  { intros ref u w0 HM0 HL0 Hin Hn. destruct (heap w0 !! ref) as [r|] eqn:Hr.
    - by eapply listeners_inv_addUser.
    - by rewrite addUser_no_room. }
  destruct ev as [u|u id|u|u info newId|u text|u n|u|h|h res draws];
    unfold step; try (destruct (Hact u eq_refl) as (Hin & Hn)); clear Hact.
  - intros [= <-]. by apply Hadd.
  - destruct (getRoomById id w); intros [= <-]; [|done]. by apply Hadd.
  - destruct (userRoom w !! socket u); intros [= <-]; [|done]. by apply Hadd.
  - match goal with
    | |- context [makeNewRoom ?a ?b ?c ?d w] =>
        pose proof (members_inv_makeNewRoom U a b c d w HJ HM) as (HM1 & _);
        pose proof (listeners_inv_makeNewRoom U a b c d w HJ HM HL) as HL1;
        destruct (makeNewRoom a b c d w) as [ref w1] eqn:Hm
    end.
    intros [= <-]. by apply Hadd.
  - destruct (userRoom w !! socket u); [|by intros [= <-]].
    case_decide; intros [= <-]; [done|].
    eapply listeners_inv_ext; [| | | |exact HL].
    + by apply (un_sendMessage answerListeners).
    + apply userRoom_sendMessage.
    + eapply klass_game. apply members_sendMessage.
    + done.
  - intros [= <-].
    eapply listeners_inv_ext; [| | | |exact HL].
    + by apply (un_fireAnswer answerListeners).
    + apply userRoom_fireAnswer.
    + eapply klass_game. apply members_fireAnswer.
    + done.
  - destruct (userRoom w !! socket u) as [ref|] eqn:Hroom; intros [= <-]; [|done].
    by apply listeners_inv_removeUser.
  - destruct (take h w) as [[t w1]|] eqn:Ht; [|by intros [= <-]].
    assert (listeners_inv U w1) as HL1.
    { apply take_spec in Ht as [_ ->]. done. }
    destruct t as [ref|ref|ref k]; [| |by intros [= <-]].
    + intros Hw'. eapply listeners_inv_ext; [| | | |exact HL1].
      * by eapply (un_timer answerListeners).
      * by eapply userRoom_timer.
      * eapply klass_game. by eapply members_timer.
      * done.
    + intros [= <-]. eapply listeners_inv_ext; [| | | |exact HL1].
      * by apply (un_requestNewQuestion answerListeners).
      * apply userRoom_requestNewQuestion.
      * eapply klass_game. apply members_requestNewQuestion.
      * done.
  - destruct (take h w) as [[t w1]|] eqn:Ht; [|by intros [= <-]].
    assert (listeners_inv U w1) as HL1.
    { apply take_spec in Ht as [_ ->]. done. }
    destruct t as [ref|ref|ref k]; [by intros [= <-]..|].
    intros [= <-]. eapply listeners_inv_ext; [| | | |exact HL1].
    + by apply (un_settle answerListeners).
    + apply userRoom_settle.
    + eapply klass_game. apply members_settle.
    + done.
Qed.

(** Every turn of the event loop of the server keeps the listeners right. *)
Lemma receive_listeners sv ev sv' :
  server_inv sv → listeners_inv (allUsers sv) (world sv) →
  receive sv ev = Some sv' → listeners_inv (allUsers sv') (world sv').
Proof.
  intros HI HL. pose proof HI as (HU & HM & HR).
  assert (∀ e sv1, (∀ u, mover e = Some u → u ∈ allUsers sv ∧ nickname u ≠ "") →
            turn e sv = Some sv1 → listeners_inv (allUsers sv1) (world sv1)) as Hturn.
  { intros e sv1 Hact Ht. destruct (turn_inv _ _ _ HI Hact Ht) as (_ & -> & Hs).
    eapply listeners_inv_step; [done|by apply game_inv_reachable|done..]. }
  destruct ev as [s|s m|h|h res draws]; simpl.
  - case_bool_decide as Hs; intros [= <-]; [done|]. simpl.
    eapply listeners_inv_ext; [done..| |exact HL].
    intros u Hu _. apply elem_of_app. by left.
  - destruct (findUser s sv) as [user|] eqn:Hf; [|by intros [= <-]].
    apply findUser_spec in Hf as [Hin Hs].
    destruct m as [nick|id| |info draws|text| |n|].
    + intros [= <-].
      destruct (String.length (nickname user) =? 0)%nat eqn:Hlen;
        [|unfold setNickname; by rewrite Hlen].
      destruct (isNicknameValid nick) eqn:Hvalid;
        [|unfold setNickname; by rewrite Hlen, Hvalid].
      destruct (isNicknameTaken nick sv) eqn:Htaken;
        [unfold setNickname; by rewrite Hlen, Hvalid, Htaken|].
      apply Nat.eqb_eq, length_zero_empty in Hlen.
      rewrite setNickname_accepted by done. simpl.
      set (named := mkUser (socket user) nick).
      set (U' := (λ u, if decide (u = user) then named else u) <$> allUsers sv).
      assert (names_ok U') as HU'.
      { apply names_ok_named; [done..|]. by apply isNicknameTaken_false. }
      assert (∀ u, u ∈ allUsers sv → is_Some (userRoom (world sv) !! socket u) →
                u ∈ U') as Hkeep.
      { intros u Hu [ref Hroom]. apply list_elem_of_fmap. exists u. split; [|done].
        rewrite decide_False; [done|]. intros ->.
        rewrite (unnamed_no_room _ _ _ HU HM Hin Hlen) in Hroom. done. }
      assert (members_inv U' (world sv)) as HM'
        by by eapply members_inv_users.
      assert (listeners_inv U' (world sv)) as HL'
        by by eapply listeners_inv_ext; [..|exact HL].
      assert (named ∈ U') as Hnamed.
      { apply list_elem_of_fmap. exists user. by rewrite decide_True. }
      assert (nickname named ≠ "") as Hnn by by apply isNicknameValid_nonempty.
      match goal with
      | |- listeners_inv U' (addUser ?ref named (world sv)) =>
          destruct (heap (world sv) !! ref) as [r|] eqn:Hr;
          [by eapply listeners_inv_addUser|by rewrite addUser_no_room]
      end.
    + case_decide as Hn; [by intros [= <-]|].
      apply Hturn. by intros u [= <-].
    + case_decide as Hn; [by intros [= <-]|].
      apply Hturn. by intros u [= <-].
    + case_decide as Hn; [by intros [= <-]|].
      apply Hturn. by intros u [= <-].
    + case_decide as Hn; [by intros [= <-]|]. apply Hturn. done.
    + case_decide as Hn; by intros [= <-].
    + apply Hturn. done.
    + intros [= <-]. rewrite disconnect_users, disconnect_world by done.
      destruct (userRoom (world sv) !! socket user) as [ref|] eqn:Hroom.
      * destruct (members_inv_removeUser _ _ _ _ HU HM Hin Hroom) as (_ & Hur & _).
        eapply listeners_inv_ext; [done..| |by apply listeners_inv_removeUser].
        intros u Hu [ref' Hr']. apply list_elem_of_filter. split; [|done].
        intros ->. rewrite Hur, lookup_delete_eq in Hr'. done.
      * eapply listeners_inv_ext; [done..| |exact HL].
        intros u Hu [ref' Hr']. apply list_elem_of_filter. split; [|done].
        intros ->. congruence.
  - apply Hturn. done.
  - apply Hturn. done.
Qed.

Lemma listening_listeners cats draws :
  listeners_inv (allUsers (listening cats draws)) (world (listening cats draws)).
Proof.
  intros s. change (allUsers (listening cats draws)) with (@nil User).
  change (world (listening cats draws)) with (boot cats (generateId draws)).
  assert (answerListeners (boot cats (generateId draws)) = ∅) as ->.
  { unfold boot.
    pose proof (un_makeNewRoom answerListeners ltac:(done) ltac:(done)
                  ltac:(done) ltac:(done) ltac:(done) ltac:(done) ltac:(done)
                  (generateId draws) "The Any Room" false None (emptyWorld cats)) as Hl.
    destruct (makeNewRoom (generateId draws) "The Any Room" false None
                (emptyWorld cats)) as [ref w]. simpl in *. done. }
  assert (userRoom (boot cats (generateId draws)) = ∅) as ->.
  { unfold boot.
    pose proof (userRoom_makeNewRoom (generateId draws) "The Any Room" false None
                  (emptyWorld cats)) as Hl.
    destruct (makeNewRoom (generateId draws) "The Any Room" false None
                (emptyWorld cats)) as [ref w]. simpl in *. done. }
  rewrite lookup_empty. intros ref. by rewrite lookup_empty.
Qed.

Lemma live_listeners sv : live sv → listeners_inv (allUsers sv) (world sv).
Proof.
  intros (cats & draws & evs & Hs).
  pose proof (listening_inv cats draws) as HI.
  pose proof (listening_listeners cats draws) as HL.
  revert Hs HI HL. generalize (listening cats draws). revert sv.
  induction evs as [|ev evs IH]; intros sv sv0; simpl.
  - by intros [= <-].
  - destruct (receive sv0 ev) as [sv1|] eqn:Hr; [|done]. simpl.
    intros Hs HI HL. eapply IH; [done| |].
    + by eapply receive_inv.
    + by eapply receive_listeners.
Qed.

(** ** The ['answer'] listeners of a socket *)

(** Running the same listener again on the same answer changes nothing
    more. *)
Lemma answerListener_again ref user n w :
  answerListener ref user n (answerListener ref user n w)
  = answerListener ref user n w.
Proof.
  destruct (heap w !! ref) as [r|] eqn:Hr.
  - destruct (userStats r !! nickname user) as [s|] eqn:Hs.
    + destruct (acceptAnswers r) eqn:Hacc.
      * destruct (decide (selectedAnswerIndex s = -1)) as [Hsel|Hsel].
        -- rewrite (answerListener_accepts _ _ _ _ _ _ Hr Hs Hsel Hacc).
           set (r' := set_userStats
                        (<[nickname user := set_selectedAnswerIndex n s]>) r).
           assert (heap (updRoom ref
                     (set_userStats
                        (<[nickname user := set_selectedAnswerIndex n s]>)) w)
                     !! ref = Some r') as Hr'.
           { simpl. by rewrite lookup_alter_eq, Hr. }
           assert (userStats r' !! nickname user
                   = Some (set_selectedAnswerIndex n s)) as Hs'.
           { simpl. by rewrite lookup_insert_eq. }
           destruct (decide (n = -1)) as [->|Hn].
           ++ rewrite (answerListener_accepts _ _ _ _ _ _ Hr' Hs'
                         eq_refl Hacc).
              unfold updRoom, set_heap. destruct w. simpl. f_equal.
              rewrite alter_alter_eq. apply alter_ext. intros x _.
              destruct x. unfold set_userStats. simpl. f_equal.
              by rewrite insert_insert_eq.
           ++ by rewrite (answerListener_already _ _ _ _ _ _ Hr' Hs').
        -- by rewrite !(answerListener_already _ _ _ _ _ _ Hr Hs Hsel).
      * by rewrite !(answerListener_locked _ _ _ _ _ Hr Hacc).
    + by rewrite !(answerListener_stranger _ _ _ _ _ Hr Hs).
  - assert (answerListener ref user n w = w) as Hw
      by (unfold answerListener, with_room; by rewrite Hr).
    by rewrite !Hw.
Qed.

(** Listeners that were all registered by the same room for the same user
    act as one. *)
Lemma fireAnswer_one user n w l ref u :
  answerListeners w !! socket user = Some l → l ≠ [] →
  (∀ p, p ∈ l → p = (ref, u)) →
  fireAnswer user n w = answerListener ref u n w.
Proof.
  intros Hl Hnil Hall. unfold fireAnswer. rewrite Hl. simpl. clear Hl.
  destruct l as [|p l]; [done|]. clear Hnil. simpl.
  rewrite (Hall p) by left. simpl.
  assert (∀ q, q ∈ l → q = (ref, u)) as Hall'
    by (intros q Hq; apply Hall; by right).
  clear Hall. induction l as [|q l IH]; [done|]. simpl.
  rewrite (Hall' q) by left. simpl. rewrite answerListener_again.
  apply IH. intros q' Hq'. apply Hall'. by right.
Qed.

(** X15.  An ['answer'] of a client reaches the game room the user is in
    now, as one submission of this user there, however often the user
    entered it; in the lobby and before the nickname is set it reaches
    nothing.  Rooms left earlier no longer listen. *)
Theorem answer_reaches_current_room_only (sv : Server) (s : nat) (user : User)
    (n : Z) :
  live sv → findUser s sv = Some user →
  ∃ sv', receive sv (FromClient s (OnAnswer n)) = Some sv'
    ∧ allUsers sv' = allUsers sv
    ∧ pendingJoinRoomRequests sv' = pendingJoinRoomRequests sv
    ∧ told sv' = told sv
    ∧ world sv'
      = match userRoom (world sv) !! s with
        | Some ref =>
            match cls <$> heap (world sv) !! ref with
            | Some TriviaClass => answerListener ref user n (world sv)
            | _ => world sv
            end
        | None => world sv
        end.
Proof.
  intros Hlive Hf. pose proof (live_inv _ Hlive) as (HU & HM & HR).
  pose proof (live_listeners _ Hlive s) as HL.
  simpl. rewrite Hf. unfold turn. simpl.
  apply findUser_spec in Hf as [Hin Hs]. eexists. split; [done|].
  simpl. do 3 (split; [done|]).
  destruct (answerListeners (world sv) !! s) as [l|] eqn:Hl.
  - destruct HL as (Hnil & u & ref & Hall & Hu & Hsu & Hroom & Hc).
    rewrite Hroom, Hc.
    assert (u = user) as -> by (eapply names_socket_inj; [done..|congruence]).
    eapply fireAnswer_one; [by rewrite Hs|done..].
  - assert (fireAnswer user n (world sv) = world sv) as ->
      by (unfold fireAnswer; by rewrite Hs, Hl).
    destruct (userRoom (world sv) !! s) as [ref|] eqn:Hroom; [|done].
    specialize (HL ref eq_refl).
    destruct (cls <$> heap (world sv) !! ref) as [[]|]; done.
Qed.

Lemma answer_reaches_current_room_only_witness :
  ∃ sv', receive (serverOf straightIn) (FromClient 2 (OnAnswer 3)) = Some sv'
    ∧ allUsers sv' = allUsers (serverOf straightIn)
    ∧ pendingJoinRoomRequests sv' = pendingJoinRoomRequests (serverOf straightIn)
    ∧ told sv' = told (serverOf straightIn)
    ∧ world sv'
      = match userRoom (world (serverOf straightIn)) !! 2%nat with
        | Some ref =>
            match cls <$> heap (world (serverOf straightIn)) !! ref with
            | Some TriviaClass =>
                answerListener ref (mkUser 2 "bob") 3 (world (serverOf straightIn))
            | _ => world (serverOf straightIn)
            end
        | None => world (serverOf straightIn)
        end.
Proof.
  apply (answer_reaches_current_room_only (serverOf straightIn) 2
           (mkUser 2 "bob") 3).
  - apply (live_serverOf straightIn). vm_compute. reflexivity.
  - vm_compute. reflexivity.
Defined.

(** ** Selections between questions *)

Lemma kph_refl r : keeps_phase r r.
Proof. done. Qed.

Lemma kph_trans a b c : keeps_phase a b → keeps_phase b c → keeps_phase a c.
Proof.
  intros (Ha & Hq & Hu) (Ha' & Hq' & Hu'). split; [congruence|].
  split; [congruence|]. intros Hacc Hun. apply Hu'; [congruence|]. by apply Hu.
Qed.

Lemma grade_selectedAnswerIndex c q s :
  selectedAnswerIndex (grade c q s).2 = selectedAnswerIndex s.
Proof. unfold grade. by repeat case_match. Qed.

Lemma kph_stats_delete k r : keeps_phase r (set_userStats (delete k) r).
Proof.
  split; [done|]. split; [done|]. intros _ Hun nick s. simpl.
  intros [_ Hs]%lookup_delete_Some. by eapply Hun.
Qed.

Lemma kph_stats_fresh k r :
  keeps_phase r (set_userStats (<[k:=newUserStatistics]>) r).
Proof.
  split; [done|]. split; [done|]. intros _ Hun nick s. simpl.
  rewrite lookup_insert. case_decide; [by intros [= <-]|]. by apply Hun.
Qed.

Lemma kph_stats_grade k s c q r :
  userStats r !! k = Some s →
  keeps_phase r (set_userStats (<[k:=(grade c q s).2]>) r).
Proof.
  intros Hs. split; [done|]. split; [done|]. intros _ Hun nick s'. simpl.
  rewrite lookup_insert. case_decide; [|by apply Hun].
  intros [= <-]. rewrite grade_selectedAnswerIndex. by eapply Hun.
Qed.

Lemma unselected_reset r :
  unselected (set_userStats (fmap (set_selectedAnswerIndex (-1))) r).
Proof.
  intros nick s. simpl. rewrite lookup_fmap.
  destruct (userStats r !! nick); [|done]. by intros [= <-].
Qed.

Lemma kph_stats_reset r :
  keeps_phase r (set_userStats (fmap (set_selectedAnswerIndex (-1))) r).
Proof. split; [done|]. split; [done|]. intros _ _. apply unselected_reset. Qed.

Lemma fr_phase_refl w : frame (λ _, keeps_phase) (λ _, True) w w.
Proof. apply frame_refl. by intros. Qed.

Ltac kph :=
  intros;
  first [ apply kph_refl | eapply kph_trans; eassumption
        | apply kph_stats_delete | apply kph_stats_fresh
        | apply kph_stats_grade; assumption | apply kph_stats_reset
        | by left
        | by right; first [ apply kph_refl | apply kph_stats_delete
                          | apply kph_stats_fresh | apply kph_stats_reset
                          | apply kph_stats_grade ]
        | apply fr_phase_refl | done | eassumption ].

Lemma kph_at_trans (ref0 ref : nat) a b c :
  (ref = ref0 ∨ keeps_phase a b) → (ref = ref0 ∨ keeps_phase b c) →
  ref = ref0 ∨ keeps_phase a c.
Proof. intros [?|?] [?|?]; auto. right. by eapply kph_trans. Qed.

(** An operation that respects [keeps_phase] everywhere and queues nothing
    keeps the invariant. *)
Lemma phase_inv_frame w w' :
  frame (λ _, keeps_phase) (λ _, True) w w' → phase_inv w → phase_inv w'.
Proof.
  intros (Hh & Hp & _) (HB & HD). split.
  - intros ref r' Hr' Hacc. specialize (Hh ref). rewrite Hr' in Hh.
    inversion Hh as [r ? (Ha & Hq & Hu) Hr|]; subst. symmetry in Hr.
    apply Hu; [congruence|]. eapply HB; [done|congruence].
  - intros h ref r' Hin Hr'. specialize (Hh ref). rewrite Hr' in Hh.
    inversion Hh as [r ? (Ha & Hq & Hu) Hr|]; subst. symmetry in Hr.
    rewrite Hq. apply (HD h ref r); [|done].
    assert ((h, TTimer ref) ∈ tasks_for ref (pending w')) as Hin'
      by by apply elem_of_tasks_for.
    eapply elem_of_sublist in Hin'; [|by apply Hp].
    by apply elem_of_tasks_for in Hin' as [? _].
Qed.

(** A callback of the game cycle of the room at [ref0] keeps the invariant
    when it leaves that room between questions with no selection, and with
    a question whenever its countdown is armed. *)
Lemma phase_inv_at ref0 w w' :
  frame (λ ref r r', ref = ref0 ∨ keeps_phase r r') (λ ref, ref ≠ ref0) w w' →
  phase_inv w →
  (∀ r', heap w' !! ref0 = Some r' →
     (acceptAnswers r' = false → unselected r')
     ∧ (∀ h, (h, TTimer ref0) ∈ pending w' → is_Some (currentQuestion r'))) →
  phase_inv w'.
Proof.
  intros (Hh & Hp & _) (HB & HD) H0. split.
  - intros ref r' Hr' Hacc. destruct (decide (ref = ref0)) as [->|Hne].
    { by apply (H0 r'). }
    specialize (Hh ref). rewrite Hr' in Hh.
    inversion Hh as [r ? [?|(Ha & Hq & Hu)] Hr|]; subst; [done|].
    symmetry in Hr. apply Hu; [congruence|]. eapply HB; [done|congruence].
  - intros h ref r' Hin Hr'. destruct (decide (ref = ref0)) as [->|Hne].
    { by apply (H0 r' Hr') with h. }
    specialize (Hh ref). rewrite Hr' in Hh.
    inversion Hh as [r ? [?|(Ha & Hq & Hu)] Hr|]; subst; [done|].
    symmetry in Hr. rewrite Hq. apply (HD h ref r); [|done].
    assert ((h, TTimer ref) ∈ tasks_for ref (pending w')) as Hin'
      by by apply elem_of_tasks_for.
    eapply elem_of_sublist in Hin'; [|by apply Hp].
    by apply elem_of_tasks_for in Hin' as [? _].
Qed.

Lemma phase_addUser ref u w :
  frame (λ _, keeps_phase) (λ _, True) w (addUser ref u w).
Proof. apply fr_addUser; kph. Qed.

Lemma phase_removeUser ref u w :
  frame (λ _, keeps_phase) (λ _, True) w (removeUser ref u w).
Proof. apply fr_removeUser; kph. Qed.

Lemma phase_sendMessage ref u t w :
  frame (λ _, keeps_phase) (λ _, True) w (sendMessage ref u t w).
Proof. apply fr_sendMessage; kph. Qed.

(** A listener selects an answer only in a room that accepts answers. *)
Lemma phase_answerListener ref u n w :
  frame (λ _, keeps_phase) (λ _, True) w (answerListener ref u n w).
Proof.
  unfold answerListener, with_room.
  destruct (heap w !! ref) as [r|] eqn:Hr; [|apply fr_phase_refl].
  destruct (userStats r !! nickname u) as [s|]; [|apply fr_phase_refl].
  destruct (selectedAnswerIndex s =? -1); [|apply fr_phase_refl].
  destruct (acceptAnswers r) eqn:Hacc; [|apply fr_phase_refl]. simpl.
  eapply frame_updRoom_at; [by intros; apply kph_refl|done|].
  split; [done|]. split; [done|]. simpl. congruence.
Qed.

Lemma phase_fireAnswer u n w :
  frame (λ _, keeps_phase) (λ _, True) w (fireAnswer u n w).
Proof.
  unfold fireAnswer. generalize (default [] (answerListeners w !! socket u)).
  intros l.
  assert (∀ w1, frame (λ _, keeps_phase) (λ _, True) w w1 →
            frame (λ _, keeps_phase) (λ _, True) w
              (fold_left (λ w l, answerListener l.1 l.2 n w) l w1)) as Hfold.
  { induction l as [|x l IH]; intros w1 H; simpl; [done|].
    apply IH. eapply frame_trans; [by intros; eapply kph_trans|done|].
    apply phase_answerListener. }
  apply Hfold, fr_phase_refl.
Qed.

Lemma fr_phase_at_refl ref0 w :
  frame (λ ref r r', ref = ref0 ∨ keeps_phase r r') (λ ref, ref ≠ ref0) w w.
Proof. apply frame_refl. intros. right. apply kph_refl. Qed.

Ltac kph_at :=
  intros;
  first [ by left
        | by right
        | by right; first [ apply kph_refl | apply kph_stats_reset ]
        | right; apply kph_stats_grade; assumption
        | eapply kph_at_trans; eassumption
        | apply fr_phase_at_refl
        | match goal with |- ¬ _ => let H := fresh in intros H; by apply H end
        | done ].

(** A move of the question source: only the delivery of a question changes
    the room, which then has the question and accepts answers. *)
Lemma phase_inv_perform ref p w : phase_inv w → phase_inv (perform ref p w).
Proof.
  intros HI. destruct p as [url k|q|e].
  - destruct HI as (HB & HD). split; [exact HB|].
    intros h ref' r. simpl. rewrite elem_of_app, list_elem_of_singleton.
    intros [Hin|Heq]; [by apply (HD h)|congruence].
  - simpl. eapply (phase_inv_at ref); [|exact HI|].
    + apply fr_onComplete; kph_at.
    + intros r' Hr'. destruct (heap w !! ref) as [r|] eqn:Hr.
      * destruct (onComplete_spec ref q w r Hr) as (Hh & _).
        rewrite Hh in Hr'. injection Hr' as <-. simpl. split; [done|].
        intros _ _. by eexists.
      * assert (frame (λ ref0 r r', ref0 = ref ∨ keeps_phase r r')
                  (λ ref0, ref0 ≠ ref) w (onComplete ref q w)) as (Hh & _).
        { apply fr_onComplete; kph_at. }
        specialize (Hh ref). rewrite Hr, Hr' in Hh. inversion Hh.
  - destruct HI as (HB & HD). split; [exact HB|].
    intros h ref' r. simpl. rewrite elem_of_app, list_elem_of_singleton.
    intros [Hin|Heq]; [by apply (HD h)|congruence].
Qed.

Lemma phase_inv_requestNewQuestion ref w :
  phase_inv w → phase_inv (requestNewQuestion ref w).
Proof.
  intros HI. unfold requestNewQuestion, with_room.
  destruct (heap w !! ref); [|done]. by apply phase_inv_perform.
Qed.

Lemma phase_inv_settle ref k res draws w :
  phase_inv w → phase_inv (settle ref k res draws w).
Proof.
  intros HI. unfold settle, with_room.
  destruct (heap w !! ref) as [r|]; [|done].
  destruct (resume (room_id r) k res draws (sessionTokens w)) as [tokens p].
  by apply phase_inv_perform.
Qed.

Lemma phase_at (Q : nat → Prop) w w' ref r :
  frame (λ _, keeps_phase) Q w w' → heap w !! ref = Some r →
  ∃ r', heap w' !! ref = Some r' ∧ keeps_phase r r'.
Proof.
  intros (Hh & _) Hr. specialize (Hh ref). rewrite Hr in Hh.
  inversion Hh; subst. eauto.
Qed.

Lemma fr_calm_refl w : frame (λ _, keeps_phase) (λ _, False) w w.
Proof. apply frame_refl. by intros. Qed.

(** What the countdown callback leaves in its room. *)
Lemma timer_room ref w w' r :
  timer ref w = Some w' → heap w !! ref = Some r →
  is_Some (currentQuestion r) → (acceptAnswers r = false → unselected r) →
  ∃ r', heap w' !! ref = Some r' ∧ currentQuestion r' = currentQuestion r
        ∧ (acceptAnswers r' = false → unselected r').
Proof.
  intros Ht Hr [q Hq] HB. revert Ht. unfold timer, with_room. rewrite Hr.
  destruct (secondsLeft r =? 0).
  - set (r1 := set_acceptAnswers false
                 (set_questionsAnswered (questionsAnswered r + 1) r)).
    match goal with
    | |- context [sendAnswerResultsAndResetSelections ref ?w0] => set (w1 := w0)
    end.
    assert (heap w1 !! ref = Some r1) as Hr1.
    { unfold w1. rewrite heap_toRoom. simpl.
      by rewrite !lookup_alter_eq, Hr. }
    destruct (sendAnswerResultsAndResetSelections ref w1) as [w2|] eqn:Hs;
      [|done]. simpl.
    assert (∃ r2, heap w2 !! ref = Some r2 ∧ acceptAnswers r2 = false
                  ∧ currentQuestion r2 = Some q ∧ unselected r2)
      as (r2 & Hr2 & Hacc2 & Hq2 & Hun2).
    { revert Hs. unfold sendAnswerResultsAndResetSelections, with_room.
      rewrite Hr1. change (currentQuestion r1) with (currentQuestion r).
      rewrite Hq.
      destruct (forEach (gradeUser ref q) (users r1) w1) as [wf|] eqn:Hf;
        [|done]. simpl. intros [= <-].
      assert (frame (λ _, keeps_phase) (λ _, False) w1 wf) as Hfr.
      { eapply fr_forEach_gradeUser; [..|apply fr_calm_refl|exact Hf]; kph. }
      destruct (phase_at _ _ _ _ _ Hfr Hr1) as (rf & Hrf & Ha & Hcq & _).
      eexists. split.
      { simpl. rewrite lookup_alter_eq.
        rewrite (un_sendUserStatsToAll heap) by done. by rewrite Hrf. }
      simpl. split; [done|]. split; [by rewrite Hcq|].
      apply unselected_reset. }
    rewrite Hr2.
    assert (∀ w3, frame (λ _, keeps_phase) (λ _, False) w2 w3 →
              ∃ r', heap w3 !! ref = Some r' ∧ currentQuestion r' = currentQuestion r
                    ∧ (acceptAnswers r' = false → unselected r')) as Hend.
    { intros w3 Hfr. destruct (phase_at _ _ _ _ _ Hfr Hr2) as (r3 & Hr3 & Ha & Hcq & Hu).
      exists r3. split; [done|]. split; [congruence|]. intros _. by apply Hu. }
    destruct (negb (isGameOver r2)).
    + intros [= <-]. apply Hend. apply frame_setTimeout; [kph|tauto].
    + destruct (deleteOnLastUser r2); intros [= <-]; apply Hend.
      * apply fr_deleteRoom; [kph..|]. apply fr_sendGameOverToAll; [kph..|].
        apply fr_calm_refl.
      * apply fr_sendGameOverToAll; [kph..|]. apply fr_calm_refl.
  - match goal with
    | |- context [setTimeout ?t ?w0] =>
        change (Some (updRoom ref (set_timerId (Z.of_nat (setTimeout t w0).1))
                        (setTimeout t w0).2) = Some w' →
                ∃ r', heap w' !! ref = Some r'
                      ∧ currentQuestion r' = currentQuestion r
                      ∧ (acceptAnswers r' = false → unselected r'))
    end.
    intros [= <-].
    match goal with
    | |- context [heap ?w3 !! ref] =>
        assert (frame (λ _, keeps_phase) (λ _, False) w w3) as Hfr
    end.
    { apply fr_updRoom; [kph|kph|kph|].
      eapply frame_trans; [by intros; eapply kph_trans| |apply frame_setTimeout; [kph|tauto]].
      case_match; [apply fr_toRoom; [kph..|]|];
        (apply fr_updRoom; [kph|kph|kph|]); apply fr_calm_refl. }
    destruct (phase_at _ _ _ _ _ Hfr Hr) as (r3 & Hr3 & Ha & Hcq & Hu).
    exists r3. split; [done|]. split; [done|]. intros Hacc.
    rewrite Ha in Hacc. auto.
Qed.

Lemma phase_inv_timer ref w w' :
  phase_inv w →
  (∀ r, heap w !! ref = Some r → is_Some (currentQuestion r)) →
  timer ref w = Some w' → phase_inv w'.
Proof.
  intros HI Hq Ht. eapply (phase_inv_at ref); [|exact HI|].
  - eapply fr_timer; [..|apply fr_phase_at_refl|exact Ht]; kph_at.
  - intros r' Hr'. destruct (heap w !! ref) as [r|] eqn:Hr.
    + destruct HI as (HB & _).
      destruct (timer_room ref w w' r Ht Hr (Hq r eq_refl) (HB ref r Hr))
        as (r'' & Hr'' & Hcq & Hu).
      rewrite Hr' in Hr''. injection Hr'' as <-. split; [done|].
      intros _ _. rewrite Hcq. by apply Hq.
    + revert Ht. unfold timer, with_room. rewrite Hr. intros [= <-]. congruence.
Qed.

Lemma phase_inv_take h t w w1 :
  take h w = Some (t, w1) → phase_inv w →
  phase_inv w1 ∧ heap w1 = heap w ∧ (h, t) ∈ pending w.
Proof.
  intros [Hin ->]%take_spec HI. split; [|done].
  eapply phase_inv_frame; [|exact HI]. apply frame_filter. by intros.
Qed.

Lemma phase_inv_makeNewRoom id nm d c w ref w' :
  game_inv w → phase_inv w → makeNewRoom id nm d c w = (ref, w') → phase_inv w'.
Proof.
  intros (J1 & _) (HB & HD). unfold makeNewRoom. intros [= <- <-].
  eapply phase_inv_frame.
  - apply fr_publish; [kph..|]. apply fr_set_rooms; [kph..|]. apply fr_phase_refl.
  - apply phase_inv_requestNewQuestion. split.
    + intros ref r. simpl. rewrite lookup_insert. case_decide; [|apply HB].
      by intros [= <-].
    + intros h ref r. simpl. rewrite lookup_insert. case_decide; [|apply HD].
      subst ref. intros Hin%J1. simpl in Hin. lia.
Qed.

Lemma phase_inv_step w ev w' :
  game_inv w → phase_inv w → step w ev = Some w' → phase_inv w'.
Proof.
  intros HJ HI.
  destruct ev as [u|u id|u|u info newId|u text|u n|u|h|h res draws];
    unfold step.
  - intros [= <-]. eapply phase_inv_frame; [apply phase_addUser|done].
  - destruct (getRoomById id w); intros [= <-]; [|done].
    eapply phase_inv_frame; [apply phase_addUser|done].
  - destruct (userRoom w !! socket u); intros [= <-]; [|done].
    eapply phase_inv_frame; [apply phase_addUser|done].
  - match goal with
    | |- context [makeNewRoom ?a ?b ?c ?d w] =>
        destruct (makeNewRoom a b c d w) as [ref w1] eqn:Hm
    end.
    intros [= <-]. eapply phase_inv_frame; [apply phase_addUser|].
    by eapply phase_inv_makeNewRoom.
  - destruct (userRoom w !! socket u); [|by intros [= <-]].
    case_decide; intros [= <-]; [done|].
    eapply phase_inv_frame; [apply phase_sendMessage|done].
  - intros [= <-]. eapply phase_inv_frame; [apply phase_fireAnswer|done].
  - destruct (userRoom w !! socket u); intros [= <-]; [|done].
    eapply phase_inv_frame; [apply phase_removeUser|done].
  - destruct (take h w) as [[t w1]|] eqn:Ht; [|by intros [= <-]].
    destruct (phase_inv_take _ _ _ _ Ht HI) as (HI1 & Hh & Hin).
    destruct t as [ref|ref|ref k]; [| |by intros [= <-]].
    + apply phase_inv_timer; [done|]. intros r. rewrite Hh.
      destruct HI as (_ & HD). by apply (HD h).
    + intros [= <-]. by apply phase_inv_requestNewQuestion.
  - destruct (take h w) as [[t w1]|] eqn:Ht; [|by intros [= <-]].
    destruct (phase_inv_take _ _ _ _ Ht HI) as (HI1 & Hh & Hin).
    destruct t as [ref|ref|ref k]; [by intros [= <-]..|].
    intros [= <-]. by apply phase_inv_settle.
Qed.

Lemma phase_inv_boot cats id : phase_inv (boot cats id).
Proof.
  unfold boot.
  destruct (makeNewRoom id "The Any Room" false None (emptyWorld cats))
    as [ref w] eqn:Hm.
  eapply phase_inv_frame.
  - apply frame_updRoom; [by intros|]. by intros r.
  - eapply phase_inv_makeNewRoom; [apply game_inv_emptyWorld| |done]. split.
    + intros ref' r. simpl. rewrite lookup_singleton. case_decide; [|done].
      intros [= <-] _ nick s. simpl. by rewrite lookup_empty.
    + intros h ref' r Hin. simpl in Hin. by apply elem_of_nil in Hin.
Qed.

Lemma phase_inv_reachable w : reachable w → phase_inv w.
Proof.
  intros (cats & id & evs & Hs).
  pose proof (phase_inv_boot cats id) as HI.
  pose proof (game_inv_boot cats id) as HJ.
  revert Hs HI HJ. generalize (boot cats id).
  induction evs as [|ev evs IH]; intros w0; simpl.
  - by intros [= <-].
  - destruct (step w0 ev) as [w1|] eqn:Hst; [|done]. simpl.
    intros Hs HI HJ. apply (IH w1 Hs).
    + by eapply phase_inv_step.
    + by eapply game_inv_step.
Qed.

(** X16.  In every state the server can reach, a room that does not accept
    answers (from the end of a question until the next one arrives) has no
    answer selected by anyone: the grading pass has reset them all and no
    listener records one.  So the question that arrives next starts with
    no selection: its delivery leaves the statistics as they are and opens
    the room for answers.  (A new room accepts answers from its creation,
    before its first question.) *)
Theorem no_selection_between_questions (w : World) (ref : nat) (r : Room) :
  reachable w → heap w !! ref = Some r → acceptAnswers r = false →
  (∀ nick s, userStats r !! nick = Some s → selectedAnswerIndex s = -1)
  ∧ (∀ user n, answerListener ref user n w = w)
  ∧ (∀ q, ∃ r', heap (onComplete ref q w) !! ref = Some r'
        ∧ acceptAnswers r' = true ∧ currentQuestion r' = Some q
        ∧ userStats r' = userStats r
        ∧ ∀ nick s, userStats r' !! nick = Some s → selectedAnswerIndex s = -1).
Proof.
  intros Hreach Hr Hacc.
  assert (unselected r) as Hun.
  { destruct (phase_inv_reachable w Hreach) as (HB & _). by eapply HB. }
  split; [exact Hun|]. split.
  - intros user n. by eapply answerListener_locked.
  - intros q. destruct (onComplete_spec ref q w r Hr) as (Hh & _).
    eexists. split; [exact Hh|]. simpl. done.
Qed.

Lemma no_selection_between_questions_witness :
  (∀ nick s, userStats (roomOf (worldOf firstGraded) 2) !! nick = Some s →
     selectedAnswerIndex s = -1)
  ∧ (∀ user n, answerListener 2 user n (worldOf firstGraded) = worldOf firstGraded)
  ∧ (∀ q, ∃ r', heap (onComplete 2 q (worldOf firstGraded)) !! 2%nat = Some r'
        ∧ acceptAnswers r' = true ∧ currentQuestion r' = Some q
        ∧ userStats r' = userStats (roomOf (worldOf firstGraded) 2)
        ∧ ∀ nick s, userStats r' !! nick = Some s → selectedAnswerIndex s = -1).
Proof.
  apply (no_selection_between_questions (worldOf firstGraded) 2
           (roomOf (worldOf firstGraded) 2)).
  - apply (reachable_worldOf firstGraded). vm_compute. reflexivity.
  - vm_compute. reflexivity.
  - vm_compute. reflexivity.
Defined.

(** ** The countdown *)

Lemma kc_refl r : keeps_clock r r.
Proof. done. Qed.
























(** The room of the example has its first question and has counted down
    to -6. *)
Example stuck_below_zero :
  secondsLeft (roomOf (worldOf stuck) 2) = -6
  ∧ is_Some (currentQuestion (roomOf (worldOf stuck) 2))
  ∧ acceptAnswers (roomOf (worldOf stuck) 2) = true.
Proof. vm_compute. split; [reflexivity|]. split; [by eexists|reflexivity]. Qed.

(** ** Creating a room *)

Lemma getTriviaQuestionAsync_requests id c tokens :
  ∃ url k, getTriviaQuestionAsync id c tokens = Request url k.
Proof.
  unfold getTriviaQuestionAsync, getTokenThenRequestQuestion.
  destruct (tokens !! id); eauto.
Qed.

Lemma heap_requestNewQuestion ref w : heap (requestNewQuestion ref w) = heap w.
Proof.
  unfold requestNewQuestion, with_room. destruct (heap w !! ref) as [r|]; [|done].
  by destruct (getTriviaQuestionAsync_requests (room_id r) (config r)
                 (sessionTokens w)) as (url & k & ->).
Qed.

Lemma makeNewRoom_heap id nm d c w :
  (makeNewRoom id nm d c w).1 = nextRoom w
  ∧ heap (makeNewRoom id nm d c w).2
    = <[nextRoom w := newTriviaRoom id nm d (default defaultConfiguration c)]>
        (heap w).
Proof.
  unfold makeNewRoom. simpl. split; [done|].
  rewrite heap_publish. simpl. by rewrite heap_requestNewQuestion.
Qed.

(** The listing loses at most the identifier of the room that a user
    leaves. *)
Lemma rooms_setRoom u o w : rooms (setRoom u o w) = rooms w.
Proof. unfold setRoom, with_room, emit. repeat case_match; reflexivity. Qed.

Lemma rooms_RoomBase_removeUser ref user w :
  rooms (RoomBase_removeUser ref user w) = rooms w.
Proof.
  unfold RoomBase_removeUser, with_room. case_match; [|done].
  unfold sendUserLeft, leaveRoom. rewrite (un_toRoom rooms) by done.
  by rewrite rooms_setRoom.
Qed.

Lemma rooms_deleteRoom ref w r :
  heap w !! ref = Some r →
  rooms (deleteRoom ref w) = rooms w
  ∨ rooms (deleteRoom ref w) = delete_key (room_id r) (rooms w).
Proof.
  intros Hr. unfold deleteRoom, with_room. rewrite Hr.
  case_match; [|by left]. right. by rewrite (un_publish rooms).
Qed.

Lemma rooms_removeUser ref user w r :
  heap w !! ref = Some r →
  rooms (removeUser ref user w) = rooms w
  ∨ rooms (removeUser ref user w) = delete_key (room_id r) (rooms w).
Proof.
  intros Hr. unfold removeUser, with_room. rewrite Hr. destruct (cls r).
  - left. unfold Lobby_removeUser. rewrite (un_emit rooms) by done.
    apply rooms_RoomBase_removeUser.
  - unfold TriviaRoom_removeUser.
    match goal with
    | |- context [with_room ref ?w0 _ _] => set (w1 := w0)
    end.
    assert (rooms w1 = rooms w) as Hrooms.
    { unfold w1, sendLeftGameRoom.
      rewrite (un_sendUserStatsToAll rooms), (un_emit rooms) by done. simpl.
      apply rooms_RoomBase_removeUser. }
    assert (∃ r1, heap w1 !! ref = Some r1 ∧ room_id r1 = room_id r)
      as (r1 & Hr1 & Hid).
    { assert (frame same_room (λ _, False) w w1) as (Hh & _).
      { unfold w1. apply fr_sendUserStatsToAll; [sr..|].
        apply fr_sendLeftGameRoom; [sr..|].
        apply fr_set_answerListeners; [sr..|]. apply fr_updRoom; [sr..|].
        apply fr_RoomBase_removeUser; sr. }
      specialize (Hh ref). rewrite Hr in Hh.
      inversion Hh as [x r1 HR Hx Hr1|]; subst. destruct HR. eauto. }
    unfold with_room. rewrite Hr1.
    destruct (bool_decide (length (users r1) = 0%nat) && deleteOnLastUser r1).
    + destruct (rooms_deleteRoom ref w1 r1 Hr1) as [->| ->]; [by left|right].
      by rewrite Hrooms, Hid.
    + left. by rewrite (un_publish rooms).
Qed.

Lemma rooms_RoomBase_addUser ref user w :
  rooms (RoomBase_addUser ref user w) = rooms w
  ∨ ∃ prev rp, userRoom w !! socket user = Some prev ∧ heap w !! prev = Some rp
      ∧ rooms (RoomBase_addUser ref user w) = delete_key (room_id rp) (rooms w).
Proof.
  unfold RoomBase_addUser, with_room.
  destruct (heap w !! ref) as [r|]; [|by left].
  destruct (isUserInRoom r user); [by left|].
  match goal with
  | |- context [updRoom ref ?f ?w0] => set (w1 := w0)
  end.
  assert (rooms (sendUserList ref user
                   (sendUserJoined ref user
                      (setRoom user (Some ref)
                         (updRoom ref (set_users (λ us, us ++ [user])) w1))))
          = rooms w1) as ->.
  { unfold sendUserList, sendUserJoined, with_room.
    case_match; rewrite ?(un_emit rooms), (un_toRoom rooms) by done;
      by rewrite rooms_setRoom. }
  unfold w1. destruct (userRoom w !! socket user) as [prev|] eqn:Hprev; [|by left].
  destruct (heap w !! prev) as [rp|] eqn:Hrp.
  - destruct (rooms_removeUser prev user w rp Hrp) as [->| ->]; [by left|].
    right. by exists prev, rp.
  - left. unfold removeUser, with_room. by rewrite Hrp.
Qed.

Lemma rooms_addUser ref user w :
  rooms (addUser ref user w) = rooms w
  ∨ ∃ prev rp, userRoom w !! socket user = Some prev ∧ heap w !! prev = Some rp
      ∧ rooms (addUser ref user w) = delete_key (room_id rp) (rooms w).
Proof.
  unfold addUser, with_room. destruct (heap w !! ref) as [r|]; [|by left].
  destruct (cls r).
  - unfold Lobby_addUser, sendRoomListToUser. rewrite !(un_emit rooms) by done.
    apply rooms_RoomBase_addUser.
  - assert (rooms (TriviaRoom_addUser ref user w)
            = rooms (RoomBase_addUser ref user w)) as ->
      by (unfold TriviaRoom_addUser; silent_eq).
    apply rooms_RoomBase_addUser.
Qed.

(** X19.  On a running server, ['create room'] from a user who has a
    nickname allocates a game room with the rules of the message (any
    category if the category is not known), the identifier drawn and
    [deleteOnLastUser] set; the user is its only member, with fresh
    statistics, and has left the room the user was in; the other members
    of every room stay.  The room is listed under its identifier unless the
    room that the user leaves has the same identifier. *)
Theorem create_room_moves_creator_in (sv : Server) (s : nat) (user : User)
    (info : CreateRoomInfo) (draws : list nat) :
  live sv → findUser s sv = Some user → nickname user ≠ "" →
  let ref := nextRoom (world sv) in
  ∃ sv' r', receive sv (FromClient s (OnCreateRoom info draws)) = Some sv'
    ∧ allUsers sv' = allUsers sv
    ∧ heap (world sv) !! ref = None
    ∧ heap (world sv') !! ref = Some r'
    ∧ cls r' = TriviaClass ∧ room_id r' = generateId draws
    ∧ name r' = ri_name info ∧ deleteOnLastUser r' = true
    ∧ config r'
      = mkRoomConfiguration
          (getCategoryById (categories (world sv)) (ri_categoryId info))
          (ri_difficulty info) (ri_maxSeconds info)
          (ri_canSkipQuestions info) (ri_questionCount info)
    ∧ users r' = [user]
    ∧ userStats r' = {[ nickname user := newUserStatistics ]}
    ∧ userRoom (world sv') !! s = Some ref
    ∧ (∀ ref0 r0, heap (world sv) !! ref0 = Some r0 →
         ∃ r1, heap (world sv') !! ref0 = Some r1
           ∧ users r1 = filter (λ u, u ≠ user) (users r0))
    ∧ ((∀ prev rp, userRoom (world sv) !! s = Some prev →
          heap (world sv) !! prev = Some rp → room_id rp ≠ generateId draws) →
       getRoomById (generateId draws) (world sv') = Some ref).
Proof.
  intros Hlive Hf Hn ref. pose proof (live_inv _ Hlive) as (HU & HM & HR).
  pose proof (game_inv_reachable _ HR) as HJ.
  pose proof (directory_inv_reachable _ HR) as HD.
  set (w := world sv) in *. set (id := generateId draws).
  set (c := mkRoomConfiguration
              (getCategoryById (categories w) (ri_categoryId info))
              (ri_difficulty info) (ri_maxSeconds info)
              (ri_canSkipQuestions info) (ri_questionCount info)).
  assert (receive sv (FromClient s (OnCreateRoom info draws))
          = Some (set_world
                    (λ _, addUser (makeNewRoom id (ri_name info) true (Some c) w).1
                            user (makeNewRoom id (ri_name info) true (Some c) w).2)
                    sv)) as Hrecv.
  { simpl. rewrite Hf. rewrite decide_False by done. reflexivity. }
  apply findUser_spec in Hf as [Hin <-].
  destruct (makeNewRoom_heap id (ri_name info) true (Some c) w) as (H1 & Hheap).
  destruct (members_inv_makeNewRoom (allUsers sv) id (ri_name info) true (Some c)
              w HJ HM) as (HM1 & _).
  destruct (directory_inv_makeNewRoom id (ri_name info) true (Some c) w HJ HD)
    as (_ & Hget).
  pose proof (userRoom_makeNewRoom id (ri_name info) true (Some c) w) as Hur1.
  rewrite H1 in Hrecv, Hget. fold ref in Hrecv, Hget, Hheap.
  set (w1 := (makeNewRoom id (ri_name info) true (Some c) w).2) in *.
  set (r0 := newTriviaRoom id (ri_name info) true c) in *.
  assert (heap w !! ref = None) as Hfresh.
  { destruct HJ as (_ & J2 & _). destruct (heap w !! ref) eqn:Hr; [|done].
    apply J2 in Hr. unfold ref in Hr. lia. }
  assert (heap w1 !! ref = Some r0) as Hr0 by by rewrite Hheap, lookup_insert_eq.
  destruct (members_inv_addUser _ _ _ _ _ HU HM1 Hin Hn Hr0)
    as (HM2 & Hur2 & Heff).
  assert (isUserInRoom r0 user = false) as Hnot.
  { destruct (isUserInRoom r0 user) eqn:Hx; [|done].
    apply isUserInRoom_spec in Hx. by apply elem_of_nil in Hx. }
  rewrite Hnot in Heff.
  destruct (Heff _ _ Hr0) as (r' & Hr' & Hcls & Husers).
  rewrite decide_True in Husers by done.
  assert (room_id r' = id ∧ name r' = ri_name info ∧ config r' = c
          ∧ deleteOnLastUser r' = true) as (Hid & Hname & Hcfg & Hdel).
  { assert (frame (λ _ a b, room_id b = room_id a ∧ name b = name a
                            ∧ config b = config a
                            ∧ deleteOnLastUser b = deleteOnLastUser a)
              (λ _, False) w1 (addUser ref user w1)) as (Hh & _).
    { apply fr_addUser; try done.
      - intros ? a b c0 (?&?&?&?) (?&?&?&?). repeat split; congruence.
      - apply frame_refl. by intros. }
    specialize (Hh ref). rewrite Hr0, Hr' in Hh.
    inversion Hh as [? ? (?&?&?&?)|]; subst. done. }
  assert (userStats r' = {[ nickname user := newUserStatistics ]}) as Hstats.
  { apply map_eq. intros k. destruct (decide (k = nickname user)) as [->|Hk].
    - rewrite lookup_singleton_eq.
      destruct (addUser_class_heap ref user w1 r0 Hr0) as (Hh & _).
      rewrite Hh in Hr'. change (cls r0) with TriviaClass in Hr'.
      apply lookup_alter_Some in Hr' as [(_ & rm & _ & ->)|[? _]]; [|done].
      simpl. apply lookup_insert_eq.
    - rewrite lookup_singleton_ne by done.
      destruct HM2 as (M1 & _). destruct (M1 _ _ Hr') as (_ & _ & Hst).
      destruct (userStats r' !! k) eqn:Hlook; [|done].
      destruct (proj1 (Hst Hcls k)) as (member & Hmem & Hnick); [by eexists|].
      rewrite Husers in Hmem. apply list_elem_of_singleton in Hmem. congruence. }
  eexists _, r'. split; [exact Hrecv|]. simpl.
  split; [done|]. split; [done|]. split; [done|]. split; [done|].
  split; [done|]. split; [done|]. split; [done|]. split; [done|].
  split; [done|]. split; [done|].
  split; [by rewrite Hur2, lookup_insert_eq|]. split.
  - intros ref0 rp Hrp.
    assert (ref0 ≠ ref) as Hne by congruence.
    assert (heap w1 !! ref0 = Some rp) as Hrp1
      by by rewrite Hheap, lookup_insert_ne.
    destruct (Heff _ _ Hrp1) as (r1 & Hr1 & _ & Hus1).
    rewrite decide_False in Hus1 by done. eauto.
  - intros Hother. unfold getRoomById in *.
    destruct (rooms_addUser ref user w1) as [->|(prev & rp & Hprev & Hrp & ->)];
      [done|].
    rewrite get_key_delete_key. rewrite decide_False; [done|].
    rewrite Hur1 in Hprev.
    assert (prev ≠ ref) as Hne.
    { destruct HM as (_ & M2). destruct (M2 _ _ Hprev) as (x & _ & Hx & _).
      congruence. }
    rewrite Hheap, lookup_insert_ne in Hrp by done.
    intros Heq. by apply (Hother prev rp).
Qed.

Lemma create_room_moves_creator_in_witness :
  let ref := nextRoom (world (serverOf arrival)) in
  ∃ sv' r',
    receive (serverOf arrival) (FromClient 1 (OnCreateRoom threeQuestions [1%nat]))
    = Some sv'
    ∧ allUsers sv' = allUsers (serverOf arrival)
    ∧ heap (world (serverOf arrival)) !! ref = None
    ∧ heap (world sv') !! ref = Some r'
    ∧ cls r' = TriviaClass ∧ room_id r' = generateId [1%nat]
    ∧ name r' = ri_name threeQuestions ∧ deleteOnLastUser r' = true
    ∧ config r'
      = mkRoomConfiguration
          (getCategoryById (categories (world (serverOf arrival)))
             (ri_categoryId threeQuestions))
          (ri_difficulty threeQuestions) (ri_maxSeconds threeQuestions)
          (ri_canSkipQuestions threeQuestions) (ri_questionCount threeQuestions)
    ∧ users r' = [alice]
    ∧ userStats r' = {[ nickname alice := newUserStatistics ]}
    ∧ userRoom (world sv') !! 1%nat = Some ref
    ∧ (∀ ref0 r0, heap (world (serverOf arrival)) !! ref0 = Some r0 →
         ∃ r1, heap (world sv') !! ref0 = Some r1
           ∧ users r1 = filter (λ u, u ≠ alice) (users r0))
    ∧ ((∀ prev rp, userRoom (world (serverOf arrival)) !! 1%nat = Some prev →
          heap (world (serverOf arrival)) !! prev = Some rp →
          room_id rp ≠ generateId [1%nat]) →
       getRoomById (generateId [1%nat]) (world sv') = Some ref).
Proof.
  apply (create_room_moves_creator_in (serverOf arrival) 1 alice threeQuestions
           [1%nat]).
  - apply (live_serverOf arrival). vm_compute. reflexivity.
  - vm_compute. reflexivity.
  - discriminate.
Defined.

(** When the identifier of the room that the creator leaves is drawn again,
    the new room ends up unlisted: leaving empties the old room, and
    deleting it takes the shared identifier out of the listing. *)
Example colliding_identifier_unlists_room :
  getRoomById "baaaa" (world (serverOf created)) = Some 2%nat
  ∧ userRoom (world (serverOf createdTwice)) !! 1%nat = Some 3%nat
  ∧ room_id (roomOf (world (serverOf createdTwice)) 3) = "baaaa"
  ∧ getRoomById "baaaa" (world (serverOf createdTwice)) = None
  ∧ getRoomIdList (world (serverOf createdTwice)) = ["aaaaa"].
Proof. vm_compute. repeat split; reflexivity. Qed.

(** ** Listed rooms have members *)

(** The last member who leaves a room that is deleted with its last user
    takes its identifier out of the listing. *)
Lemma removeUser_unlists ref user w r :
  heap w !! ref = Some r → cls r = TriviaClass → deleteOnLastUser r = true →
  Js.splice1 (Js.findIndex (λ u, bool_decide (u = user)) (users r)) (users r) = [] →
  getRoomById (room_id r) (removeUser ref user w) = None.
Proof.
  intros Hr Hcls Hdel Hlast. unfold removeUser, with_room. rewrite Hr, Hcls.
  unfold TriviaRoom_removeUser.
  match goal with
  | |- context [with_room ref ?w0 _ _] => set (w1 := w0)
  end.
  assert (rooms w1 = rooms w) as Hrooms.
  { unfold w1, sendLeftGameRoom.
    rewrite (un_sendUserStatsToAll rooms), (un_emit rooms) by done. simpl.
    apply rooms_RoomBase_removeUser. }
  set (r1 := set_userStats (delete (nickname user))
               (set_users
                  (Js.splice1
                     (Js.findIndex (λ u, bool_decide (u = user)) (users r)))
                  r)).
  assert (heap w1 !! ref = Some r1) as Hr1.
  { unfold w1, sendLeftGameRoom.
    rewrite (un_sendUserStatsToAll heap), (un_emit heap) by done. simpl.
    rewrite (RoomBase_removeUser_heap _ _ _ _ Hr).
    by rewrite !lookup_alter_eq, Hr. }
  unfold with_room. rewrite Hr1.
  change (users r1)
    with (Js.splice1 (Js.findIndex (λ u, bool_decide (u = user)) (users r))
            (users r)).
  change (deleteOnLastUser r1) with (deleteOnLastUser r).
  rewrite Hlast, Hdel. simpl.
  unfold deleteRoom, with_room. rewrite Hr1. change (room_id r1) with (room_id r).
  unfold getRoomById. destruct (has_key (room_id r) (rooms w1)) eqn:Hkey.
  - rewrite (un_publish rooms) by done. simpl.
    rewrite get_key_delete_key. by rewrite decide_True.
  - apply get_key_None. unfold has_key in Hkey.
    by apply bool_decide_eq_false in Hkey.
Qed.

Lemma rooms_addUser_eq ref user w r :
  heap w !! ref = Some r →
  rooms (addUser ref user w)
  = if isUserInRoom r user then rooms w
    else match userRoom w !! socket user with
         | Some prev => rooms (removeUser prev user w)
         | None => rooms w
         end.
Proof.
  intros Hr.
  assert (rooms (addUser ref user w) = rooms (RoomBase_addUser ref user w)) as ->.
  { unfold addUser, with_room. rewrite Hr. destruct (cls r).
    - unfold Lobby_addUser, sendRoomListToUser. by rewrite !(un_emit rooms).
    - unfold TriviaRoom_addUser. silent_eq. }
  unfold RoomBase_addUser, with_room. rewrite Hr.
  destruct (isUserInRoom r user); [done|].
  match goal with
  | |- context [updRoom ref ?f ?w0] => set (w1 := w0)
  end.
  assert (rooms (sendUserList ref user
                   (sendUserJoined ref user
                      (setRoom user (Some ref)
                         (updRoom ref (set_users (λ us, us ++ [user])) w1))))
          = rooms w1) as ->.
  { unfold sendUserList, sendUserJoined, with_room.
    case_match; rewrite ?(un_emit rooms), (un_toRoom rooms) by done;
      by rewrite rooms_setRoom. }
  unfold w1. by destruct (userRoom w !! socket user).
Qed.

Lemma rooms_makeNewRoom id nm d c w :
  rooms (makeNewRoom id nm d c w).2 = set_key id (nextRoom w) (rooms w).
Proof.
  unfold makeNewRoom. simpl. rewrite (un_publish rooms) by done. simpl.
  by rewrite (un_requestNewQuestion rooms).
Qed.

Lemma sp_trans ref a b c : same_party ref a b → same_party ref b c → same_party ref a c.
Proof. intros (? & ?) (? & ?). split; congruence. Qed.

Ltac sp :=
  intros;
  first [ by split | eapply sp_trans; eassumption | apply frame_refl; by split
        | tauto ].

Lemma deleteOnLastUser_addUser ref user w ref0 r0 r0' :
  heap w !! ref0 = Some r0 → heap (addUser ref user w) !! ref0 = Some r0' →
  deleteOnLastUser r0' = deleteOnLastUser r0.
Proof.
  intros Hr0 Hr0'.
  assert (frame (λ _ a b, deleteOnLastUser b = deleteOnLastUser a) (λ _, False)
            w (addUser ref user w)) as (Hh & _).
  { apply fr_addUser; try done; [intros; congruence|]. apply frame_refl. done. }
  specialize (Hh ref0). rewrite Hr0, Hr0' in Hh. by inversion Hh.
Qed.

Lemma deleteOnLastUser_removeUser ref user w ref0 r0 r0' :
  heap w !! ref0 = Some r0 → heap (removeUser ref user w) !! ref0 = Some r0' →
  deleteOnLastUser r0' = deleteOnLastUser r0.
Proof.
  intros Hr0 Hr0'.
  assert (frame (λ _ a b, deleteOnLastUser b = deleteOnLastUser a) (λ _, False)
            w (removeUser ref user w)) as (Hh & _).
  { apply fr_removeUser; try done; [intros; congruence|]. apply frame_refl. done. }
  specialize (Hh ref0). rewrite Hr0, Hr0' in Hh. by inversion Hh.
Qed.

Lemma listed_inv_quiet w w' :
  listing_shrinks w w' → frame same_party (λ _, False) w w' →
  listed_inv w → listed_inv w'.
Proof.
  intros (_ & Hsub) (Hh & _) HL id ref r' Hg Hr' Hdel.
  specialize (Hh ref). rewrite Hr' in Hh.
  inversion Hh as [r ? (Hu & Hd) Hr|]; subst. symmetry in Hr.
  rewrite Hu. eapply HL; [by apply Hsub|done|congruence].
Qed.

Lemma listed_inv_removeUser U w user prev :
  names_ok U → members_inv U w → directory_inv w → listed_inv w → user ∈ U →
  userRoom w !! socket user = Some prev →
  listed_inv (removeUser prev user w).
Proof.
  intros HU HM HD HL Hin Hprev id ref0 r0' Hg Hr0' Hdel.
  destruct (members_inv_removeUser _ _ _ _ HU HM Hin Hprev) as (_ & _ & Heff).
  assert (listing_shrinks w (removeUser prev user w)) as (_ & Hsub)
    by (apply ev_removeUser; ls).
  pose proof (Hsub _ _ Hg) as Hg0.
  destruct HD as (_ & Hd). destruct (Hd _ _ Hg0) as (r0 & Hr0 & Hcls & Hid).
  destruct (Heff _ _ Hr0) as (r0'' & Hr0'' & Hus & _).
  rewrite Hr0' in Hr0''. injection Hr0'' as <-.
  rewrite (deleteOnLastUser_removeUser _ _ _ _ _ _ Hr0 Hr0') in Hdel.
  destruct (members_inv_member _ _ _ _ HU HM Hin Hprev) as (rp & Hrp & Hmem).
  destruct (decide (ref0 = prev)) as [->|Hne].
  - rewrite Hrp in Hr0. injection Hr0 as ->. intros Hempty.
    destruct HM as (M1 & _). destruct (M1 _ _ Hrp) as (Hnd & _).
    destruct (splice1_member_NoDup user (users r0) Hmem Hnd) as (_ & _ & Hsp).
    rewrite <- Hus, Hempty in Hsp.
    pose proof (removeUser_unlists prev user w r0 Hrp Hcls Hdel Hsp) as Hnone.
    rewrite Hid in Hnone. congruence.
  - rewrite Hus, filter_ne_notin; [by eapply HL|].
    intros Hx. destruct HM as (M1 & _). destruct (M1 _ _ Hr0) as (_ & Hm & _).
    destruct (Hm user Hx) as (_ & _ & ?). congruence.
Qed.

Lemma listed_inv_addUser U w user ref r :
  names_ok U → members_inv U w → directory_inv w → user ∈ U →
  nickname user ≠ "" → heap w !! ref = Some r →
  (∀ id ref0 r0, ref0 ≠ ref → getRoomById id w = Some ref0 →
     heap w !! ref0 = Some r0 → deleteOnLastUser r0 = true → users r0 ≠ []) →
  listed_inv (addUser ref user w).
Proof.
  intros HU HM HD Hin Hn Hr HL id ref0 r0' Hg Hr0' Hdel.
  destruct (members_inv_addUser _ _ _ _ _ HU HM Hin Hn Hr) as (_ & _ & Heff).
  assert (listing_shrinks w (addUser ref user w)) as (_ & Hsub)
    by (apply ev_addUser; ls).
  pose proof (Hsub _ _ Hg) as Hg0.
  destruct HD as (_ & Hd). destruct (Hd _ _ Hg0) as (r0 & Hr0 & Hcls & Hid).
  destruct (Heff _ _ Hr0) as (r0'' & Hr0'' & _ & Hus).
  rewrite Hr0' in Hr0''. injection Hr0'' as <-.
  rewrite (deleteOnLastUser_addUser _ _ _ _ _ _ Hr0 Hr0') in Hdel.
  pose proof (rooms_addUser_eq ref user w r Hr) as Hrooms.
  destruct (isUserInRoom r user) eqn:Hmem.
  - rewrite Hus. destruct (decide (ref0 = ref)) as [->|Hne]; [|by eapply HL].
    rewrite Hr in Hr0. injection Hr0 as <-.
    apply isUserInRoom_spec in Hmem. intros Hempty. rewrite Hempty in Hmem.
    by apply elem_of_nil in Hmem.
  - destruct (decide (ref0 = ref)) as [->|Hne].
    { rewrite Hus. intros Hempty. by apply app_nil in Hempty as [_ ?]. }
    rewrite Hus.
    destruct (decide (user ∈ users r0)) as [Hx|Hx];
      [|rewrite filter_ne_notin by done; by eapply HL].
    destruct HM as (M1 & M2). destruct (M1 _ _ Hr0) as (Hnd & Hm & _).
    destruct (Hm user Hx) as (_ & _ & Hprev). rewrite Hprev in Hrooms.
    intros Hempty.
    destruct (splice1_member_NoDup user (users r0) Hx Hnd) as (_ & _ & Hsp).
    rewrite Hempty in Hsp.
    pose proof (removeUser_unlists ref0 user w r0 Hr0 Hcls Hdel Hsp) as Hnone.
    unfold getRoomById in Hg, Hnone. rewrite Hrooms in Hg. rewrite Hid in Hnone.
    congruence.
Qed.

Lemma listed_inv_addUser_any U w user ref :
  names_ok U → members_inv U w → directory_inv w → listed_inv w →
  user ∈ U → nickname user ≠ "" →
  listed_inv (addUser ref user w).
Proof.
  intros HU HM HD HL Hin Hn. destruct (heap w !! ref) as [r|] eqn:Hr.
  - eapply listed_inv_addUser; [done..|]. intros id ref0 r0 _. apply HL.
  - by rewrite addUser_no_room.
Qed.

Lemma listed_inv_step U w ev w' :
  names_ok U → game_inv w → members_inv U w → directory_inv w → listed_inv w →
  (∀ u, mover ev = Some u → u ∈ U ∧ nickname u ≠ "") →
  step w ev = Some w' → listed_inv w'.
Proof.
  intros HU HJ HM HD HL Hact.
  destruct ev as [u|u id|u|u info newId|u text|u n|u|h|h res draws];
    unfold step; try (destruct (Hact u eq_refl) as (Hin & Hn)); clear Hact.
  - intros [= <-]. by eapply listed_inv_addUser_any.
  - destruct (getRoomById id w); intros [= <-]; [|done].
    by eapply listed_inv_addUser_any.
  - destruct (userRoom w !! socket u); intros [= <-]; [|done].
    by eapply listed_inv_addUser_any.
  - match goal with
    | |- context [makeNewRoom ?a ?b ?c ?d w] =>
        pose proof (members_inv_makeNewRoom U a b c d w HJ HM) as (HM1 & _);
        pose proof (directory_inv_makeNewRoom a b c d w HJ HD) as (HD1 & Hget);
        pose proof (makeNewRoom_heap a b c d w) as (H1 & Hheap);
        pose proof (rooms_makeNewRoom a b c d w) as Hrooms;
        destruct (makeNewRoom a b c d w) as [ref w1] eqn:Hm
    end.
    simpl in *. subst ref. intros [= <-].
    eapply listed_inv_addUser; [done..| |].
    + rewrite Hheap. apply lookup_insert_eq.
    + intros id ref0 r0 Hne Hg Hr0. unfold getRoomById in Hg.
      rewrite Hrooms in Hg. rewrite Hheap, lookup_insert_ne in Hr0 by done.
      destruct (decide (id = newId)) as [->|Hid].
      * rewrite get_key_set_key_eq in Hg. congruence.
      * rewrite get_key_set_key_ne in Hg by done. by eapply HL.
  - destruct (userRoom w !! socket u); [|by intros [= <-]].
    case_decide; intros [= <-]; [done|].
    eapply listed_inv_quiet; [| |exact HL].
    + apply ev_sendMessage; ls.
    + apply fr_sendMessage; sp.
  - intros [= <-]. eapply listed_inv_quiet; [| |exact HL].
    + apply ev_fireAnswer; ls.
    + apply fr_fireAnswer; sp.
  - destruct (userRoom w !! socket u) as [prev|] eqn:Hprev; intros [= <-]; [|done].
    by eapply listed_inv_removeUser.
  - destruct (take h w) as [[t w1]|] eqn:Ht; [|by intros [= <-]].
    assert (listed_inv w1) as HL1.
    { eapply listed_inv_quiet; [| |exact HL].
      - eapply ev_take; [| |apply ls_refl|exact Ht]; ls.
      - apply take_spec in Ht as [_ ->]. apply frame_filter. done. }
    destruct t as [ref|ref|ref k]; [| |by intros [= <-]].
    + intros Hw'. eapply listed_inv_quiet; [| |exact HL1].
      * eapply ev_timer; [..|apply ls_refl|exact Hw']; ls.
      * eapply fr_timer; [..|apply frame_refl|exact Hw']; sp.
    + intros [= <-]. eapply listed_inv_quiet; [| |exact HL1].
      * apply ev_requestNewQuestion; ls.
      * apply fr_requestNewQuestion; sp.
  - destruct (take h w) as [[t w1]|] eqn:Ht; [|by intros [= <-]].
    assert (listed_inv w1) as HL1.
    { eapply listed_inv_quiet; [| |exact HL].
      - eapply ev_take; [| |apply ls_refl|exact Ht]; ls.
      - apply take_spec in Ht as [_ ->]. apply frame_filter. done. }
    destruct t as [ref|ref|ref k]; [by intros [= <-]..|].
    intros [= <-]. eapply listed_inv_quiet; [| |exact HL1].
    + apply ev_settle; ls.
    + apply fr_settle; sp.
Qed.

Lemma receive_listed sv ev sv' :
  server_inv sv → listed_inv (world sv) →
  receive sv ev = Some sv' → listed_inv (world sv').
Proof.
  intros HI HL. pose proof HI as (HU & HM & HR).
  pose proof (directory_inv_reachable _ HR) as HD.
  assert (∀ e sv1, (∀ u, mover e = Some u → u ∈ allUsers sv ∧ nickname u ≠ "") →
            turn e sv = Some sv1 → listed_inv (world sv1)) as Hturn.
  { intros e sv1 Hact Ht. destruct (turn_inv _ _ _ HI Hact Ht) as (_ & _ & Hs).
    eapply listed_inv_step; [exact HU|by apply game_inv_reachable|done..]. }
  destruct ev as [s|s m|h|h res draws]; simpl.
  - case_bool_decide as Hs; by intros [= <-].
  - destruct (findUser s sv) as [user|] eqn:Hf; [|by intros [= <-]].
    apply findUser_spec in Hf as [Hin Hs].
    destruct m as [nick|id| |info draws|text| |n|].
    + intros [= <-].
      destruct (String.length (nickname user) =? 0)%nat eqn:Hlen;
        [|unfold setNickname; by rewrite Hlen].
      destruct (isNicknameValid nick) eqn:Hvalid;
        [|unfold setNickname; by rewrite Hlen, Hvalid].
      destruct (isNicknameTaken nick sv) eqn:Htaken;
        [unfold setNickname; by rewrite Hlen, Hvalid, Htaken|].
      apply Nat.eqb_eq, length_zero_empty in Hlen.
      rewrite setNickname_accepted by done. simpl.
      set (named := mkUser (socket user) nick).
      set (U' := (λ u, if decide (u = user) then named else u) <$> allUsers sv).
      assert (names_ok U') as HU'.
      { apply names_ok_named; [done..|]. by apply isNicknameTaken_false. }
      assert (members_inv U' (world sv)) as HM'.
      { eapply members_inv_users; [|exact HM]. intros u Hu [ref Hroom].
        apply list_elem_of_fmap. exists u. split; [|done].
        rewrite decide_False; [done|]. intros ->.
        rewrite (unnamed_no_room _ _ _ HU HM Hin Hlen) in Hroom. done. }
      assert (named ∈ U') as Hnamed.
      { apply list_elem_of_fmap. exists user. by rewrite decide_True. }
      assert (nickname named ≠ "") as Hnn by by apply isNicknameValid_nonempty.
      by eapply listed_inv_addUser_any.
    + case_decide as Hn; [by intros [= <-]|].
      apply Hturn. by intros u [= <-].
    + case_decide as Hn; [by intros [= <-]|].
      apply Hturn. by intros u [= <-].
    + case_decide as Hn; [by intros [= <-]|].
      apply Hturn. by intros u [= <-].
    + case_decide as Hn; [by intros [= <-]|]. apply Hturn. done.
    + case_decide as Hn; by intros [= <-].
    + apply Hturn. done.
    + intros [= <-]. rewrite disconnect_world.
      destruct (userRoom (world sv) !! socket user) as [ref|] eqn:Hroom; [|done].
      by eapply listed_inv_removeUser.
  - apply Hturn. done.
  - apply Hturn. done.
Qed.

Lemma listening_listed cats draws : listed_inv (world (listening cats draws)).
Proof.
  change (world (listening cats draws)) with (boot cats (generateId draws)).
  intros id ref r _ Hr Hdel. exfalso. revert Hr. unfold boot.
  pose proof (makeNewRoom_heap (generateId draws) "The Any Room" false None
                (emptyWorld cats)) as (_ & Hheap).
  destruct (makeNewRoom (generateId draws) "The Any Room" false None
              (emptyWorld cats)) as [ref' w]. simpl in Hheap.
  assert (∀ ref0 r0, heap w !! ref0 = Some r0 → deleteOnLastUser r0 = false)
    as Hall.
  { intros ref0 r0. rewrite Hheap, lookup_insert.
    case_decide; [by intros [= <-]|]. rewrite lookup_singleton.
    case_decide; [by intros [= <-]|done]. }
  simpl. rewrite lookup_alter. case_decide.
  - subst ref'. destruct (heap w !! ref) as [r0|] eqn:Hr0; simpl; [|done]. intros [= <-].
    apply Hall in Hr0. simpl in Hdel. congruence.
  - intros Hr. apply Hall in Hr. congruence.
Qed.

Lemma live_listed sv : live sv → listed_inv (world sv).
Proof.
  intros (cats & draws & evs & Hs).
  pose proof (listening_inv cats draws) as HI.
  pose proof (listening_listed cats draws) as HL.
  revert Hs HI HL. generalize (listening cats draws). revert sv.
  induction evs as [|ev evs IH]; intros sv sv0; simpl.
  - by intros [= <-].
  - destruct (receive sv0 ev) as [sv1|] eqn:Hr; [|done]. simpl.
    intros Hs HI HL. eapply IH; [done| |].
    + by eapply receive_inv.
    + by eapply receive_listed.
Qed.

(** X20.  On a running server every listed identifier leads to a game room
    with that identifier, and a listed room that is deleted with its last
    user (every room made by ['create room']) has at least one member: the
    room list never shows such a room with no player. *)
Theorem listed_rooms_have_members (sv : Server) (id : string) (ref : nat) :
  live sv → getRoomById id (world sv) = Some ref →
  ∃ r, heap (world sv) !! ref = Some r
    ∧ cls r = TriviaClass ∧ room_id r = id
    ∧ (deleteOnLastUser r = true →
         users r ≠ [] ∧ (1 ≤ playerCount (makeRoomInfoObject r))%nat).
Proof.
  intros Hlive Hg. pose proof (live_inv _ Hlive) as (_ & _ & HR).
  destruct (directory_inv_reachable _ HR) as (_ & Hd).
  destruct (Hd _ _ Hg) as (r & Hr & Hcls & Hid).
  exists r. split; [done|]. split; [done|]. split; [done|].
  intros Hdel. pose proof (live_listed _ Hlive _ _ _ Hg Hr Hdel) as Hne.
  split; [done|]. simpl. destruct (users r); [done|]. simpl. lia.
Qed.

Lemma listed_rooms_have_members_witness :
  ∃ r, heap (world (serverOf created)) !! 2%nat = Some r
    ∧ cls r = TriviaClass ∧ room_id r = "baaaa"
    ∧ (deleteOnLastUser r = true →
         users r ≠ [] ∧ (1 ≤ playerCount (makeRoomInfoObject r))%nat).
Proof.
  apply (listed_rooms_have_members (serverOf created) "baaaa" 2).
  - apply (live_serverOf created). vm_compute. reflexivity.
  - vm_compute. reflexivity.
Defined.
